(** * The document retrieval pipeline of the chat client

    A shallow embedding of [lib/rag-utils.ts] (chunker, cosine similarity,
    ingestion, similarity search), [lib/rag-db.ts] (the IndexedDB document
    store) and the retrieval step of [components/chat/chat.tsx], followed by
    the properties of the design specification that concern them.

    JavaScript numbers used as character offsets and counts are integers far
    below 2^53, where double arithmetic is exact: they are modelled in [Z].
    Similarities, embeddings and thresholds are IEEE 754 binary64 values:
    they are modelled by the primitive type [float], whose operations are
    the ones JavaScript performs.  Strings that are scanned (document text)
    are sequences of UTF-16 code units; strings that are only compared
    (record identifiers) are [string]. *)

From Stdlib Require Import ZArith List Bool Lia Floats QArith Permutation Sorted.
From stdpp Require Import base option gmap strings.
Import ListNotations.

Local Open Scope Z_scope.

(** ** JavaScript strings and the built-ins the chunker calls *)

Module JS.

(** A string is its sequence of UTF-16 code units. *)
Abbreviation js_string := (list N).

Definition str_length (s : js_string) : Z := Z.of_nat (length s).

Definition FULL_STOP : N := 46.
Definition SPACE : N := 32.

(** [WhiteSpace] and [LineTerminator] code points, the ones
    [String.prototype.trim] strips. *)
Definition is_white_space (c : N) : bool :=
  (N.leb 9 c && N.leb c 13) || N.eqb c 32 || N.eqb c 160 || N.eqb c 5760
  || (N.leb 8192 c && N.leb c 8202) || N.eqb c 8232 || N.eqb c 8233
  || N.eqb c 8239 || N.eqb c 8287 || N.eqb c 12288 || N.eqb c 65279.

Fixpoint trimStart (s : js_string) : js_string :=
  match s with
  | [] => []
  | c :: s' => if is_white_space c then trimStart s' else s
  end.

Definition trimEnd (s : js_string) : js_string := rev (trimStart (rev s)).

Definition trim (s : js_string) : js_string := trimEnd (trimStart s).

(** Index arguments of [slice]: a negative index counts from the end, and
    every index is clamped to [0, len]. *)
Definition relative_index (len i : Z) : Z :=
  if i <? 0 then Z.max (len + i) 0 else Z.min i len.

(** [s.slice(from, to)] *)
Definition slice (s : js_string) (from to : Z) : js_string :=
  let len := str_length s in
  let a := relative_index len from in
  let b := relative_index len to in
  firstn (Z.to_nat (b - a)) (skipn (Z.to_nat a) s).

(** Scan of [s] from index [i] upwards that remembers in [found] the last
    index not above [stop] where the code unit is [c]. *)
Fixpoint last_match (c : N) (s : js_string) (i stop found : Z) : Z :=
  match s with
  | [] => found
  | x :: s' =>
      if stop <? i then found
      else last_match c s' (i + 1) stop (if N.eqb x c then i else found)
  end.

(** [s.lastIndexOf(c, position)] for a one-unit search string: the greatest
    index [k <= min (max position 0) (len - 1)] with [s[k] = c], else [-1]. *)
Definition lastIndexOf (s : js_string) (c : N) (position : Z) : Z :=
  let len := str_length s in
  if len <? 1 then -1
  else last_match c s 0 (Z.min (Z.max position 0) (len - 1)) (-1).

End JS.

(** ** [lib/rag-utils.ts]: the chunker *)

Module Chunker.
Import JS.

Definition CHUNK_SIZE : Z := 512.
Definition CHUNK_OVERLAP : Z := 50.

(** [CHUNK_SIZE * 0.5], an exact product. *)
Definition HALF_CHUNK : Z := 256.

(** The object type [{ content, startIndex, endIndex }]. *)
Record TextChunk := mkTextChunk {
  content : js_string;
  startIndex : Z;
  endIndex : Z
}.

(** The value of [end] when a window starting at [start] is sliced: the hard
    window edge, pulled back to the last sentence end or else the last space
    when that lies beyond the middle of the window. *)
Definition window_end (text : js_string) (start : Z) : Z :=
  let e := Z.min (start + CHUNK_SIZE) (str_length text) in
  if e <? str_length text then
    let sentenceEnd := lastIndexOf text FULL_STOP e in
    let wordEnd := lastIndexOf text SPACE e in
    if start + HALF_CHUNK <? sentenceEnd then sentenceEnd + 1
    else if start + HALF_CHUNK <? wordEnd then wordEnd
    else e
  else e.

(** [chunks.push] guarded by [content.length > 0]. *)
Definition push_chunk (text : js_string) (start e : Z) (chunks : list TextChunk)
  : list TextChunk :=
  let c := trim (slice text start e) in
  if 0 <? str_length c then chunks ++ [mkTextChunk c start e] else chunks.

(** One pass through the body of the [while] loop, up to and including
    [start = end - CHUNK_OVERLAP]. *)
Definition loop_body (text : js_string) (st : Z * list TextChunk)
  : Z * list TextChunk :=
  let '(start, chunks) := st in
  let e := window_end text start in
  (e - CHUNK_OVERLAP, push_chunk text start e chunks).

(** The [while (start < text.length)] loop with its trailing
    [if (start >= text.length) break].  [fuel] bounds the number of passes;
    [None] means the bound was reached with the loop still running. *)
Fixpoint chunk_loop (fuel : nat) (text : js_string) (st : Z * list TextChunk)
  : option (list TextChunk) :=
  if fst st <? str_length text then
    match fuel with
    | O => None
    | S fuel' =>
        let st' := loop_body text st in
        if str_length text <=? fst st' then Some (snd st')
        else chunk_loop fuel' text st'
    end
  else Some (snd st).

Definition chunkText (fuel : nat) (text : js_string) : option (list TextChunk) :=
  if str_length text <=? CHUNK_SIZE
  then Some [mkTextChunk text 0 (str_length text)]
  else chunk_loop fuel text (0, []).

(** The loop state after [n] passes. *)
Fixpoint loop_state (n : nat) (text : js_string) : Z * list TextChunk :=
  match n with
  | O => (0, [])
  | S n' => loop_body text (loop_state n' text)
  end.

End Chunker.

(** ** [lib/rag-db.ts]: records of the two object stores *)

Module Document.
Record t := mk {
  id : string;
  name : string;
  type : string;
  size : Z;
  content : JS.js_string;
  uploadDate : string;
  chunkCount : Z
}.
End Document.

Module DocumentChunk.
(** [type] is not set by [processDocument]; it is absent ([None]) there. *)
Record t := mk {
  id : string;
  documentId : string;
  content : JS.js_string;
  embedding : list float;
  type : option string;
  startIndex : Z;
  endIndex : Z
}.
End DocumentChunk.

(** ** Thrown errors *)

Module Throw.

(** [new Error(message)] *)
Inductive JsError := Error (message : string).

(** A computation that returns a value or throws. *)
Definition result (A : Type) : Type := JsError + A.

Definition ret {A} (x : A) : result A := inr x.
Definition throw {A} (e : JsError) : result A := inl e.

Definition bind {A B} (r : result A) (k : A -> result B) : result B :=
  match r with
  | inl e => inl e
  | inr x => k x
  end.

(** [xs.map(f)] where [f] may throw: the first throw ends the traversal. *)
Fixpoint map_throw {A B} (f : A -> result B) (xs : list A) : result (list B) :=
  match xs with
  | [] => ret []
  | x :: xs' => bind (f x) (fun y => bind (map_throw f xs') (fun ys => ret (y :: ys)))
  end.

End Throw.

(** ** [Array.prototype.sort] with a comparison function *)

Module ArraySort.

Section Sort.
Context {A : Type}.
Variable comparefn : A -> A -> float.

(** [SortCompare]: a [NaN] answer of the comparison function counts as
    [+0]; only the sign of the answer is used. *)
Definition sort_compare (x y : A) : float :=
  let v := comparefn x y in
  if PrimFloat.is_nan v then 0%float else v.

(** [x] has to come after [y]. *)
Definition after (x y : A) : bool := PrimFloat.ltb 0%float (sort_compare x y).

(** [Array.prototype.sort] is required to be stable.  It is modelled as
    insertion sort: an element moves right past the elements it has to come
    after and stops at the first one it need not follow, so elements that
    compare equal keep their input order.  Whenever the comparison function
    after [SortCompare] is consistent on the elements, every stable sort
    returns this list; otherwise the language leaves the order to the
    engine. *)
Fixpoint insert (x : A) (sorted : list A) : list A :=
  match sorted with
  | [] => [x]
  | y :: sorted' => if after x y then y :: insert x sorted' else x :: sorted
  end.

Fixpoint sort (xs : list A) : list A :=
  match xs with
  | [] => []
  | x :: xs' => insert x (sort xs')
  end.

End Sort.

End ArraySort.

(** ** [lib/rag-utils.ts]: similarity and search *)

Module RagUtils.
Import Throw.

Local Open Scope float_scope.

(** The accumulation loop of [cosineSimilarity]: [(dotProduct, normA, normB)]
    after the remaining components are added. *)
Fixpoint accumulate (a b : list float) (acc : float * float * float)
  : float * float * float :=
  match a, b with
  | x :: a', y :: b' =>
      let '(dotProduct, normA, normB) := acc in
      accumulate a' b' (dotProduct + x * y, normA + x * x, normB + y * y)
  | _, _ => acc
  end.

Definition length_mismatch : JsError := Error "Vectors must have the same length".

(** The value [cosineSimilarity] returns once the lengths were found equal. *)
Definition cosine (a b : list float) : float :=
  let '(dotProduct, normA, normB) := accumulate a b (0, 0, 0) in
  dotProduct / (PrimFloat.sqrt normA * PrimFloat.sqrt normB).

Definition cosineSimilarity (a b : list float) : result float :=
  if Nat.eqb (length a) (length b) then ret (cosine a b)
  else throw length_mismatch.

(** The object type [{ chunk, similarity }]. *)
Record Scored := mkScored {
  chunk : DocumentChunk.t;
  similarity : float
}.

(** [(a, b) => b.similarity - a.similarity] *)
Definition by_similarity_desc (a b : Scored) : float :=
  similarity b - similarity a.

Section Search.
(** The embedding model is not part of the repository: [generateEmbedding]
    is any function from texts to vectors that may throw. *)
Variable generateEmbedding : JS.js_string -> result (list float).

Definition score (queryEmbedding : list float) (c : DocumentChunk.t) : result Scored :=
  bind (cosineSimilarity queryEmbedding (DocumentChunk.embedding c))
       (fun s => ret (mkScored c s)).

(** [topK] is a number of results (the setting [ragMaxResults], 5 when
    omitted), so [slice(0, topK)] keeps the first [topK] elements. *)
Definition searchSimilarChunks (query : JS.js_string) (chunks : list DocumentChunk.t)
    (topK : nat) : result (list Scored) :=
  if Nat.eqb (length chunks) 0 then ret []
  else
    bind (generateEmbedding query) (fun queryEmbedding =>
    bind (map_throw (score queryEmbedding) chunks) (fun similarities =>
    ret (firstn topK (ArraySort.sort by_similarity_desc similarities)))).

(** [components/chat/chat.tsx], [onSubmit]: the value of [filteredResults]
    when retrieval is enabled and the store holds chunks. *)
Definition filteredResults (input : JS.js_string) (chunks : list DocumentChunk.t)
    (ragMaxResults : nat) (ragSimilarityThreshold : float) : result (list Scored) :=
  bind (searchSimilarChunks input chunks ragMaxResults) (fun results =>
  ret (List.filter (fun r => PrimFloat.leb ragSimilarityThreshold (similarity r)) results)).

End Search.

End RagUtils.

(** ** [lib/rag-utils.ts]: ingestion *)

Module Ingest.
Import Throw.

(** What the outside observes of one run of [processDocument]: calls of the
    progress callback and calls of the embedding model, in program order. *)
Inductive Event :=
| OnProgress (progress : Q)
| Embed (text : JS.js_string).

(** The effects of [processDocument]: the observed calls so far and the
    number of identifiers already drawn from [generateUUID]. *)
Record World := mkWorld {
  trace : list Event;
  drawn : nat
}.

(** An effectful computation: it returns or throws, and leaves a world. *)
Definition M (A : Type) : Type := World -> result A * World.

Definition mret {A} (x : A) : M A := fun w => (ret x, w).

Definition mbind {A B} (m : M A) (k : A -> M B) : M B :=
  fun w =>
    match m w with
    | (inl e, w') => (inl e, w')
    | (inr x, w') => k x w'
    end.

Notation "'let*' x ':=' m 'in' k" := (mbind m (fun x => k))
  (at level 10, x pattern, m at level 100, k at level 200).

Definition emit (ev : Event) : M unit :=
  fun w => (ret tt, mkWorld (trace w ++ [ev]) (drawn w)).

Section Process.
Variable generateEmbedding : JS.js_string -> result (list float).
(** [generateUUID] of [lib/utils.ts], as the sequence of values it returns. *)
Variable generateUUID : nat -> string.

(** [await generateEmbedding(text)]: the call is observed, then it returns
    or throws. *)
Definition embed (text : JS.js_string) : M (list float) :=
  fun w => (generateEmbedding text, mkWorld (trace w ++ [Embed text]) (drawn w)).

Definition freshUUID : M string :=
  fun w => (ret (generateUUID (drawn w)), mkWorld (trace w) (S (drawn w))).

(** [onProgress?.(p)]: nothing happens when no callback was passed. *)
Definition call_optional (onProgress : option (Q -> M unit)) (p : Q) : M unit :=
  match onProgress with
  | Some f => f p
  | None => mret tt
  end.

(** [(i + 1) / textChunks.length]: a quotient of two small integers, kept
    exact.  The double JavaScript passes is this quotient correctly rounded. *)
Definition fraction (i total : nat) : Q :=
  (inject_Z (Z.of_nat i + 1) / inject_Z (Z.of_nat total))%Q.

(** The [for] loop of [processDocument] from index [i] on, [rest] being
    [textChunks] from that index and [chunks] the records pushed so far. *)
Fixpoint embed_loop (documentId : string) (onProgress : option (Q -> M unit))
    (total i : nat) (rest : list Chunker.TextChunk) (chunks : list DocumentChunk.t)
  : M (list DocumentChunk.t) :=
  match rest with
  | [] => mret chunks
  | textChunk :: rest' =>
      let* embedding := embed (Chunker.content textChunk) in
      let* uuid := freshUUID in
      let* _ := call_optional onProgress (fraction i total) in
      embed_loop documentId onProgress total (S i) rest'
        (chunks ++ [DocumentChunk.mk uuid documentId (Chunker.content textChunk)
                      embedding None (Chunker.startIndex textChunk)
                      (Chunker.endIndex textChunk)])
  end.

(** [processDocument(document, onProgress)].  [None] stands for a run in
    which [chunkText] is still looping after [fuel] passes. *)
Definition processDocument (fuel : nat) (document : Document.t)
    (onProgress : option (Q -> M unit)) : option (M (list DocumentChunk.t)) :=
  match Chunker.chunkText fuel (Document.content document) with
  | None => None
  | Some textChunks =>
      Some (let* _ := call_optional onProgress 0%Q in
            embed_loop (Document.id document) onProgress
              (length textChunks) 0 textChunks [])
  end.

(** The callback that only records the value it is called with. *)
Definition record_progress : Q -> M unit := fun p => emit (OnProgress p).

End Process.

(** The progress values of a trace, in the order of the calls. *)
Fixpoint progress_values (t : list Event) : list Q :=
  match t with
  | [] => []
  | OnProgress p :: t' => p :: progress_values t'
  | Embed _ :: t' => progress_values t'
  end.

End Ingest.

(** ** [lib/rag-db.ts]: the document store *)

Module RagDb.

(** The two object stores of the IndexedDB database, each keyed by the [id]
    of its records ([keyPath: 'id']). *)
Record RAGDatabase := mkDB {
  documents : gmap string Document.t;
  chunks : gmap string DocumentChunk.t
}.

(** [db.get('documents', id)] *)
Definition getDocumentById (db : RAGDatabase) (id : string) : option Document.t :=
  documents db !! id.

(** The index [by-document] on [documentId]: the store restricted to the
    records whose [documentId] is the given key.  IndexedDB keeps an index in
    step with its store, so it is modelled as this view of the store. *)
Definition by_document (store : gmap string DocumentChunk.t) (documentId : string)
  : gmap string DocumentChunk.t :=
  filter (fun kv => DocumentChunk.documentId kv.2 = documentId) store.

(** [index('by-document').getAllKeys(documentId)] *)
Definition getAllKeys (store : gmap string DocumentChunk.t) (documentId : string)
  : list string :=
  (map_to_list (by_document store documentId)).*1.

(** [db.getAllFromIndex('chunks', 'by-document', documentId)] *)
Definition getChunksByDocumentId (db : RAGDatabase) (documentId : string)
  : list DocumentChunk.t :=
  (map_to_list (by_document (chunks db) documentId)).*2.

(** *** Transactions

    A [readwrite] transaction works on its own view of the stores in its
    scope.  Other readers see the database as last committed: the writes of
    the transaction become visible together when it commits, and none of
    them does when a request fails, which aborts the transaction. *)

Inductive Request :=
| DeleteDocumentRecord (id : string)
| DeleteChunkRecord (key : string).

(** [objectStore(...).delete(key)]; deleting an absent key changes nothing
    and is no error. *)
Definition perform (r : Request) (view : RAGDatabase) : RAGDatabase :=
  match r with
  | DeleteDocumentRecord id => mkDB (delete id (documents view)) (chunks view)
  | DeleteChunkRecord key => mkDB (documents view) (delete key (chunks view))
  end.

(** The [for (const chunkKey of chunks)] loop of [deleteDocument]. *)
Definition delete_chunks (keys : list string) (view : RAGDatabase) : RAGDatabase :=
  fold_left (fun v key => perform (DeleteChunkRecord key) v) keys view.

(** The view of the transaction of [deleteDocument(id)] when it commits. *)
Definition deleteDocument (id : string) (db : RAGDatabase) : RAGDatabase :=
  let view := perform (DeleteDocumentRecord id) db in
  delete_chunks (getAllKeys (chunks view) id) view.

(** The write requests [deleteDocument(id)] issues, in order. *)
Definition deleteDocument_requests (id : string) (db : RAGDatabase) : list Request :=
  DeleteDocumentRecord id
  :: map DeleteChunkRecord (getAllKeys (chunks (perform (DeleteDocumentRecord id) db)) id).

(** A transaction in progress: the database as committed, and the view the
    transaction has built so far. *)
Record Tx := mkTx {
  committed : RAGDatabase;
  view : RAGDatabase
}.

Inductive Outcome :=
| Running (tx : Tx)
| Done (db : RAGDatabase)
| Aborted (db : RAGDatabase).

(** What any other reader of the database observes. *)
Definition observable (o : Outcome) : RAGDatabase :=
  match o with
  | Running tx => committed tx
  | Done db => db
  | Aborted db => db
  end.

(** The transaction of [deleteDocument] after [n] steps: request [k] is
    step [k], the commit ([await tx.done]) is the step after the last
    request.  [fails k] tells whether the storage layer makes request [k]
    fail. *)
Fixpoint run (fails : nat -> bool) (k : nat) (pending : list Request) (n : nat)
    (tx : Tx) {struct n} : Outcome :=
  match n with
  | O => Running tx
  | S n' =>
      match pending with
      | [] => Done (view tx)
      | r :: pending' =>
          if fails k then Aborted (committed tx)
          else run fails (S k) pending' n' (mkTx (committed tx) (perform r (view tx)))
      end
  end.

Definition deleteDocument_run (fails : nat -> bool) (id : string) (db : RAGDatabase)
    (n : nat) : Outcome :=
  run fails 0 (deleteDocument_requests id db) n (mkTx db db).

End RagDb.

(** * Notions used in the statements *)

Section Notions.
Import JS Chunker Throw RagUtils RagDb Ingest.

(** ** Chunk sequences *)


(** Every chunk ends after it starts. *)
Definition ends_after_starts (cs : list TextChunk) : Prop :=
  Forall (fun c => startIndex c < endIndex c) cs.

(** Start offsets never decrease along a chunk sequence. *)
Definition starts_nondecreasing (cs : list TextChunk) : Prop :=
  StronglySorted (fun c d => startIndex c <= startIndex d) cs.

(** What holds of the loop state [(start, chunks)] on a text that takes the
    loop: [start] leaves room for the overlap, and the chunks pushed so far
    are non-empty spans that start at or before [start]. *)
Definition loop_invariant (text : js_string) (st : Z * list TextChunk) : Prop :=
  0 <= fst st <= str_length text - CHUNK_OVERLAP
  /\ Forall (fun c => startIndex c <= fst st) (snd st)
  /\ ends_after_starts (snd st)
  /\ starts_nondecreasing (snd st).

(** A text of 513 letters [a], one more than a chunk holds. *)
Definition long_text : js_string := repeat 97%N 513.

(** ** Candidates and rankings *)

(** A candidate with the similarity the search computes for it. *)
Definition scored (queryEmbedding : list float) (c : DocumentChunk.t) : Scored :=
  mkScored c (cosine queryEmbedding (DocumentChunk.embedding c)).

(** The embeddings of all candidates have the length of the query's. *)
Definition same_dimension (queryEmbedding : list float) (chunks : list DocumentChunk.t)
  : Prop :=
  Forall (fun c => length (DocumentChunk.embedding c) = length queryEmbedding) chunks.

(** The elements of a list with their positions, counted from [k]. *)
Definition indexed_from {A : Type} (k : nat) (l : list A) : list (nat * A) :=
  combine (seq k (length l)) l.

(** The comparison function of the search, on candidates that carry their
    input position. *)
Definition by_similarity_desc_at (a b : nat * Scored) : float :=
  by_similarity_desc (snd a) (snd b).

Definition is_number (r : Scored) : Prop := PrimFloat.is_nan (similarity r) = false.

(** [a] may stand before [b] in a descending, stable ranking: its
    similarity is not smaller, and if the two are equal it came first in
    the input. *)
Definition ranked_before (a b : nat * Scored) : Prop :=
  PrimFloat.leb (similarity (snd b)) (similarity (snd a)) = true
  /\ (PrimFloat.eqb (similarity (snd a)) (similarity (snd b)) = true -> (fst a < fst b)%nat).

(** Similarities never increase along the list. *)
Definition descending (l : list Scored) : Prop :=
  StronglySorted (fun a b => PrimFloat.leb (similarity b) (similarity a) = true) l.

(** The query operation as the specification words it: rank all candidates,
    keep those at or above the threshold, then truncate to the first [k]. *)
Definition query_spec (generateEmbedding : JS.js_string -> result (list float))
    (queryText : JS.js_string) (allChunks : list DocumentChunk.t)
    (k : nat) (similarityThreshold : float) : result (list Scored) :=
  if Nat.eqb (length allChunks) 0 then ret []
  else
    bind (generateEmbedding queryText) (fun queryVector =>
    bind (map_throw (score queryVector) allChunks) (fun candidates =>
    let ranking := ArraySort.sort by_similarity_desc candidates in
    ret (firstn k
           (List.filter (fun r => PrimFloat.leb similarityThreshold (similarity r))
              ranking)))).

(** Concrete candidates: a chunk whose embedding has norm zero, two chunks
    with unit embeddings at a right angle, and a chunk with an embedding of
    another dimension. *)
Definition null_chunk : DocumentChunk.t :=
  DocumentChunk.mk "c1" "d1" [110%N] [0; 0]%float None 0 1.
Definition match_chunk : DocumentChunk.t :=
  DocumentChunk.mk "c2" "d1" [109%N] [1; 0]%float None 1 2.
Definition other_chunk : DocumentChunk.t :=
  DocumentChunk.mk "c3" "d1" [111%N] [0; 1]%float None 2 3.
Definition short_chunk : DocumentChunk.t :=
  DocumentChunk.mk "c4" "d1" [115%N] [1]%float None 3 4.

(** An embedding model that answers every text with the same vector. *)
Definition constant_embedder (v : list float) : JS.js_string -> Throw.result (list float) :=
  fun _ => Throw.ret v.

(** ** Stores *)

(** A store that holds one chunk of document [d1] and no document. *)
Definition stray_chunk : DocumentChunk.t :=
  DocumentChunk.mk "c1" "d1" [] [] None 0 0.

Definition stray_db : RAGDatabase :=
  mkDB ∅ {[ "c1" := stray_chunk ]}.

(** A store that holds document [d0] and its one chunk. *)
Definition kept_chunk : DocumentChunk.t :=
  DocumentChunk.mk "c0" "d0" [104; 105]%N [1%float] None 0 2.

Definition kept_db : RAGDatabase :=
  mkDB {[ "d0" := Document.mk "d0" "a.txt" "text/plain" 2 [104; 105]%N "2025" 1 ]}
       {[ "c0" := kept_chunk ]}.

(** ** Ingestion runs *)

(** The embedding model answers for the content of every text chunk. *)
Definition embeddable (generateEmbedding : JS.js_string -> result (list float))
    (textChunks : list Chunker.TextChunk) : Prop :=
  Forall (fun tc => exists v, generateEmbedding (Chunker.content tc) = ret v) textChunks.

(** The calls one chunk gives rise to: the model is called on its content,
    then the callback on the new fraction. *)
Definition chunk_events (total : nat) (itc : nat * Chunker.TextChunk) : list Event :=
  [Embed (Chunker.content (snd itc)); OnProgress (fraction (fst itc) total)].

(** The progress values of a complete run over [n] chunks. *)
Definition progress_sequence (n : nat) : list Q :=
  0%Q :: map (fun i => fraction i n) (seq 0 n).

(** A two-letter document and the chunk sequence of its text. *)
Definition note : Document.t :=
  Document.mk "d0" "note.txt" "text/plain" 2 [104; 105]%N "2025-01-01" 0.

Definition note_chunks : list Chunker.TextChunk :=
  [Chunker.mkTextChunk [104; 105]%N 0 2].

End Notions.

(** ** Binary64 numbers as the specification of the primitive type sees them *)

Module FloatNotions.

Abbreviation emin := (SpecFloat.emin prec emax).
Abbreviation fexp := (SpecFloat.fexp prec emax).

(** A float that is an infinity or a finite non-zero number of sign [s]. *)
Definition has_sign (s : bool) (f : spec_float) : Prop :=
  match f with
  | S754_infinity s' | S754_finite s' _ _ => s' = s
  | _ => False
  end.

(** The mantissa and exponent of a finite float of the format. *)
Definition canonical (m : positive) (e : Z) : Prop :=
  canonical_mantissa prec emax m e = true.

Definition is_nan_sf (f : spec_float) : bool :=
  match f with S754_nan => true | _ => false end.

(** Every float but [NaN] has a place in a lexicographic order on triples
    of integers. *)
Definition place (f : spec_float) : Z * Z * Z :=
  match f with
  | S754_infinity true => (-2, 0, 0)
  | S754_finite true m e => (-1, - e, Z.neg m)
  | S754_zero _ => (0, 0, 0)
  | S754_nan => (0, 0, 0)
  | S754_finite false m e => (1, e, Z.pos m)
  | S754_infinity false => (2, 0, 0)
  end.

Definition lex (a b : Z * Z * Z) : comparison :=
  let '(a1, a2, a3) := a in
  let '(b1, b2, b3) := b in
  match a1 ?= b1 with
  | Eq => match a2 ?= b2 with Eq => a3 ?= b3 | c => c end
  | c => c
  end.

End FloatNotions.

(** * More of the pipeline *)

(** ** [lib/rag-db.ts]: the other operations of the store *)

Module RagDbOps.
Import RagDb.

(** The [DOMException] with which IndexedDB rejects [add] on a key that is
    already in the store. *)
Inductive DbError := ConstraintError.

(** [db.add('documents', document)]: a transaction of its own; it is aborted
    when the key is taken, and the store stays as it was. *)
Definition addDocument (document : Document.t) (db : RAGDatabase)
  : DbError + RAGDatabase :=
  match documents db !! Document.id document with
  | Some _ => inl ConstraintError
  | None => inr (mkDB (<[Document.id document := document]> (documents db)) (chunks db))
  end.

(** The [for (const chunk of chunks) await tx.store.add(chunk)] loop on the
    view of the transaction: the first [add] on a taken key rejects. *)
Fixpoint add_chunks (batch : list DocumentChunk.t) (view : gmap string DocumentChunk.t)
  : DbError + gmap string DocumentChunk.t :=
  match batch with
  | [] => inr view
  | chunk :: batch' =>
      match view !! DocumentChunk.id chunk with
      | Some _ => inl ConstraintError
      | None => add_chunks batch' (<[DocumentChunk.id chunk := chunk]> view)
      end
  end.

(** [addDocumentChunks(chunks)]: one [readwrite] transaction on the chunk
    store, committed by [await tx.done]; a rejected [add] aborts it. *)
Definition addDocumentChunks (batch : list DocumentChunk.t) (db : RAGDatabase)
  : DbError + RAGDatabase :=
  match add_chunks batch (chunks db) with
  | inl e => inl e
  | inr view => inr (mkDB (documents db) view)
  end.

(** [db.getAll('documents')] and [db.getAll('chunks')].  IndexedDB lists the
    records by ascending key; the order of these lists is left open. *)
Definition getAllDocuments (db : RAGDatabase) : list Document.t :=
  (map_to_list (documents db)).*2.

Definition getAllChunks (db : RAGDatabase) : list DocumentChunk.t :=
  (map_to_list (chunks db)).*2.

(** [clearAllDocuments()]: both stores are cleared in one transaction. *)
Definition clearAllDocuments (db : RAGDatabase) : RAGDatabase :=
  mkDB ∅ ∅.

End RagDbOps.

(** ** [lib/rag-utils.ts]: embedding a batch of texts *)

Module Embeddings.
Import Throw Ingest.

Section Batch.
Variable generateEmbedding : JS.js_string -> result (list float).

(** The [for (const text of texts)] loop of [generateEmbeddings], with the
    vectors pushed so far. *)
Fixpoint embeddings_loop (texts : list JS.js_string) (embeddings : list (list float))
  : M (list (list float)) :=
  match texts with
  | [] => mret embeddings
  | text :: texts' =>
      let* embedding := embed generateEmbedding text in
      embeddings_loop texts' (embeddings ++ [embedding])
  end.

Definition generateEmbeddings (texts : list JS.js_string) : M (list (list float)) :=
  embeddings_loop texts [].

End Batch.

End Embeddings.

(** ** [lib/rag-utils.ts]: the context block of the prompt *)

Module Format.
Import JS RagUtils.

(** The code units of a literal of ASCII characters. *)
Definition lit (s : string) : js_string :=
  map (fun a => N.of_nat (Ascii.nat_of_ascii a)) (String.list_ascii_of_string s).

(** The line feed written [\n] in the source. *)
Definition LF : js_string := [10%N].

(** The decimal digits of a number, most significant first. *)
Fixpoint digits (d : Decimal.uint) : js_string :=
  match d with
  | Decimal.Nil => []
  | Decimal.D0 d' => 48%N :: digits d'
  | Decimal.D1 d' => 49%N :: digits d'
  | Decimal.D2 d' => 50%N :: digits d'
  | Decimal.D3 d' => 51%N :: digits d'
  | Decimal.D4 d' => 52%N :: digits d'
  | Decimal.D5 d' => 53%N :: digits d'
  | Decimal.D6 d' => 54%N :: digits d'
  | Decimal.D7 d' => 55%N :: digits d'
  | Decimal.D8 d' => 56%N :: digits d'
  | Decimal.D9 d' => 57%N :: digits d'
  end.

(** A natural number in a template literal. *)
Definition decimal (n : nat) : js_string := digits (Nat.to_uint n).

(** [parts.join(separator)] *)
Fixpoint join (separator : js_string) (parts : list js_string) : js_string :=
  match parts with
  | [] => []
  | [part] => part
  | part :: parts' => part ++ separator ++ join separator parts'
  end.

Definition CONTEXT_OPEN : js_string := lit "[CONTEXT]".
Definition CONTEXT_CLOSE : js_string := lit "[END CONTEXT]".

Section Formatting.
(** [Number.prototype.toFixed(1)], the decimal notation of a double with
    one digit after the point; it is not part of the repository. *)
Variable toFixed1 : float -> js_string.

(** The template literal of one result, [index] counted from 0. *)
Definition contextSection (index : nat) (result : Scored) : js_string :=
  lit "[Document " ++ decimal (index + 1) ++ lit "] (Relevance: "
  ++ toFixed1 (similarity result * 100)%float ++ lit "%)" ++ LF
  ++ DocumentChunk.content (chunk result).

Definition contextSections (results : list Scored) : list js_string :=
  imap contextSection results.

Definition formatRetrievedContext (results : list Scored) : js_string :=
  if Nat.eqb (length results) 0 then []
  else
    CONTEXT_OPEN ++ LF
    ++ lit "The following information has been retrieved from your uploaded documents to help answer your question:"
    ++ LF ++ LF
    ++ join (LF ++ LF) (contextSections results)
    ++ LF ++ LF ++ CONTEXT_CLOSE ++ LF ++ LF.

End Formatting.

End Format.

(** ** [components/chat/chat-message.tsx]: what is shown of a message *)

Module Display.
Import JS Format.

(** [s] starts with the code units of [pattern]. *)
Fixpoint starts_with (pattern s : js_string) : bool :=
  match pattern, s with
  | [], _ => true
  | p :: pattern', c :: s' => N.eqb p c && starts_with pattern' s'
  | _ :: _, [] => false
  end.

(** The index of the first occurrence of [pattern] in [s]. *)
Fixpoint first_index (pattern s : js_string) : option nat :=
  if starts_with pattern s then Some 0%nat
  else
    match s with
    | [] => None
    | _ :: s' => option_map S (first_index pattern s')
    end.

(** The length of the longest prefix of white space, what [\s*] matches. *)
Fixpoint white_space_run (s : js_string) : nat :=
  match s with
  | c :: s' => if is_white_space c then S (white_space_run s') else 0%nat
  | [] => 0%nat
  end.

Definition THINK_OPEN : js_string := lit "<think>".
Definition THINK_CLOSE : js_string := lit "</think>".

(** The regular expression [<think>[\s\S]*?(?:<\/think>|$)] tried at the
    beginning of [s]: the length of its match.  The lazy [[\s\S]*?] stops
    at the first [</think>]; without one, [$] lets the match run to the end. *)
Definition think_match (s : js_string) : option nat :=
  if starts_with THINK_OPEN s then
    match first_index THINK_CLOSE (skipn (length THINK_OPEN) s) with
    | Some q => Some (length THINK_OPEN + q + length THINK_CLOSE)%nat
    | None => Some (length s)
    end
  else None.

(** The regular expression [\[CONTEXT\][\s\S]*?\[END CONTEXT\]\s*] tried at
    the beginning of [s]: the length of its match.  The lazy [[\s\S]*?]
    stops at the first [[END CONTEXT]], and [\s*] takes all the white space
    that follows. *)
Definition context_match (s : js_string) : option nat :=
  if starts_with CONTEXT_OPEN s then
    let rest := skipn (length CONTEXT_OPEN) s in
    match first_index CONTEXT_CLOSE rest with
    | Some q =>
        Some (length CONTEXT_OPEN + q + length CONTEXT_CLOSE
              + white_space_run (skipn (q + length CONTEXT_CLOSE) rest))%nat
    | None => None
    end
  else None.

(** [s.replace(regex, '')] for a global [regex] that matches no empty
    string, [matcher] giving the length of its match at the beginning of a
    text.  The text is scanned from the left: where the expression matches,
    the match is dropped and the scan goes on after it; [skip] counts the
    code units of a match that are still to be dropped. *)
Fixpoint remove_matches (matcher : js_string -> option nat) (skip : nat)
    (s : js_string) : js_string :=
  match s with
  | [] => []
  | c :: s' =>
      match skip with
      | S k => remove_matches matcher k s'
      | O =>
          match matcher s with
          | Some (S k) => remove_matches matcher k s'
          | _ => c :: remove_matches matcher 0 s'
          end
      end
  end.

(** The group of [\[CONTEXT\]([\s\S]*?)\[END CONTEXT\]] when the expression
    matches at the beginning of [s]. *)
Definition context_capture (s : js_string) : option js_string :=
  if starts_with CONTEXT_OPEN s then
    let rest := skipn (length CONTEXT_OPEN) s in
    match first_index CONTEXT_CLOSE rest with
    | Some q => Some (firstn q rest)
    | None => None
    end
  else None.

(** [content.match(...)]: the group of the leftmost match. *)
Fixpoint first_capture (s : js_string) : option js_string :=
  match context_capture s with
  | Some group => Some group
  | None =>
      match s with
      | [] => None
      | _ :: s' => first_capture s'
      end
  end.

(** [getRagContext(content)]: [match ? match[1].trim() : null] *)
Definition getRagContext (content : js_string) : option js_string :=
  option_map trim (first_capture content).

Definition contentWithoutThink (content : js_string) : js_string :=
  trim (remove_matches think_match 0 content).

(** [cleanContent], the text shown for a message. *)
Definition cleanContent (content : js_string) : js_string :=
  trim (remove_matches context_match 0 (contentWithoutThink content)).

(** [ragContext] of a message of the user. *)
Definition ragContext (content : js_string) : option js_string :=
  getRagContext (contentWithoutThink content).

End Display.

(** ** [components/chat/chat.tsx]: the message sent for a question *)

Module Submit.
Import Throw RagUtils RagDb RagDbOps Format.

Section OnSubmit.
Variable generateEmbedding : JS.js_string -> result (list float).
Variable toFixed1 : float -> JS.js_string.

(** The value of [augmentedInput] when [onSubmit] builds the request, a
    model being selected.  The [catch] around the retrieval leaves the
    input as it is. *)
Definition augmentedInput (isRAGEnabled : bool) (db : RAGDatabase)
    (input : JS.js_string) (ragMaxResults : nat) (ragSimilarityThreshold : float)
  : JS.js_string :=
  if isRAGEnabled then
    let chunks := getAllChunks db in
    if Nat.eqb (length chunks) 0 then input
    else
      match filteredResults generateEmbedding input chunks ragMaxResults
              ragSimilarityThreshold with
      | inl _ => input
      | inr filtered =>
          if Nat.ltb 0 (length filtered)
          then formatRetrievedContext toFixed1 filtered ++ input
          else input
      end
  else input.

End OnSubmit.

End Submit.

(** ** The document manager of [components/chat/chat.tsx]: [processFile] *)

Module Manager.
Import Throw Ingest RagDb RagDbOps.

(** [readPDFAsText], on the text items of the pages of the document as
    PDF.js lists them ([item.str], page by page): the loop that appends to
    [fullText] the items of a page joined by a space, and a line feed. *)
Definition readPDFAsText (pages : list (list JS.js_string)) : JS.js_string :=
  fold_left (fun fullText items => fullText ++ (Format.join [JS.SPACE] items ++ Format.LF))
    pages [].

(** What [processFile] uses of a [File]: its name, type and size, and what
    reading it as text gives ([readFileAsText] or [readPDFAsText]). *)
Record File := mkFile {
  name : string;
  type : string;
  size : Z;
  text : result JS.js_string
}.

(** The state [processFile] works on: the calls observed so far with the
    identifiers drawn, and the database. *)
Record App := mkApp {
  world : World;
  db : RAGDatabase
}.

(** The error caught at the end of [processFile]. *)
Inductive Caught :=
| Thrown (e : JsError)
| Rejected (e : DbError).

(** The toast [processFile] ends with. *)
Inductive Outcome :=
| Processed (chunkCount : nat)
| Failed (error : Caught).

Definition empty_file : JsError := Error "File appears to be empty or unreadable".

Section ProcessFile.
Variable generateEmbedding : JS.js_string -> result (list float).
Variable generateUUID : nat -> string.

(** [file.type || "text/plain"] *)
Definition type_or_plain (type : string) : string :=
  if String.eqb type "" then "text/plain" else type.

Definition with_chunkCount (document : Document.t) (n : nat) : Document.t :=
  Document.mk (Document.id document) (Document.name document) (Document.type document)
    (Document.size document) (Document.content document) (Document.uploadDate document)
    (Z.of_nat n).

(** [processFile(file)], with [uploadDate] the time of the call.  [None]
    stands for a run in which [chunkText] is still looping after [fuel]
    passes. *)
Definition processFile (fuel : nat) (file : File) (uploadDate : string) (app : App)
  : option (Outcome * App) :=
  match text file with
  | inl e => Some (Failed (Thrown e), app)
  | inr content =>
      if Nat.eqb (length (JS.trim content)) 0
      then Some (Failed (Thrown empty_file), app)
      else
        let document :=
          Document.mk (generateUUID (drawn (world app))) (name file)
            (type_or_plain (type file)) (size file) content uploadDate 0 in
        let w1 := mkWorld (trace (world app)) (S (drawn (world app))) in
        match processDocument generateEmbedding generateUUID fuel document
                (Some record_progress) with
        | None => None
        | Some run =>
            match run w1 with
            | (inl e, w2) => Some (Failed (Thrown e), mkApp w2 (db app))
            | (inr chunks, w2) =>
                match addDocument (with_chunkCount document (length chunks)) (db app) with
                | inl e => Some (Failed (Rejected e), mkApp w2 (db app))
                | inr db1 =>
                    match addDocumentChunks chunks db1 with
                    | inl e => Some (Failed (Rejected e), mkApp w2 db1)
                    | inr db2 => Some (Processed (length chunks), mkApp w2 db2)
                    end
                end
            end
        end
  end.

(** The [for (const file of acceptedFiles)] loop of [onDrop]: the files are
    processed one after the other, [now k] being the time at which the file
    at position [k] is processed. *)
Fixpoint process_files (fuel : nat) (files : list File) (now : nat -> string) (k : nat)
    (app : App) : option (list Outcome * App) :=
  match files with
  | [] => Some ([], app)
  | file :: files' =>
      match processFile fuel file (now k) app with
      | None => None
      | Some (outcome, app1) =>
          match process_files fuel files' now (S k) app1 with
          | None => None
          | Some (outcomes, app2) => Some (outcome :: outcomes, app2)
          end
      end
  end.

(** [onDrop(acceptedFiles)]: the messages shown, the state left, and the
    documents listed by the [loadDocuments] that ends it. *)
Definition onDrop (fuel : nat) (acceptedFiles : list File) (now : nat -> string)
    (app : App) : option (list Outcome * App * list Document.t) :=
  match process_files fuel acceptedFiles now 0 app with
  | None => None
  | Some (outcomes, app') => Some (outcomes, app', getAllDocuments (db app'))
  end.

End ProcessFile.

End Manager.

(** ** [lib/config.ts]: the address of the Ollama server *)

Module Config.

Definition HARDCODED_OLLAMA_URL : string := "http://51.159.155.179:11434".

(** [getOllamaUrl()], [env] being [process.env.OLLAMA_URL]: a string, or
    [undefined] when the variable is not set.  The empty string is falsy. *)
Definition getOllamaUrl (env : option string) : string :=
  match env with
  | Some envUrl =>
      if negb (String.eqb envUrl "") && negb (String.eqb envUrl "undefined")
      then envUrl
      else HARDCODED_OLLAMA_URL
  | None => HARDCODED_OLLAMA_URL
  end.

Definition getHardcodedOllamaUrl : string := HARDCODED_OLLAMA_URL.

End Config.

(** The other version of the file, with a switch for the fallback. *)
Module ConfigSwitch.
Import Throw.

Definition USE_HARDCODED_FALLBACK : bool := true.
Definition HARDCODED_OLLAMA_URL : string := "http://51.159.155.179:11434".

Definition not_set : JsError :=
  Error "OLLAMA_URL environment variable is not set and hardcoded fallback is disabled".

Definition getOllamaUrl (env : option string) : result string :=
  match env with
  | Some envUrl =>
      if negb (String.eqb envUrl "") then ret envUrl
      else if USE_HARDCODED_FALLBACK then ret HARDCODED_OLLAMA_URL
      else throw not_set
  | None =>
      if USE_HARDCODED_FALLBACK then ret HARDCODED_OLLAMA_URL
      else throw not_set
  end.

End ConfigSwitch.

(** ** Notions used in the further statements *)

Section MoreNotions.
Import RagDb RagDbOps.

(** Every stored chunk belongs to a stored document. *)
Definition no_orphans (db : RAGDatabase) : Prop :=
  forall key c, chunks db !! key = Some c ->
    is_Some (documents db !! DocumentChunk.documentId c).

(** The chunks of a batch have identifiers that differ from one another and
    from those in the store. *)
Definition fresh_ids (batch : list DocumentChunk.t) (store : gmap string DocumentChunk.t)
  : Prop :=
  NoDup (map DocumentChunk.id batch)
  /\ Forall (fun c => store !! DocumentChunk.id c = None) batch.

(** The code unit of [text] at index [k] is [c]. *)
Definition unit_at (text : JS.js_string) (k : Z) (c : N) : Prop :=
  0 <= k /\ nth_error text (Z.to_nat k) = Some c.

(** [k] is the last index in the interval [(lo, hi]] at which [text] holds
    [c]. *)
Definition last_in (text : JS.js_string) (c : N) (lo hi k : Z) : Prop :=
  lo < k <= hi /\ unit_at text k c
  /\ forall j, k < j <= hi -> ~ unit_at text j c.

(** [text] holds no [c] at the indices of [(lo, hi]]. *)
Definition none_in (text : JS.js_string) (c : N) (lo hi : Z) : Prop :=
  forall j, lo < j <= hi -> ~ unit_at text j c.

(** Neither the first nor the last code unit of [s] is white space. *)
Definition trimmed (s : JS.js_string) : Prop :=
  (forall x, hd_error s = Some x -> JS.is_white_space x = false)
  /\ (forall x, hd_error (rev s) = Some x -> JS.is_white_space x = false).

(** [c] is a chunk of [text]: a non-empty span inside the text, with the
    trimmed text of the span as its content, which is not empty. *)
Definition chunk_of (text : JS.js_string) (c : Chunker.TextChunk) : Prop :=
  0 <= Chunker.startIndex c < Chunker.endIndex c
  /\ Chunker.endIndex c <= JS.str_length text
  /\ Chunker.content c
     = JS.trim (JS.slice text (Chunker.startIndex c) (Chunker.endIndex c))
  /\ Chunker.content c <> []
  /\ trimmed (Chunker.content c).

(** [d] may follow [c] in the sequence of the chunks: it starts and ends no
    earlier, and it starts at most [CHUNK_OVERLAP] before the end of [c]. *)
Definition follows (c d : Chunker.TextChunk) : Prop :=
  Chunker.startIndex c <= Chunker.startIndex d
  /\ Chunker.endIndex c <= Chunker.endIndex d
  /\ Chunker.endIndex c - Chunker.CHUNK_OVERLAP <= Chunker.startIndex d.

(** Each chunk of the sequence is followed by the next. *)
Definition chained (cs : list Chunker.TextChunk) : Prop :=
  forall i c d, cs !! i = Some c -> cs !! S i = Some d -> follows c d.

(** What holds of the loop state on a text that takes the loop. *)
Definition pushed_invariant (text : JS.js_string) (st : Z * list Chunker.TextChunk)
  : Prop :=
  0 <= fst st <= JS.str_length text - Chunker.CHUNK_OVERLAP
  /\ Forall (chunk_of text) (snd st)
  /\ chained (snd st)
  /\ forall c, last (snd st) = Some c ->
       Chunker.startIndex c <= fst st
       /\ Chunker.endIndex c <= fst st + Chunker.CHUNK_OVERLAP.

(** A text with a full stop after 300 letters, 601 code units long. *)
Definition two_sentences : JS.js_string :=
  repeat 97%N 300 ++ [JS.FULL_STOP] ++ repeat 97%N 300.

(** The embedding model answers each text of a list with the vector at the
    same position. *)
Definition embedded (generateEmbedding : JS.js_string -> Throw.result (list float))
    (texts : list JS.js_string) (vectors : list (list float)) : Prop :=
  Forall2 (fun text v => generateEmbedding text = Throw.ret v) texts vectors.

(** The record [processDocument] builds for a text chunk. *)
Definition chunk_record (documentId uuid : string) (tc : Chunker.TextChunk)
    (embedding : list float) : DocumentChunk.t :=
  DocumentChunk.mk uuid documentId (Chunker.content tc) embedding None
    (Chunker.startIndex tc) (Chunker.endIndex tc).

(** The records of a sequence of text chunks, the identifiers being the
    values of [generateUUID] from draw [k] on. *)
Fixpoint chunk_records (generateUUID : nat -> string) (documentId : string) (k : nat)
    (textChunks : list Chunker.TextChunk) (vectors : list (list float))
  : list DocumentChunk.t :=
  match textChunks, vectors with
  | tc :: textChunks', v :: vectors' =>
      chunk_record documentId (generateUUID k) tc v
      :: chunk_records generateUUID documentId (S k) textChunks' vectors'
  | _, _ => []
  end.

(** A progress callback that returns: it may add to the observed calls and
    does nothing else. *)
Definition returns_quietly (onProgress : option (Q -> Ingest.M unit)) : Prop :=
  match onProgress with
  | None => True
  | Some f =>
      forall p w, exists events,
        f p w = (Throw.ret tt, Ingest.mkWorld (Ingest.trace w ++ events) (Ingest.drawn w))
  end.

(** [deleteDocument] called for each identifier of a list in turn. *)
Definition delete_each (ids : list string) (db : RAGDatabase) : RAGDatabase :=
  fold_left (fun db id => deleteDocument id db) ids db.

(** The keys of the stored documents. *)
Definition document_keys (db : RAGDatabase) : list string :=
  (map_to_list (documents db)).*1.

(** [pattern] occurs in [s]. *)
Fixpoint occurs (pattern s : JS.js_string) : bool :=
  Display.starts_with pattern s
  || match s with
     | [] => false
     | _ :: s' => occurs pattern s'
     end.

(** A text that holds neither [<think>] nor [[END CONTEXT]]. *)
Definition unmarked (s : JS.js_string) : Prop :=
  occurs Display.THINK_OPEN s = false /\ occurs Format.CONTEXT_CLOSE s = false.

(** A code unit other than [<] and [[]. *)
Definition plain (c : N) : Prop := c <> 60%N /\ c <> 91%N.

(** The first line of the context block. *)
Definition context_header : JS.js_string :=
  Format.lit "The following information has been retrieved from your uploaded documents to help answer your question:".

(** What stands between the two markers of the context block. *)
Definition context_body (toFixed1 : float -> JS.js_string) (results : list RagUtils.Scored)
  : JS.js_string :=
  Format.LF ++ context_header ++ Format.LF ++ Format.LF
  ++ Format.join (Format.LF ++ Format.LF) (Format.contextSections toFixed1 results)
  ++ Format.LF ++ Format.LF.

(** A notation of one digit after the point, as an example. *)
Definition fixed_example : float -> JS.js_string := fun _ => Format.lit "100.0".

(** The chunk of the last [CHUNK_OVERLAP] code units of a text. *)
Definition tail_chunk (text : JS.js_string) : Chunker.TextChunk :=
  Chunker.mkTextChunk
    (JS.trim (JS.slice text (JS.str_length text - Chunker.CHUNK_OVERLAP)
                (JS.str_length text)))
    (JS.str_length text - Chunker.CHUNK_OVERLAP) (JS.str_length text).

(** A text without a character other than white space. *)
Definition blank (s : JS.js_string) : Prop :=
  Forall (fun c => JS.is_white_space c = true) s.

(** The record [processFile] stores for a file with the given content, and
    the state it leaves when the file was processed as one chunk with the
    embedding [v]. *)
Definition uploaded_document (generateUUID : nat -> string) (file : Manager.File)
    (content : JS.js_string) (uploadDate : string) (app : Manager.App) : Document.t :=
  Document.mk (generateUUID (Ingest.drawn (Manager.world app))) (Manager.name file)
    (Manager.type_or_plain (Manager.type file)) (Manager.size file) content uploadDate 1.

Definition uploaded_chunk (generateUUID : nat -> string) (content : JS.js_string)
    (v : list float) (app : Manager.App) : DocumentChunk.t :=
  chunk_record (generateUUID (Ingest.drawn (Manager.world app)))
    (generateUUID (S (Ingest.drawn (Manager.world app))))
    (Chunker.mkTextChunk content 0 (JS.str_length content)) v.

Definition uploaded (generateUUID : nat -> string) (file : Manager.File)
    (content : JS.js_string) (uploadDate : string) (v : list float) (app : Manager.App)
  : Manager.App :=
  let document := uploaded_document generateUUID file content uploadDate app in
  let chunk := uploaded_chunk generateUUID content v app in
  Manager.mkApp
    (Ingest.mkWorld
       (Ingest.trace (Manager.world app)
        ++ [Ingest.OnProgress 0; Ingest.Embed content;
            Ingest.OnProgress (Ingest.fraction 0 1)])
       (S (S (Ingest.drawn (Manager.world app)))))
    (mkDB (<[Document.id document := document]> (documents (Manager.db app)))
          (<[DocumentChunk.id chunk := chunk]> (chunks (Manager.db app)))).

(** A file of two letters, a file of 513 letters, and a session that starts
    on the store [kept_db]. *)
Definition small_file : Manager.File :=
  Manager.mkFile "hi.txt" "" 2 (Throw.ret [104; 105]%N).

Definition long_file : Manager.File :=
  Manager.mkFile "long.txt" "text/plain" 513 (Throw.ret long_text).

(** The times of a day, as an example of a clock. *)
Definition example_clock : nat -> string := fun _ => "2025-01-03".

Definition session : Manager.App := Manager.mkApp (Ingest.mkWorld [] 0) kept_db.

(** The session after [small_file] was turned down by the chunk store, the
    identifier drawn for its chunk being taken: its record is stored. *)
Definition half_stored : Manager.App :=
  Manager.mkApp
    (Ingest.mkWorld
       [Ingest.OnProgress 0; Ingest.Embed [104; 105]%N;
        Ingest.OnProgress (Ingest.fraction 0 1)] 2)
    (mkDB (<["c0" := Document.mk "c0" "hi.txt" "text/plain" 2 [104; 105]%N
                       "2025-01-03" 1]> (documents kept_db))
          (chunks kept_db)).

Definition numbered (k : nat) : string :=
  match k with
  | O => "u0"
  | 1%nat => "u1"
  | _ => "u2"
  end.

(** An embedding model that is out of service. *)
Definition model_down : Throw.JsError := Throw.Error "model unavailable".

Definition failing_embedder (e : Throw.JsError)
  : JS.js_string -> Throw.result (list float) :=
  fun _ => Throw.throw e.

(** A second document, the owner of the chunks [null_chunk] and
    [match_chunk]. *)
Definition second_note : Document.t :=
  Document.mk "d1" "more.txt" "text/plain" 2 [110; 109]%N "2025-01-02" 2.

End MoreNotions.

(** ** More notions of binary64 numbers *)

Module MoreFloatNotions.

(** A zero of either sign, or [NaN]. *)
Definition zero_or_nan (f : spec_float) : Prop :=
  match f with
  | S754_zero _ | S754_nan => True
  | _ => False
  end.

Definition is_zero_sf (f : spec_float) : Prop :=
  match f with
  | S754_zero _ => True
  | _ => False
  end.

(** Every component is a zero, of either sign. *)
Definition zero_vector (v : list float) : Prop :=
  Forall (fun x => PrimFloat.is_zero x = true) v.

(** Some component is [NaN]. *)
Definition has_nan (v : list float) : Prop :=
  Exists (fun x => PrimFloat.is_nan x = true) v.

End MoreFloatNotions.

(** * Properties *)

(** ** The chunker *)

Section ChunkerFacts.
Import JS Chunker.

Lemma last_match_le c s : forall i stop found,
  found <= stop -> last_match c s i stop found <= stop.
Proof.
  induction s as [|x s IH]; intros i stop found Hf; simpl; [exact Hf|].
  destruct (Z.ltb_spec stop i); [exact Hf|].
  apply IH. destruct (N.eqb x c); lia.
Qed.

Lemma lastIndexOf_lt_length s c position : lastIndexOf s c position < str_length s.
Proof.
  unfold lastIndexOf, str_length.
  destruct (Z.ltb_spec (Z.of_nat (length s)) 1); [lia|].
  pose proof (last_match_le c s 0
    (Z.min (Z.max position 0) (Z.of_nat (length s) - 1)) (-1)). lia.
Qed.

(** [end] never passes the end of the text. *)
Lemma window_end_le_length text start : window_end text start <= str_length text.
Proof.
  unfold window_end.
  destruct (Z.ltb_spec (Z.min (start + CHUNK_SIZE) (str_length text)) (str_length text));
    [|lia].
  pose proof (lastIndexOf_lt_length text FULL_STOP
                (Z.min (start + CHUNK_SIZE) (str_length text))).
  pose proof (lastIndexOf_lt_length text SPACE
                (Z.min (start + CHUNK_SIZE) (str_length text))).
  repeat match goal with |- context [?a <? ?b] => destruct (Z.ltb_spec a b) end; lia.
Qed.

(** So the next [start], which is [end - CHUNK_OVERLAP], stays below the
    length of the text: the exit test [start >= text.length] never holds. *)
Lemma loop_body_below_length text st : fst (loop_body text st) < str_length text.
Proof.
  destruct st as [start chunks]. simpl.
  pose proof (window_end_le_length text start). unfold CHUNK_OVERLAP. lia.
Qed.

Lemma chunk_loop_runs_on text : forall fuel st,
  fst st < str_length text -> chunk_loop fuel text st = None.
Proof.
  induction fuel as [|fuel IH]; intros st Hst; simpl.
  - destruct (Z.ltb_spec (fst st) (str_length text)); [reflexivity|lia].
  - destruct (Z.ltb_spec (fst st) (str_length text)); [|lia].
    pose proof (loop_body_below_length text st) as Hb.
    destruct (Z.leb_spec (str_length text) (fst (loop_body text st))); [lia|].
    apply IH, Hb.
Qed.

(** On a text longer than [CHUNK_SIZE] the loop is entered and never left,
    whatever the number of passes allowed. *)
Lemma chunkText_long_runs_on text fuel :
  CHUNK_SIZE < str_length text -> chunkText fuel text = None.
Proof.
  intros Hlong. unfold chunkText.
  destruct (Z.leb_spec (str_length text) CHUNK_SIZE); [lia|].
  apply chunk_loop_runs_on. simpl. unfold CHUNK_SIZE in *. lia.
Qed.

(** Once [start] is [CHUNK_OVERLAP] before the end of the text, a pass of
    the loop leaves it there. *)
Lemma loop_body_stalls text chunks :
  CHUNK_SIZE < str_length text ->
  fst (loop_body text (str_length text - CHUNK_OVERLAP, chunks))
  = str_length text - CHUNK_OVERLAP.
Proof.
  intros Hlong. cbn [loop_body fst]. unfold window_end, CHUNK_SIZE, CHUNK_OVERLAP in *.
  destruct (Z.ltb_spec (Z.min (str_length text - 50 + 512) (str_length text))
              (str_length text)); lia.
Qed.

Lemma window_end_ge text start :
  start <= str_length text - CHUNK_OVERLAP ->
  start + CHUNK_OVERLAP <= window_end text start.
Proof.
  intros Hs. unfold window_end, CHUNK_SIZE, CHUNK_OVERLAP, HALF_CHUNK in *.
  repeat match goal with |- context [?a <? ?b] => destruct (Z.ltb_spec a b) end; lia.
Qed.

Lemma trim_nil : trim [] = [].
Proof. reflexivity. Qed.

(** A slice that is not empty ends after it starts. *)
Lemma slice_nonempty text start e :
  0 <= start -> 0 <= e -> slice text start e <> [] -> start < e.
Proof.
  intros Hs He Hne. destruct (Z.ltb_spec start e) as [|Hle]; [assumption|].
  exfalso. apply Hne. unfold slice, relative_index.
  destruct (Z.ltb_spec start 0); [lia|]. destruct (Z.ltb_spec e 0); [lia|].
  replace (Z.to_nat (Z.min e (str_length text) - Z.min start (str_length text)))
    with 0%nat by lia.
  reflexivity.
Qed.

Lemma push_chunk_cases text start e chunks :
  0 <= start -> 0 <= e ->
  push_chunk text start e chunks = chunks
  \/ exists c, push_chunk text start e chunks = chunks ++ [c]
        /\ startIndex c = start /\ endIndex c = e /\ start < e.
Proof.
  intros Hs He. unfold push_chunk.
  destruct (Z.ltb_spec 0 (str_length (trim (slice text start e)))) as [Hpos|];
    [right|by left].
  eexists. split; [reflexivity|]. cbn. split; [reflexivity|]. split; [reflexivity|].
  apply (slice_nonempty text); [exact Hs|exact He|].
  intros Hnil. rewrite Hnil, trim_nil in Hpos. unfold str_length in Hpos.
  simpl in Hpos. lia.
Qed.

(** Every pass of the loop keeps its invariant: the chunks pushed are
    non-empty spans and their start offsets never decrease. *)
Lemma loop_body_invariant text st :
  CHUNK_SIZE < str_length text ->
  loop_invariant text st -> loop_invariant text (loop_body text st).
Proof.
  intros Hlong (Hst & Hle & Hends & Hsorted). destruct st as [start chunks].
  unfold loop_invariant. cbn [fst snd loop_body] in *.
  pose proof (window_end_ge text start ltac:(lia)) as Hge.
  pose proof (window_end_le_length text start) as Hup.
  assert (Hmono : start <= window_end text start - CHUNK_OVERLAP) by lia.
  split; [lia|].
  destruct (push_chunk_cases text start (window_end text start) chunks
              ltac:(lia) ltac:(unfold CHUNK_OVERLAP in *; lia))
    as [->|(c & -> & Hcs & Hce & Hlt)].
  - split; [|split; assumption].
    eapply List.Forall_impl; [|exact Hle]. cbn. intros; lia.
  - split; [|split].
    + apply Forall_app. split.
      * eapply List.Forall_impl; [|exact Hle]. cbn. intros; lia.
      * constructor; [lia|constructor].
    + apply Forall_app. split; [exact Hends|]. constructor; [lia|constructor].
    + unfold starts_nondecreasing in *. clear - Hsorted Hle Hcs.
      induction chunks as [|d chunks IH]; cbn; [repeat constructor|].
      apply StronglySorted_inv in Hsorted as [Hs Hd].
      apply List.Forall_cons_iff in Hle as [Hd1 Hle].
      constructor; [by apply IH|].
      apply Forall_app. split; [exact Hd|]. constructor; [lia|constructor].
Qed.

(** On a text that takes the loop, after any number of passes every chunk
    pushed so far ends after it starts, and the start offsets are in
    non-decreasing order. *)
Lemma loop_state_invariant text n :
  CHUNK_SIZE < str_length text -> loop_invariant text (loop_state n text).
Proof.
  intros Hlong. induction n as [|n IH]; cbn [loop_state].
  - unfold loop_invariant, CHUNK_SIZE, CHUNK_OVERLAP in *. cbn.
    split; [lia|]. repeat split; constructor.
  - by apply loop_body_invariant.
Qed.

(** [chunkText] returns exactly on the texts of the short path. *)
Lemma chunkText_returns_iff text fuel cs :
  chunkText fuel text = Some cs <->
  str_length text <= CHUNK_SIZE /\ cs = [mkTextChunk text 0 (str_length text)].
Proof.
  split.
  - intros H. destruct (Z.leb_spec (str_length text) CHUNK_SIZE) as [Hs|Hl].
    + split; [exact Hs|]. unfold chunkText in H.
      destruct (Z.leb_spec (str_length text) CHUNK_SIZE); [|lia]. congruence.
    + rewrite chunkText_long_runs_on in H by exact Hl. discriminate.
  - intros [Hs ->]. unfold chunkText.
    destruct (Z.leb_spec (str_length text) CHUNK_SIZE); [reflexivity|lia].
Qed.


(** C1.  Every pass of the loop should move [start] forward by at least one
    character, so that [chunkText] returns on every text.  On the text of
    513 letters [a] it does not: after two passes [start] is 463, the next
    pass leaves it at 463 with the loop condition still true, and no number
    of passes makes [chunkText] return. *)
Theorem chunkText_stalls_before_the_end :
  fst (loop_state 2 long_text) = 463 /\
  fst (loop_body long_text (loop_state 2 long_text)) = 463 /\
  463 < str_length long_text /\
  forall fuel, chunkText fuel long_text = None.
Proof.
  split; [vm_compute; reflexivity|].
  split; [vm_compute; reflexivity|].
  split; [vm_compute; reflexivity|].
  intros fuel. apply chunkText_long_runs_on. vm_compute. reflexivity.
Qed.

(** C4.  A text no longer than the maximum chunk size (512) yields exactly
    one chunk: its content is the whole text, its start is 0 and its end is
    the length of the text. *)
Theorem chunkText_short_text (fuel : nat) (text : js_string) :
  str_length text <= CHUNK_SIZE ->
  chunkText fuel text = Some [mkTextChunk text 0 (str_length text)].
Proof.
  intros Hs. apply chunkText_returns_iff. split; [exact Hs|reflexivity].
Qed.

Lemma chunkText_short_text_witness :
  chunkText 0 [104; 105]%N = Some [mkTextChunk [104; 105]%N 0 2].
Proof.
  apply (chunkText_short_text 0 [104; 105]%N). vm_compute. discriminate.
Defined.





End ChunkerFacts.

(** ** The document store *)

Section StoreFacts.
Import RagDb.

Implicit Types (db : RAGDatabase) (id key : string) (keys : list string).

Lemma delete_chunks_documents keys : forall v,
  documents (delete_chunks keys v) = documents v.
Proof.
  unfold delete_chunks. induction keys as [|k keys IH]; intros v; simpl; [done|].
  by rewrite IH.
Qed.

Lemma delete_chunks_lookup keys : forall v key,
  chunks (delete_chunks keys v) !! key
  = if decide (key ∈ keys) then None else chunks v !! key.
Proof.
  unfold delete_chunks. induction keys as [|k keys IH]; intros v key; simpl.
  - destruct (decide (key ∈ [])) as [H|_]; [by apply elem_of_nil in H|done].
  - rewrite IH. simpl.
    destruct (decide (key ∈ keys)) as [Hin|Hnin].
    + rewrite decide_True; [done|by right].
    + destruct (decide (k = key)) as [->|Hne].
      * rewrite lookup_delete_eq. rewrite decide_True; [done|by left].
      * rewrite lookup_delete_ne by done.
        rewrite decide_False; [done|].
        intros [?|?]%elem_of_cons; congruence.
Qed.

Lemma elem_of_getAllKeys (store : gmap string DocumentChunk.t) id key :
  key ∈ getAllKeys store id
  <-> exists c, store !! key = Some c /\ DocumentChunk.documentId c = id.
Proof.
  unfold getAllKeys, by_document. rewrite list_elem_of_fmap. split.
  - intros [[k c] [-> H]]. apply elem_of_map_to_list in H.
    apply map_lookup_filter_Some in H as [H1 H2]. by exists c.
  - intros (c & H1 & H2). exists (key, c). split; [done|].
    apply elem_of_map_to_list. by apply map_lookup_filter_Some.
Qed.

(** The document store loses only the record of [id]. *)
Lemma deleteDocument_documents id db :
  documents (deleteDocument id db) = delete id (documents db).
Proof. unfold deleteDocument. by rewrite delete_chunks_documents. Qed.

(** The chunk store loses exactly the chunks that belong to [id]. *)
Lemma deleteDocument_chunks id db :
  chunks (deleteDocument id db)
  = filter (fun kv => DocumentChunk.documentId kv.2 <> id) (chunks db).
Proof.
  apply map_eq. intros key. unfold deleteDocument.
  rewrite delete_chunks_lookup. simpl.
  destruct (decide (key ∈ getAllKeys (chunks db) id)) as [Hin|Hnin].
  - apply elem_of_getAllKeys in Hin as (c & Hc & Hid). symmetry.
    apply map_lookup_filter_None. right. intros x Hx. simpl.
    rewrite Hc in Hx. injection Hx as <-. by intros ?.
  - destruct (chunks db !! key) as [c|] eqn:Hc.
    + symmetry. apply map_lookup_filter_Some. split; [done|]. simpl.
      intros Hid. apply Hnin, elem_of_getAllKeys. by exists c.
    + symmetry. apply map_lookup_filter_None. by left.
Qed.

Lemma perform_chunk_requests keys : forall v,
  fold_left (fun v r => perform r v) (map DeleteChunkRecord keys) v
  = delete_chunks keys v.
Proof.
  unfold delete_chunks. induction keys as [|k keys IH]; intros v; simpl; [done|].
  apply IH.
Qed.

(** The committed result is the view after the write requests, in order. *)
Lemma deleteDocument_is_its_requests id db :
  fold_left (fun v r => perform r v) (deleteDocument_requests id db) db
  = deleteDocument id db.
Proof.
  unfold deleteDocument_requests, deleteDocument. simpl.
  apply perform_chunk_requests.
Qed.

(** While it runs, a transaction leaves the committed database alone; it
    ends by committing its whole view or by aborting to the committed
    database. *)
Lemma run_outcome fails : forall n k pending tx,
  (exists tx', run fails k pending n tx = Running tx' /\ committed tx' = committed tx)
  \/ run fails k pending n tx = Aborted (committed tx)
  \/ run fails k pending n tx = Done (fold_left (fun v r => perform r v) pending (view tx)).
Proof.
  induction n as [|n IH]; intros k pending tx; simpl.
  - left. exists tx. split; reflexivity.
  - destruct pending as [|r pending]; [right; right; reflexivity|].
    destruct (fails k); [right; left; reflexivity|].
    destruct (IH (S k) pending (mkTx (committed tx) (perform r (view tx))))
      as [(tx' & -> & Hc)|[->| ->]].
    + left. exists tx'. split; [reflexivity|exact Hc].
    + right; left; reflexivity.
    + right; right; reflexivity.
Qed.

(** Without a failing request the transaction commits after its last
    request. *)
Lemma run_commits : forall pending k n tx,
  (length pending < n)%nat ->
  run (fun _ => false) k pending n tx
  = Done (fold_left (fun v r => perform r v) pending (view tx)).
Proof.
  induction pending as [|r pending IH]; intros k n tx Hn;
    (destruct n as [|n]; [simpl in Hn; lia|]); simpl; [done|].
  apply IH. simpl in Hn. lia.
Qed.

Lemma deleteDocument_run_commits id db n :
  (length (deleteDocument_requests id db) < n)%nat ->
  deleteDocument_run (fun _ => false) id db n = Done (deleteDocument id db).
Proof.
  intros Hn. unfold deleteDocument_run. rewrite run_commits by done.
  f_equal. apply deleteDocument_is_its_requests.
Qed.

Lemma deleteDocument_run_observable fails id db n :
  observable (deleteDocument_run fails id db n) = db
  \/ observable (deleteDocument_run fails id db n) = deleteDocument id db.
Proof.
  unfold deleteDocument_run.
  destruct (run_outcome fails n 0%nat (deleteDocument_requests id db) (mkTx db db))
    as [(tx' & -> & Hc)|[->| ->]]; simpl in *; [by left|by left|right].
  apply deleteDocument_is_its_requests.
Qed.

Lemma deleteDocument_leaves_no_chunk id db :
  getChunksByDocumentId (deleteDocument id db) id = [].
Proof.
  unfold getChunksByDocumentId, by_document. rewrite deleteDocument_chunks.
  replace (filter _ (filter _ (chunks db))) with (∅ : gmap string DocumentChunk.t);
    [by rewrite map_to_list_empty|].
  symmetry. apply map_empty. intros key. apply map_lookup_filter_None.
  destruct (filter _ (chunks db) !! key) as [c|] eqn:Hc; [right|by left].
  intros x [= <-]. apply map_lookup_filter_Some in Hc as [_ Hne]. simpl in *.
  by intros ?.
Qed.

(** Inside the transaction the stores do pass through a state with the
    document gone and its chunk still there; a reader of the database does
    not see it. *)
Lemma deleteDocument_view_is_hidden :
  exists tx,
    deleteDocument_run (fun _ => false) "d0" kept_db 1 = Running tx
    /\ documents (view tx) !! "d0" = None
    /\ chunks (view tx) !! "c0" = Some kept_chunk
    /\ observable (Running tx) = kept_db.
Proof. eexists. repeat split; reflexivity. Qed.

(** C7.  When [deleteDocument(id)] has completed, [getDocumentById(id)] is
    absent and [getChunksByDocumentId(id)] is empty: the record of the
    document and exactly the chunks whose [documentId] is [id] are gone.
    They go as one unit: at every step of the transaction, and whichever
    request the storage layer makes fail, a reader of the database sees it
    either as it was before the call or with the whole deletion done; the
    run without failures ends with the deletion committed. *)
Theorem deleteDocument_cascades_atomically (id : string) (db : RAGDatabase) :
  getDocumentById (deleteDocument id db) id = None
  /\ getChunksByDocumentId (deleteDocument id db) id = []
  /\ documents (deleteDocument id db) = delete id (documents db)
  /\ chunks (deleteDocument id db)
     = filter (fun kv => DocumentChunk.documentId kv.2 <> id) (chunks db)
  /\ (forall fails n,
        observable (deleteDocument_run fails id db n) = db
        \/ observable (deleteDocument_run fails id db n) = deleteDocument id db)
  /\ (forall n, (length (deleteDocument_requests id db) < n)%nat ->
        deleteDocument_run (fun _ => false) id db n = Done (deleteDocument id db)).
Proof.
  split; [|split; [|split; [|split; [|split]]]].
  - unfold getDocumentById. rewrite deleteDocument_documents. apply lookup_delete_eq.
  - apply deleteDocument_leaves_no_chunk.
  - apply deleteDocument_documents.
  - apply deleteDocument_chunks.
  - intros fails n. apply deleteDocument_run_observable.
  - intros n. apply deleteDocument_run_commits.
Qed.


(** C10 as stated fails when a stored chunk refers to the unknown
    identifier: [d1] matches no stored document, and the call removes chunk
    [c1] from the chunk store. *)
Lemma deleteDocument_unknown_id_removes_chunks :
  getDocumentById stray_db "d1" = None
  /\ chunks stray_db !! "c1" = Some stray_chunk
  /\ chunks (deleteDocument "d1" stray_db) !! "c1" = None.
Proof.
  split; [reflexivity|]. split; [reflexivity|].
  rewrite deleteDocument_chunks. apply map_lookup_filter_None. right.
  intros x [= <-]. simpl. by intros ?.
Qed.

(** C10, amended.  Called with an identifier that matches no stored
    document, [deleteDocument(id)] completes without error, leaves the
    document store unchanged and removes from the chunk store exactly the
    chunks whose [documentId] is [id]; when no stored chunk refers to [id],
    both stores are unchanged. *)
Theorem deleteDocument_unknown_id (id : string) (db : RAGDatabase) :
  getDocumentById db id = None ->
  deleteDocument_run (fun _ => false) id db
    (S (length (deleteDocument_requests id db))) = Done (deleteDocument id db)
  /\ documents (deleteDocument id db) = documents db
  /\ chunks (deleteDocument id db)
     = filter (fun kv => DocumentChunk.documentId kv.2 <> id) (chunks db)
  /\ ((forall key c, chunks db !! key = Some c -> DocumentChunk.documentId c <> id) ->
      deleteDocument id db = db).
Proof.
  intros Hnone. unfold getDocumentById in Hnone.
  assert (Hdocs : documents (deleteDocument id db) = documents db)
    by (rewrite deleteDocument_documents; by apply delete_id).
  split; [|split; [exact Hdocs|split; [apply deleteDocument_chunks|]]].
  - apply deleteDocument_run_commits. lia.
  - intros Hfree.
    assert (Hch : chunks (deleteDocument id db) = chunks db).
    { rewrite deleteDocument_chunks. apply map_filter_id.
      intros key c Hc. simpl. by eapply Hfree. }
    destruct (deleteDocument id db) as [d c], db as [d0 c0]. simpl in *. congruence.
Qed.


Lemma deleteDocument_unknown_id_witness :
  deleteDocument_run (fun _ => false) "d1" kept_db
    (S (length (deleteDocument_requests "d1" kept_db))) = Done (deleteDocument "d1" kept_db)
  /\ documents (deleteDocument "d1" kept_db) = documents kept_db
  /\ chunks (deleteDocument "d1" kept_db)
     = filter (fun kv => DocumentChunk.documentId kv.2 <> "d1") (chunks kept_db)
  /\ ((forall key c, chunks kept_db !! key = Some c -> DocumentChunk.documentId c <> "d1") ->
      deleteDocument "d1" kept_db = kept_db).
Proof.
  apply (deleteDocument_unknown_id "d1" kept_db). reflexivity.
Defined.

End StoreFacts.

(** ** Order of binary64 numbers

    Facts about the comparisons and the subtraction of [float], derived from
    the specification of the primitive operations ([prec = 53],
    [emax = 1024]). *)

Module FloatOrder.
Import FloatNotions.

Lemma digits2_pos_bounds (p : positive) :
  2 ^ (Z.pos (digits2_pos p) - 1) <= Z.pos p < 2 ^ Z.pos (digits2_pos p).
Proof.
  induction p as [p IH|p IH|]; simpl digits2_pos.
  - rewrite Pos2Z.inj_succ. replace (Z.succ (Z.pos (digits2_pos p)) - 1) with (Z.pos (digits2_pos p)) by lia.
    rewrite Z.pow_succ_r by lia.
    replace (2 ^ Z.pos (digits2_pos p)) with (2 * 2 ^ (Z.pos (digits2_pos p) - 1)) in *.
    2:{ rewrite <- Z.pow_succ_r by lia. f_equal. lia. }
    lia.
  - rewrite Pos2Z.inj_succ. replace (Z.succ (Z.pos (digits2_pos p)) - 1) with (Z.pos (digits2_pos p)) by lia.
    rewrite Z.pow_succ_r by lia.
    replace (2 ^ Z.pos (digits2_pos p)) with (2 * 2 ^ (Z.pos (digits2_pos p) - 1)) in *.
    2:{ rewrite <- Z.pow_succ_r by lia. f_equal. lia. }
    lia.
  - simpl. lia.
Qed.

Lemma shr_1_m (mrs : shr_record) :
  0 <= shr_m mrs -> shr_m (shr_1 mrs) = shr_m mrs / 2.
Proof.
  destruct mrs as [m r s]. simpl. intros Hm.
  destruct m as [|[p|p|]|p]; cbn [shr_m]; try lia; try reflexivity.
  - apply Z.div_unique with 1; lia.
  - apply Z.div_unique with 0; lia.
Qed.

Lemma pow2_xI (p : positive) : 2 ^ Z.pos p~1 = 2 * 2 ^ Z.pos p * 2 ^ Z.pos p.
Proof.
  replace (Z.pos p~1) with (1 + Z.pos p + Z.pos p) by lia.
  rewrite !Z.pow_add_r by lia. reflexivity.
Qed.

Lemma pow2_xO (p : positive) : 2 ^ Z.pos p~0 = 2 ^ Z.pos p * 2 ^ Z.pos p.
Proof.
  replace (Z.pos p~0) with (Z.pos p + Z.pos p) by lia.
  rewrite !Z.pow_add_r by lia. reflexivity.
Qed.

Lemma iter_shr_1_m (p : positive) : forall mrs,
  0 <= shr_m mrs ->
  shr_m (SpecFloat.iter_pos shr_1 p mrs) = shr_m mrs / 2 ^ Z.pos p.
Proof.
  assert (Hpow : forall q, 0 < 2 ^ Z.pos q) by (intros q; apply Z.pow_pos_nonneg; lia).
  induction p as [p IH|p IH|]; intros mrs Hm; simpl SpecFloat.iter_pos.
  - pose proof (Hpow p).
    assert (H1 : 0 <= shr_m (shr_1 mrs)) by (rewrite shr_1_m by lia; apply Z.div_pos; lia).
    assert (H2 : 0 <= shr_m (SpecFloat.iter_pos shr_1 p (shr_1 mrs)))
      by (rewrite IH by lia; apply Z.div_pos; lia).
    rewrite IH, IH, shr_1_m by lia.
    rewrite !Z.div_div by lia. rewrite pow2_xI. f_equal. lia.
  - pose proof (Hpow p).
    assert (H2 : 0 <= shr_m (SpecFloat.iter_pos shr_1 p mrs))
      by (rewrite IH by lia; apply Z.div_pos; lia).
    rewrite IH, IH by lia.
    rewrite !Z.div_div by lia. rewrite pow2_xO. f_equal.
  - rewrite shr_1_m by lia. reflexivity.
Qed.


Lemma shr_m_of_loc m l : shr_m (shr_record_of_loc m l) = m.
Proof. destruct l as [|[]]; reflexivity. Qed.

(** Rounding to the format never shifts a positive mantissa away. *)
Lemma shr_fexp_positive m e l :
  0 < m -> emin <= e ->
  0 < shr_m (fst (shr_fexp prec emax m e l)) /\ emin <= snd (shr_fexp prec emax m e l).
Proof.
  intros Hm He. destruct m as [|p|p]; try lia.
  unfold shr_fexp, shr. cbn [Zdigits2].
  pose proof (digits2_pos_bounds p) as [Hlo _].
  remember (Z.pos (digits2_pos p)) as d eqn:Hd.
  unfold SpecFloat.fexp, SpecFloat.emin, prec, emax in *.
  destruct (Z.max (d + e - 53) (3 - 1024 - 53) - e) as [|q|q] eqn:Hn;
    cbn [fst snd]; rewrite ?shr_m_of_loc; try lia.
  rewrite iter_shr_1_m by (rewrite shr_m_of_loc; lia).
  rewrite shr_m_of_loc. split; [|lia].
  apply Z.div_str_pos. split; [apply Z.pow_pos_nonneg; lia|].
  apply Z.le_trans with (2 ^ (d - 1)); [|exact Hlo].
  apply Z.pow_le_mono_r; lia.
Qed.

Lemma round_nearest_even_ge m l : m <= round_nearest_even m l.
Proof. unfold round_nearest_even. destruct l as [|[]]; try destruct (Z.even m); lia. Qed.


Lemma binary_round_aux_sign s m e l :
  0 < m -> emin <= e -> has_sign s (binary_round_aux prec emax s m e l).
Proof.
  intros Hm He. unfold binary_round_aux.
  pose proof (shr_fexp_positive m e l Hm He) as [H1 H2].
  destruct (shr_fexp prec emax m e l) as [mrs' e']. cbn [fst snd] in H1, H2.
  pose proof (round_nearest_even_ge (shr_m mrs') (loc_of_shr_record mrs')) as Hr.
  pose proof (shr_fexp_positive (round_nearest_even (shr_m mrs') (loc_of_shr_record mrs'))
                e' loc_Exact ltac:(lia) H2) as [H3 _].
  destruct (shr_fexp prec emax _ e' loc_Exact) as [mrs'' e'']. cbn [fst] in H3.
  destruct (shr_m mrs'') as [|q|q]; try lia.
  destruct (e'' <=? emax - prec); reflexivity.
Qed.

Lemma shl_align_exponent m e e' :
  emin <= e -> emin <= e' -> emin <= snd (shl_align m e e').
Proof. intros. unfold shl_align. destruct (e' - e); assumption. Qed.

Lemma fexp_ge_emin k : emin <= fexp k.
Proof. unfold SpecFloat.fexp. lia. Qed.

Lemma binary_round_sign s p e :
  emin <= e -> has_sign s (binary_round prec emax s p e).
Proof.
  intros He. unfold binary_round.
  pose proof (shl_align_exponent p e (fexp (Z.pos (digits2_pos p) + e)) He
                (fexp_ge_emin _)) as Hz.
  destruct (shl_align p e _) as [mz ez]. cbn [snd] in Hz.
  apply binary_round_aux_sign; [lia|exact Hz].
Qed.

(** Normalising a non-zero integer keeps its sign: the result is neither a
    zero nor a NaN. *)
Lemma binary_normalize_sign v e :
  emin <= e ->
  match v with
  | Z0 => binary_normalize prec emax v e false = S754_zero false
  | Zpos _ => has_sign false (binary_normalize prec emax v e false)
  | Zneg _ => has_sign true (binary_normalize prec emax v e false)
  end.
Proof.
  intros He. destruct v; cbn [binary_normalize];
    [reflexivity|apply binary_round_sign, He|apply binary_round_sign, He].
Qed.

Lemma shl_align_value m e ez :
  ez <= e -> Z.pos (fst (shl_align m e ez)) = Z.pos m * 2 ^ (e - ez).
Proof.
  intros Hle. unfold shl_align.
  destruct (ez - e) as [|d|d] eqn:Hd; cbn [fst]; try lia.
  - replace (e - ez) with 0 by lia. lia.
  - replace (e - ez) with (Z.pos d) by lia.
    change (Pos.iter xO m d) with (shift_pos d m).
    rewrite shift_pos_correct. change (Z.pow_pos 2 d) with (2 ^ Z.pos d). lia.
Qed.


Lemma canonical_inv m e :
  canonical m e ->
  emin <= e /\ Z.pos m < 2 ^ 53 /\ (emin < e -> 2 ^ 52 <= Z.pos m).
Proof.
  unfold canonical, canonical_mantissa, SpecFloat.fexp. intros H.
  apply Z.eqb_eq in H.
  pose proof (digits2_pos_bounds m) as [Hlo Hhi].
  remember (Z.pos (digits2_pos m)) as d eqn:Hd.
  assert (Hd1 : 1 <= d) by lia.
  unfold SpecFloat.emin, prec, emax in *.
  split; [lia|]. split.
  - apply Z.lt_le_trans with (2 ^ d); [exact Hhi|].
    apply Z.pow_le_mono_r; lia.
  - intros He. replace 52 with (d - 1) by lia. exact Hlo.
Qed.

(** Aligned to the smaller exponent, canonical mantissas compare like the
    pairs (exponent, mantissa). *)
Lemma aligned_compare m1 e1 m2 e2 :
  canonical m1 e1 -> canonical m2 e2 ->
  (Z.pos (fst (shl_align m1 e1 (Z.min e1 e2))) ?= Z.pos (fst (shl_align m2 e2 (Z.min e1 e2))))
  = match e1 ?= e2 with
    | Lt => Lt
    | Gt => Gt
    | Eq => Pos.compare_cont Eq m1 m2
    end.
Proof.
  intros H1 H2.
  apply canonical_inv in H1 as (Hm1 & Hhi1 & Hlo1).
  apply canonical_inv in H2 as (Hm2 & Hhi2 & Hlo2).
  rewrite !shl_align_value by lia.
  destruct (Z.compare_spec e1 e2) as [Heq|Hlt|Hgt].
  - subst e2. rewrite Z.min_id, Z.sub_diag, !Z.mul_1_r. reflexivity.
  - rewrite Z.min_l by lia. rewrite Z.sub_diag, Z.mul_1_r.
    apply Z.compare_lt_iff.
    assert (2 ^ 1 <= 2 ^ (e2 - e1)) by (apply Z.pow_le_mono_r; lia).
    specialize (Hlo2 ltac:(lia)). change (2 ^ 1) with 2 in *.
    change (2 ^ 53) with (2 ^ 52 * 2) in *. nia.
  - rewrite Z.min_r by lia. rewrite Z.sub_diag, Z.mul_1_r.
    apply Z.compare_gt_iff.
    assert (2 ^ 1 <= 2 ^ (e1 - e2)) by (apply Z.pow_le_mono_r; lia).
    specialize (Hlo1 ltac:(lia)). change (2 ^ 1) with 2 in *.
    change (2 ^ 53) with (2 ^ 52 * 2) in *. nia.
Qed.


Lemma valid_finite s m e :
  SpecFloat.valid_binary prec emax (S754_finite s m e) = true -> canonical m e.
Proof.
  cbn [SpecFloat.valid_binary]. unfold bounded. intros H.
  apply andb_true_iff in H as [H _]. exact H.
Qed.

Lemma has_sign_ltb_zero s f :
  has_sign s f -> SFltb (S754_zero false) f = negb s.
Proof. destruct f as [| |  |s' m e]; cbn; try tauto; intros ->; destruct s; reflexivity. Qed.

(** The sign of a difference tells the order of its operands: for numbers
    [x] and [y] of the format, [0 < y - x] exactly when [x < y]. *)
Lemma SFsub_positive x y :
  SpecFloat.valid_binary prec emax x = true -> SpecFloat.valid_binary prec emax y = true ->
  is_nan_sf x = false -> is_nan_sf y = false ->
  SFltb (S754_zero false) (SF64sub y x) = SFltb x y.
Proof.
  intros Vx Vy Nx Ny.
  destruct x as [sx|sx| |sx mx ex], y as [sy|sy| |sy my ey];
    try discriminate; try (destruct sx, sy; reflexivity);
    try (destruct sx; reflexivity); try (destruct sy; reflexivity).
  apply valid_finite in Vx, Vy.
  pose proof (aligned_compare my ey mx ex Vy Vx) as Hcmp.
  pose proof (canonical_inv _ _ Vx) as [Hex _].
  pose proof (canonical_inv _ _ Vy) as [Hey _].
  unfold SF64sub, SFsub.
  set (My := Z.pos (fst (shl_align my ey (Z.min ey ex)))) in *.
  set (Mx := Z.pos (fst (shl_align mx ex (Z.min ey ex)))) in *.
  pose proof (binary_normalize_sign (cond_Zopp sy My - cond_Zopp sx Mx) (Z.min ey ex)
                ltac:(lia)) as Hn.
  assert (HMy : 0 < My) by (unfold My; lia).
  assert (HMx : 0 < Mx) by (unfold Mx; lia).
  change (Pos.compare_cont Eq my mx) with (Pos.compare my mx) in Hcmp.
  rewrite (Z.compare_antisym ex ey), (Pos.compare_antisym mx my) in Hcmp.
  assert (Hgoal : forall s t, SFltb (S754_finite s mx ex) (S754_finite t my ey)
    = match SFcompare (S754_finite s mx ex) (S754_finite t my ey) with
      | Some Lt => true | _ => false end) by reflexivity.
  rewrite Hgoal. clear Hgoal. unfold SFcompare.
  change (Pos.compare_cont Eq mx my) with (Pos.compare mx my).
  destruct sy, sx; cbn [cond_Zopp] in Hn |- *.
  - (* both negative *)
    destruct (- My - - Mx) as [|v|v] eqn:Hv.
    + rewrite Hn. assert ((My ?= Mx) = Eq) as HE by (apply Z.compare_eq_iff; lia).
      rewrite HE in Hcmp.
      destruct (ex ?= ey), (mx ?= my)%positive; cbn in *; congruence.
    + rewrite (has_sign_ltb_zero false) by exact Hn.
      assert ((My ?= Mx) = Lt) as HE by (apply Z.compare_lt_iff; lia).
      rewrite HE in Hcmp.
      destruct (ex ?= ey), (mx ?= my)%positive; cbn in *; congruence.
    + rewrite (has_sign_ltb_zero true) by exact Hn.
      assert ((My ?= Mx) = Gt) as HE by (apply Z.compare_gt_iff; lia).
      rewrite HE in Hcmp.
      destruct (ex ?= ey), (mx ?= my)%positive; cbn in *; congruence.
  - (* y negative, x positive *)
    destruct (- My - Mx) as [|v|v] eqn:Hv; try lia.
    rewrite (has_sign_ltb_zero true) by exact Hn. reflexivity.
  - (* y positive, x negative *)
    destruct (My - - Mx) as [|v|v] eqn:Hv; try lia.
    rewrite (has_sign_ltb_zero false) by exact Hn. reflexivity.
  - (* both positive *)
    destruct (My - Mx) as [|v|v] eqn:Hv.
    + rewrite Hn. assert ((My ?= Mx) = Eq) as HE by (apply Z.compare_eq_iff; lia).
      rewrite HE in Hcmp.
      destruct (ex ?= ey), (mx ?= my)%positive; cbn in *; congruence.
    + rewrite (has_sign_ltb_zero false) by exact Hn.
      assert ((My ?= Mx) = Gt) as HE by (apply Z.compare_gt_iff; lia).
      rewrite HE in Hcmp.
      destruct (ex ?= ey), (mx ?= my)%positive; cbn in *; congruence.
    + rewrite (has_sign_ltb_zero true) by exact Hn.
      assert ((My ?= Mx) = Lt) as HE by (apply Z.compare_lt_iff; lia).
      rewrite HE in Hcmp.
      destruct (ex ?= ey), (mx ?= my)%positive; cbn in *; congruence.
Qed.

(** *** The order of the numbers of the format

    [SFcompare] compares the places of its arguments. *)


Lemma SFcompare_place x y :
  is_nan_sf x = false -> is_nan_sf y = false ->
  SFcompare x y = Some (lex (place x) (place y)).
Proof.
  intros Nx Ny.
  destruct x as [sx|sx| |sx mx ex], y as [sy|sy| |sy my ey]; try discriminate;
    try (destruct sx, sy; reflexivity); try (destruct sx; reflexivity);
    try (destruct sy; reflexivity).
  destruct sx, sy; cbn -[Z.compare]; try reflexivity.
  rewrite Z.compare_opp. rewrite (Z.compare_antisym ex ey).
  destruct (ex ?= ey); reflexivity.
Qed.

Lemma lex_refl a : lex a a = Eq.
Proof. destruct a as [[a1 a2] a3]. unfold lex. rewrite !Z.compare_refl. reflexivity. Qed.

Lemma lex_antisym a b : lex b a = CompOpp (lex a b).
Proof.
  destruct a as [[a1 a2] a3], b as [[b1 b2] b3]. unfold lex.
  rewrite (Z.compare_antisym a1 b1), (Z.compare_antisym a2 b2), (Z.compare_antisym a3 b3).
  destruct (a1 ?= b1), (a2 ?= b2), (a3 ?= b3); reflexivity.
Qed.

Lemma lex_le_trans a b c : lex a b <> Gt -> lex b c <> Gt -> lex a c <> Gt.
Proof.
  destruct a as [[a1 a2] a3], b as [[b1 b2] b3], c as [[c1 c2] c3]. unfold lex.
  destruct (Z.compare_spec a1 b1), (Z.compare_spec b1 c1), (Z.compare_spec a1 c1);
    try lia; try congruence;
  destruct (Z.compare_spec a2 b2), (Z.compare_spec b2 c2), (Z.compare_spec a2 c2);
    try lia; try congruence;
  destruct (Z.compare_spec a3 b3), (Z.compare_spec b3 c3), (Z.compare_spec a3 c3);
    try lia; congruence.
Qed.

Lemma SFleb_not_nan x y : SFleb x y = true -> is_nan_sf x = false /\ is_nan_sf y = false.
Proof.
  unfold SFleb. destruct x as [| | |], y as [| | |]; cbn; try discriminate; auto.
Qed.

Lemma SFleb_trans x y z : SFleb x y = true -> SFleb y z = true -> SFleb x z = true.
Proof.
  intros Hxy Hyz.
  pose proof (SFleb_not_nan _ _ Hxy) as [Nx Ny].
  pose proof (SFleb_not_nan _ _ Hyz) as [_ Nz].
  unfold SFleb in *. rewrite SFcompare_place in * by assumption.
  pose proof (lex_le_trans (place x) (place y) (place z)) as Ht.
  destruct (lex (place x) (place y)), (lex (place y) (place z)),
    (lex (place x) (place z)); try discriminate; try reflexivity;
    exfalso; apply Ht; congruence.
Qed.

Lemma SFltb_false_leb x y :
  is_nan_sf x = false -> is_nan_sf y = false ->
  SFltb x y = false -> SFleb y x = true.
Proof.
  intros Nx Ny. unfold SFltb, SFleb. rewrite !SFcompare_place by assumption.
  rewrite (lex_antisym (place x) (place y)).
  destruct (lex (place x) (place y)); cbn; congruence.
Qed.

Lemma SFltb_leb x y : SFltb x y = true -> SFleb x y = true.
Proof. unfold SFltb, SFleb. destruct (SFcompare x y) as [[]|]; congruence. Qed.

Lemma SFltb_not_eqb x y : SFltb x y = true -> SFeqb y x = false.
Proof.
  intros H. assert (is_nan_sf x = false /\ is_nan_sf y = false) as [Nx Ny]
    by (apply SFleb_not_nan, SFltb_leb, H).
  unfold SFltb, SFeqb in *. rewrite SFcompare_place in * by assumption.
  rewrite (lex_antisym (place x) (place y)).
  destruct (lex (place x) (place y)); cbn; congruence.
Qed.

(** *** The same facts for the primitive type *)

Lemma is_nan_spec x : PrimFloat.is_nan x = is_nan_sf (Prim2SF x).
Proof.
  unfold PrimFloat.is_nan. rewrite FloatAxioms.eqb_spec. unfold SFeqb.
  destruct (is_nan_sf (Prim2SF x)) eqn:N.
  - destruct (Prim2SF x); try discriminate. reflexivity.
  - rewrite SFcompare_place, lex_refl by assumption. reflexivity.
Qed.

Lemma ltb_difference x y :
  PrimFloat.is_nan x = false -> PrimFloat.is_nan y = false ->
  (0 <? y - x)%float = (x <? y)%float.
Proof.
  rewrite !is_nan_spec. intros Nx Ny.
  rewrite !FloatAxioms.ltb_spec, FloatAxioms.sub_spec.
  apply SFsub_positive; auto using Prim2SF_valid.
Qed.

Lemma ltb_nan_r x y : PrimFloat.is_nan y = true -> (x <? y)%float = false.
Proof.
  rewrite is_nan_spec, FloatAxioms.ltb_spec. destruct (Prim2SF y); try discriminate.
  intros _. unfold SFltb. destruct (Prim2SF x); reflexivity.
Qed.

Lemma leb_nan_r x y : PrimFloat.is_nan y = true -> (x <=? y)%float = false.
Proof.
  rewrite is_nan_spec, FloatAxioms.leb_spec. destruct (Prim2SF y); try discriminate.
  intros _. unfold SFleb. destruct (Prim2SF x); reflexivity.
Qed.

Lemma leb_trans x y z :
  (x <=? y)%float = true -> (y <=? z)%float = true -> (x <=? z)%float = true.
Proof. rewrite !FloatAxioms.leb_spec. apply SFleb_trans. Qed.

Lemma ltb_false_leb x y :
  PrimFloat.is_nan x = false -> PrimFloat.is_nan y = false ->
  (x <? y)%float = false -> (y <=? x)%float = true.
Proof. rewrite !is_nan_spec, FloatAxioms.ltb_spec, FloatAxioms.leb_spec. apply SFltb_false_leb. Qed.

Lemma ltb_leb x y : (x <? y)%float = true -> (x <=? y)%float = true.
Proof. rewrite FloatAxioms.ltb_spec, FloatAxioms.leb_spec. apply SFltb_leb. Qed.

Lemma ltb_not_eqb x y : (x <? y)%float = true -> (y =? x)%float = false.
Proof. rewrite FloatAxioms.ltb_spec, FloatAxioms.eqb_spec. apply SFltb_not_eqb. Qed.

End FloatOrder.

(** ** The sort *)

Section SortFacts.
Import ArraySort.
Context {A : Type}.
Variable comparefn : A -> A -> float.

Lemma insert_Permutation x (l : list A) : Permutation (insert comparefn x l) (x :: l).
Proof.
  induction l as [|y l IH]; simpl; [reflexivity|].
  destruct (after comparefn x y); [|reflexivity].
  rewrite IH. apply perm_swap.
Qed.

(** Sorting rearranges: nothing is dropped and nothing is added. *)
Lemma sort_Permutation (l : list A) : Permutation (sort comparefn l) l.
Proof.
  induction l as [|x l IH]; simpl; [reflexivity|].
  rewrite insert_Permutation. by constructor.
Qed.

Lemma sort_length (l : list A) : length (sort comparefn l) = length l.
Proof. apply Permutation_length, sort_Permutation. Qed.

(** A [NaN] answer and a zero answer both mean "not after". *)
Lemma after_positive x y : after comparefn x y = PrimFloat.ltb 0 (comparefn x y).
Proof.
  unfold after, sort_compare.
  destruct (PrimFloat.is_nan (comparefn x y)) eqn:N; [|reflexivity].
  symmetry. by apply FloatOrder.ltb_nan_r.
Qed.

(** Sorting records by a key of theirs sorts the keys. *)
Lemma sort_map {B : Type} (f : B -> A) (l : list B) :
  map f (sort (fun a b => comparefn (f a) (f b)) l) = sort comparefn (map f l).
Proof.
  induction l as [|x l IH]; simpl; [reflexivity|]. rewrite <- IH.
  generalize (sort (fun a b => comparefn (f a) (f b)) l) as s.
  induction s as [|y s IHs]; simpl; [reflexivity|].
  unfold after, sort_compare in *.
  destruct (PrimFloat.ltb 0 _); simpl; [by rewrite IHs|reflexivity].
Qed.

End SortFacts.

(** ** Similarity and search *)

Section SearchFacts.
Import Throw RagUtils.

(** C5.  For vectors of unequal length [cosineSimilarity] throws the
    length error and returns no number; for vectors of equal length it
    returns a number and throws nothing. *)
Theorem cosineSimilarity_length_check (a b : list float) :
  (length a <> length b -> cosineSimilarity a b = throw length_mismatch)
  /\ (length a = length b -> cosineSimilarity a b = ret (cosine a b)).
Proof.
  unfold cosineSimilarity.
  destruct (Nat.eqb_spec (length a) (length b)); split; intros; congruence.
Qed.

Variable generateEmbedding : JS.js_string -> result (list float).


Lemma score_same_dimension q c :
  length (DocumentChunk.embedding c) = length q -> score q c = ret (scored q c).
Proof.
  intros H. unfold score, cosineSimilarity.
  rewrite H, Nat.eqb_refl. reflexivity.
Qed.

Lemma map_throw_score q chunks :
  same_dimension q chunks -> map_throw (score q) chunks = ret (map (scored q) chunks).
Proof.
  induction 1 as [|c chunks Hc _ IH]; simpl; [reflexivity|].
  rewrite score_same_dimension by exact Hc. simpl. rewrite IH. reflexivity.
Qed.

(** What the search returns when the query is embedded and the dimensions
    agree. *)
Lemma searchSimilarChunks_returns query chunks topK q :
  generateEmbedding query = ret q ->
  same_dimension q chunks ->
  searchSimilarChunks generateEmbedding query chunks topK
  = ret (firstn topK (ArraySort.sort by_similarity_desc (map (scored q) chunks))).
Proof.
  intros Hq Hd. unfold searchSimilarChunks.
  destruct chunks as [|c chunks]; [by destruct topK|].
  cbn [length Nat.eqb]. rewrite Hq. cbn [bind ret].
  rewrite map_throw_score by exact Hd. reflexivity.
Qed.

End SearchFacts.

(** ** Ranking *)

Section RankingFacts.
Import Throw RagUtils.


Lemma map_snd_indexed_from {A} (l : list A) : forall k, map snd (indexed_from k l) = l.
Proof.
  unfold indexed_from. induction l as [|x l IH]; intros k; simpl; [reflexivity|].
  by rewrite IH.
Qed.

Lemma indexed_from_ge {A} (l : list A) : forall k,
  Forall (fun y => (k <= fst y)%nat) (indexed_from k l).
Proof.
  unfold indexed_from. induction l as [|x l IH]; intros k; simpl; constructor.
  - simpl. lia.
  - eapply List.Forall_impl; [|apply (IH (S k))]. simpl. intros; lia.
Qed.

Lemma Forall_snd_indexed_from {A} (P : A -> Prop) (l : list A) : forall k,
  Forall P l -> Forall (fun y => P (snd y)) (indexed_from k l).
Proof.
  intros k H. apply List.Forall_forall. intros y Hy.
  rewrite List.Forall_forall in H. apply H.
  rewrite <- (map_snd_indexed_from l k). by apply in_map.
Qed.

(** On numbers, an element has to come after another exactly when its
    similarity is smaller. *)
Lemma after_by_similarity a b :
  is_number a -> is_number b ->
  ArraySort.after by_similarity_desc a b = PrimFloat.ltb (similarity a) (similarity b).
Proof.
  intros Na Nb. rewrite after_positive. unfold by_similarity_desc.
  by apply FloatOrder.ltb_difference.
Qed.

Lemma insert_ranked (x : nat * Scored) (l : list (nat * Scored)) :
  is_number (snd x) ->
  Forall (fun y => is_number (snd y)) l ->
  Forall (fun y => (fst x < fst y)%nat) l ->
  StronglySorted ranked_before l ->
  StronglySorted ranked_before (ArraySort.insert by_similarity_desc_at x l).
Proof.
  intros Nx Nl Hix Hs.
  induction l as [|y l IH]; simpl; [repeat constructor|].
  apply List.Forall_cons_iff in Nl as [Ny Nl].
  apply List.Forall_cons_iff in Hix as [Hxy Hix].
  apply StronglySorted_inv in Hs as [Hs Hy].
  change (ArraySort.after by_similarity_desc_at x y)
    with (ArraySort.after by_similarity_desc (snd x) (snd y)).
  rewrite after_by_similarity by assumption.
  destruct (PrimFloat.ltb (similarity (snd x)) (similarity (snd y))) eqn:Hlt.
  - constructor; [by apply IH|].
    eapply Permutation_Forall; [symmetry; apply insert_Permutation|].
    constructor; [|exact Hy]. split.
    + by apply FloatOrder.ltb_leb.
    + rewrite (FloatOrder.ltb_not_eqb _ _ Hlt). discriminate.
  - assert (Hyx : PrimFloat.leb (similarity (snd y)) (similarity (snd x)) = true)
      by (by apply FloatOrder.ltb_false_leb).
    constructor; [by constructor|].
    constructor; [by split|].
    rewrite List.Forall_forall in Hy, Hix |- *. intros z Hz. split.
    + eapply FloatOrder.leb_trans; [apply (Hy z Hz)|exact Hyx].
    + intros _. by apply Hix.
Qed.

(** Without [NaN] among the similarities the sort orders the candidates by
    descending similarity and keeps the input order of equal ones. *)
Lemma sort_ranked (l : list Scored) : forall k,
  Forall is_number l ->
  StronglySorted ranked_before (ArraySort.sort by_similarity_desc_at (indexed_from k l)).
Proof.
  induction l as [|x l IH]; intros k Hn; [constructor|].
  apply List.Forall_cons_iff in Hn as [Nx Nl].
  change (indexed_from k (x :: l)) with ((k, x) :: indexed_from (S k) l).
  cbn [ArraySort.sort]. apply insert_ranked; [exact Nx| | |by apply IH].
  - eapply Permutation_Forall; [symmetry; apply sort_Permutation|].
    by apply Forall_snd_indexed_from.
  - eapply Permutation_Forall; [symmetry; apply sort_Permutation|].
    apply (indexed_from_ge l (S k)).
Qed.

Lemma sort_by_similarity_unindexed (l : list Scored) :
  ArraySort.sort by_similarity_desc l
  = map snd (ArraySort.sort by_similarity_desc_at (indexed_from 0 l)).
Proof.
  unfold by_similarity_desc_at. rewrite (sort_map by_similarity_desc snd).
  by rewrite map_snd_indexed_from.
Qed.

Lemma ranked_descending (l : list (nat * Scored)) :
  StronglySorted ranked_before l -> descending (map snd l).
Proof.
  unfold descending. induction 1 as [|a l Hs IH Ha]; simpl; constructor; [exact IH|].
  apply List.Forall_map. eapply List.Forall_impl; [|exact Ha]. by intros b [Hb _].
Qed.

Lemma sort_descending (l : list Scored) :
  Forall is_number l -> descending (ArraySort.sort by_similarity_desc l).
Proof.
  intros Hn. rewrite sort_by_similarity_unindexed.
  by apply ranked_descending, sort_ranked.
Qed.

End RankingFacts.

(** ** The retrieval step *)

Section RetrievalFacts.
Import Throw RagUtils.

Variable generateEmbedding : JS.js_string -> result (list float).


Lemma map_throw_score_inv q chunks sims :
  map_throw (score q) chunks = ret sims -> sims = map (scored q) chunks.
Proof.
  revert sims. induction chunks as [|c chunks IH]; intros sims; simpl.
  - by intros [= <-].
  - unfold score at 1, cosineSimilarity.
    destruct (Nat.eqb _ _); simpl; [|discriminate].
    destruct (map_throw (score q) chunks) as [e|ys]; simpl; [discriminate|].
    intros [= <-]. by rewrite (IH ys).
Qed.

Lemma In_firstn_in {A} (x : A) k (l : list A) : In x (firstn k l) -> In x l.
Proof. intros H. rewrite <- (firstn_skipn k l). apply in_or_app. by left. Qed.

(** On a descending list, filtering by a threshold keeps a prefix, so it
    does not matter whether the list is truncated before or after. *)
Lemma filter_firstn_descending (t : float) (l : list Scored) : forall k,
  descending l ->
  List.filter (fun r => PrimFloat.leb t (similarity r)) (firstn k l)
  = firstn k (List.filter (fun r => PrimFloat.leb t (similarity r)) l).
Proof.
  induction l as [|a l IH]; intros k Hd; [by destruct k|].
  apply StronglySorted_inv in Hd as [Hd Ha].
  destruct k as [|k]; [reflexivity|]. cbn [firstn List.filter].
  destruct (PrimFloat.leb t (similarity a)) eqn:Hta.
  - cbn [firstn]. by rewrite IH.
  - assert (Hnone : forall l', (forall b, In b l' -> In b l) ->
              List.filter (fun r => PrimFloat.leb t (similarity r)) l' = []).
    { induction l' as [|b l' IHl']; intros Hsub; [reflexivity|]. cbn [List.filter].
      destruct (PrimFloat.leb t (similarity b)) eqn:Htb.
      - rewrite List.Forall_forall in Ha.
        rewrite (FloatOrder.leb_trans _ _ _ Htb (Ha b (Hsub b (or_introl eq_refl)))) in Hta.
        discriminate.
      - apply IHl'. intros c Hc. apply Hsub. by right. }
    rewrite (Hnone (firstn k l)), (Hnone l); [reflexivity|auto|].
    intros b Hb. eapply In_firstn_in, Hb.
Qed.

(** C2, amended.  The query operation ranks the candidates, truncates the
    ranking to the first [k] and then keeps the results at or above the
    threshold.  Whenever no candidate similarity is [NaN], this is the list
    of the first [k] elements of the threshold-filtered ranking. *)
Theorem filteredResults_filter_then_truncate (input : JS.js_string)
    (chunks : list DocumentChunk.t) (k : nat) (threshold : float) (q : list float) :
  generateEmbedding input = ret q ->
  Forall is_number (map (scored q) chunks) ->
  filteredResults generateEmbedding input chunks k threshold
  = bind (searchSimilarChunks generateEmbedding input chunks k) (fun results =>
      ret (List.filter (fun r => PrimFloat.leb threshold (similarity r)) results))
  /\ filteredResults generateEmbedding input chunks k threshold
     = query_spec generateEmbedding input chunks k threshold.
Proof.
  intros Hq Hn. split; [reflexivity|].
  unfold filteredResults, searchSimilarChunks, query_spec.
  destruct (Nat.eqb (length chunks) 0); [by destruct k|].
  rewrite Hq. cbn [bind ret].
  destruct (map_throw (score q) chunks) as [e|sims] eqn:Hs; [reflexivity|].
  apply map_throw_score_inv in Hs as ->. cbn [bind ret]. f_equal.
  apply filter_firstn_descending. by apply sort_descending.
Qed.

(** C9, amended.  When the query is embedded and the embeddings of a
    non-empty candidate list have the dimension of the query's, the search
    returns exactly [min topK n] results, the first [topK] of a
    rearrangement of all [n] candidates, each with the similarity computed
    for it, [NaN] or low as it may be.  Exclusion by similarity happens in
    the caller's filter only, which never keeps a [NaN]. *)
Theorem searchSimilarChunks_excludes_nothing (query : JS.js_string)
    (chunks : list DocumentChunk.t) (topK : nat) (q : list float) :
  chunks <> [] ->
  generateEmbedding query = ret q ->
  same_dimension q chunks ->
  exists ranked,
    Permutation ranked (map (scored q) chunks)
    /\ searchSimilarChunks generateEmbedding query chunks topK = ret (firstn topK ranked)
    /\ length (firstn topK ranked) = Nat.min topK (length chunks)
    /\ forall threshold,
         filteredResults generateEmbedding query chunks topK threshold
         = ret (List.filter (fun r => PrimFloat.leb threshold (similarity r))
                  (firstn topK ranked))
         /\ forall r, PrimFloat.is_nan (similarity r) = true ->
              PrimFloat.leb threshold (similarity r) = false.
Proof.
  intros _ Hq Hd.
  exists (ArraySort.sort by_similarity_desc (map (scored q) chunks)).
  split; [apply sort_Permutation|].
  split; [by apply searchSimilarChunks_returns|].
  split; [by rewrite length_firstn, sort_length, length_map|].
  intros threshold. split.
  - unfold filteredResults. by rewrite (searchSimilarChunks_returns _ _ _ _ q).
  - intros r Hr. by apply FloatOrder.leb_nan_r.
Qed.

(** C6, amended.  When the search returns (the query is embedded and the
    dimensions agree) and no similarity is [NaN], its result is the first
    [topK] elements of the candidates ordered by descending similarity,
    candidates of equal similarity in their input order; when [topK] is at
    least the number of candidates, the result is that whole ordering, so
    every candidate appears in it. *)
Theorem searchSimilarChunks_ranking (query : JS.js_string)
    (chunks : list DocumentChunk.t) (topK : nat) (q : list float) :
  generateEmbedding query = ret q ->
  same_dimension q chunks ->
  Forall is_number (map (scored q) chunks) ->
  exists ranked : list (nat * Scored),
    Permutation ranked (indexed_from 0 (map (scored q) chunks))
    /\ StronglySorted ranked_before ranked
    /\ searchSimilarChunks generateEmbedding query chunks topK
       = ret (firstn topK (map snd ranked))
    /\ ((length chunks <= topK)%nat ->
        firstn topK (map snd ranked) = map snd ranked
        /\ Permutation (map snd ranked) (map (scored q) chunks)).
Proof.
  intros Hq Hd Hn.
  exists (ArraySort.sort by_similarity_desc_at (indexed_from 0 (map (scored q) chunks))).
  split; [apply sort_Permutation|].
  split; [by apply sort_ranked|].
  split.
  - rewrite <- sort_by_similarity_unindexed. by apply searchSimilarChunks_returns.
  - intros Hk. rewrite <- sort_by_similarity_unindexed. split.
    + apply firstn_all2. by rewrite sort_length, length_map.
    + apply sort_Permutation.
Qed.

End RetrievalFacts.


Section RetrievalExamples.
Import Throw RagUtils.

(** C2 as stated fails when a similarity is [NaN].  The candidate with the
    zero-norm embedding compares equal to the matching one and keeps the
    first place; the code truncates to that place and then filters it out,
    while filtering before truncating returns the matching chunk. *)
Lemma filteredResults_truncates_first :
  filteredResults (constant_embedder [1; 0]%float) [] [null_chunk; match_chunk] 1 0.5%float
  = ret []
  /\ query_spec (constant_embedder [1; 0]%float) [] [null_chunk; match_chunk] 1 0.5%float
     = ret [mkScored match_chunk 1%float].
Proof. split; vm_compute; reflexivity. Qed.

Lemma filteredResults_filter_then_truncate_witness :
  filteredResults (constant_embedder [1; 0]%float) [] [other_chunk; match_chunk] 1 0.5%float
  = bind (searchSimilarChunks (constant_embedder [1; 0]%float) [] [other_chunk; match_chunk] 1)
      (fun results =>
         ret (List.filter (fun r => PrimFloat.leb 0.5%float (similarity r)) results))
  /\ filteredResults (constant_embedder [1; 0]%float) [] [other_chunk; match_chunk] 1 0.5%float
     = query_spec (constant_embedder [1; 0]%float) [] [other_chunk; match_chunk] 1 0.5%float.
Proof.
  apply (filteredResults_filter_then_truncate (constant_embedder [1; 0]%float) []
           [other_chunk; match_chunk] 1 0.5%float [1; 0]%float).
  - reflexivity.
  - repeat constructor.
Defined.

(** C9 as stated fails when a candidate's embedding has another dimension
    than the query's: the search throws and returns no result. *)
Lemma searchSimilarChunks_throws_on_dimension :
  [short_chunk] <> []
  /\ searchSimilarChunks (constant_embedder [1; 0]%float) [] [short_chunk] 5
     = throw length_mismatch.
Proof. split; [discriminate|reflexivity]. Qed.

Lemma searchSimilarChunks_excludes_nothing_witness :
  exists ranked,
    Permutation ranked (map (scored [1; 0]%float) [null_chunk; match_chunk])
    /\ searchSimilarChunks (constant_embedder [1; 0]%float) [] [null_chunk; match_chunk] 5
       = ret (firstn 5 ranked)
    /\ length (firstn 5 ranked) = Nat.min 5 (length [null_chunk; match_chunk])
    /\ forall threshold,
         filteredResults (constant_embedder [1; 0]%float) [] [null_chunk; match_chunk] 5
           threshold
         = ret (List.filter (fun r => PrimFloat.leb threshold (similarity r))
                  (firstn 5 ranked))
         /\ forall r, PrimFloat.is_nan (similarity r) = true ->
              PrimFloat.leb threshold (similarity r) = false.
Proof.
  apply (searchSimilarChunks_excludes_nothing (constant_embedder [1; 0]%float) []
           [null_chunk; match_chunk] 5 [1; 0]%float).
  - discriminate.
  - reflexivity.
  - repeat constructor.
Defined.

(** C6 as stated fails when a similarity is [NaN]: the candidate with the
    zero-norm embedding is ranked above the candidate of similarity 1, and
    the result is not in descending order. *)
Lemma searchSimilarChunks_ranks_nan_first :
  searchSimilarChunks (constant_embedder [1; 0]%float) [] [null_chunk; match_chunk] 2
  = ret [mkScored null_chunk nan; mkScored match_chunk 1%float]
  /\ ~ descending [mkScored null_chunk nan; mkScored match_chunk 1%float].
Proof.
  split; [vm_compute; reflexivity|].
  intros H. apply StronglySorted_inv in H as [_ H].
  apply Forall_inv in H. simpl in H. vm_compute in H. discriminate.
Qed.

Lemma searchSimilarChunks_ranking_witness :
  exists ranked : list (nat * Scored),
    Permutation ranked (indexed_from 0 (map (scored [1; 0]%float) [other_chunk; match_chunk]))
    /\ StronglySorted ranked_before ranked
    /\ searchSimilarChunks (constant_embedder [1; 0]%float) [] [other_chunk; match_chunk] 2
       = ret (firstn 2 (map snd ranked))
    /\ ((length [other_chunk; match_chunk] <= 2)%nat ->
        firstn 2 (map snd ranked) = map snd ranked
        /\ Permutation (map snd ranked) (map (scored [1; 0]%float) [other_chunk; match_chunk])).
Proof.
  apply (searchSimilarChunks_ranking (constant_embedder [1; 0]%float) []
           [other_chunk; match_chunk] 2 [1; 0]%float).
  - reflexivity.
  - repeat constructor.
  - repeat constructor.
Defined.

End RetrievalExamples.

(** ** Ingestion *)

Section IngestFacts.
Import Throw Ingest.
Local Open Scope Q_scope.

Variable generateEmbedding : JS.js_string -> result (list float).
Variable generateUUID : nat -> string.


Lemma fraction_le i j n : (i <= j)%nat -> fraction i n <= fraction j n.
Proof.
  intros Hij. unfold fraction, Qdiv. apply Qmult_le_compat_r.
  - rewrite <- Zle_Qle. lia.
  - apply Qinv_le_0_compat. change 0 with (inject_Z 0). rewrite <- Zle_Qle. lia.
Qed.

Lemma fraction_nonneg i n : 0 <= fraction i n.
Proof.
  unfold fraction, Qdiv. apply Qmult_le_0_compat.
  - change 0 with (inject_Z 0). rewrite <- Zle_Qle. lia.
  - apply Qinv_le_0_compat. change 0 with (inject_Z 0). rewrite <- Zle_Qle. lia.
Qed.

Lemma fraction_last n : (1 <= n)%nat -> fraction (n - 1) n == 1.
Proof.
  intros Hn. unfold fraction.
  replace (Z.of_nat (n - 1) + 1)%Z with (Z.of_nat n) by lia.
  apply Qmult_inv_r. change 0 with (inject_Z 0). rewrite inject_Z_injective. lia.
Qed.

Lemma fractions_sorted n : forall m k,
  StronglySorted Qle (map (fun i => fraction i n) (seq k m)).
Proof.
  induction m as [|m IH]; intros k; simpl; constructor; [apply IH|].
  apply List.Forall_map, List.Forall_forall. intros j Hj.
  apply in_seq in Hj. apply fraction_le. lia.
Qed.

(** The progress values never decrease. *)
Lemma progress_sequence_sorted n : StronglySorted Qle (progress_sequence n).
Proof.
  unfold progress_sequence. constructor; [apply fractions_sorted|].
  apply List.Forall_map, List.Forall_forall. intros j _. apply fraction_nonneg.
Qed.

Lemma progress_sequence_last n : (1 <= n)%nat -> List.last (progress_sequence n) 0 == 1.
Proof.
  intros Hn. unfold progress_sequence.
  destruct n as [|n]; [lia|].
  rewrite seq_S, map_app. cbn [map].
  change (0 :: ?l ++ [?x]) with ((0 :: l) ++ [x]). rewrite List.last_last.
  replace (0 + n)%nat with (S n - 1)%nat by lia. apply fraction_last. lia.
Qed.

Lemma progress_values_app t1 t2 :
  progress_values (t1 ++ t2) = progress_values t1 ++ progress_values t2.
Proof.
  induction t1 as [|[p|text] t1 IH]; simpl; [reflexivity| |exact IH].
  by rewrite IH.
Qed.

Lemma progress_values_chunk_events total (rest : list Chunker.TextChunk) : forall i,
  progress_values (flat_map (chunk_events total) (indexed_from i rest))
  = map (fun j => fraction j total) (seq i (length rest)).
Proof.
  unfold indexed_from. induction rest as [|tc rest IH]; intros i; simpl; [reflexivity|].
  by rewrite IH.
Qed.

(** The loop over the text chunks, with a callback that records: every
    chunk is embedded and then reported, in order, and one record per chunk
    is returned. *)
Lemma embed_loop_trace documentId total (rest : list Chunker.TextChunk) :
  forall i chunks w,
  embeddable generateEmbedding rest ->
  exists out w',
    embed_loop generateEmbedding generateUUID documentId (Some record_progress)
      total i rest chunks w = (ret out, w')
    /\ trace w' = trace w ++ flat_map (chunk_events total) (indexed_from i rest)
    /\ length out = (length chunks + length rest)%nat.
Proof.
  induction rest as [|tc rest IH]; intros i chunks w He.
  - exists chunks, w. cbn. rewrite app_nil_r. repeat split. lia.
  - apply Forall_cons_iff in He as [[v Hv] He].
    cbn [embed_loop]. unfold mbind at 1, embed at 1. rewrite Hv. cbn [ret].
    unfold mbind at 1, freshUUID at 1. cbn [ret trace drawn].
    unfold mbind at 1, call_optional, record_progress, emit. cbn [ret trace drawn].
    edestruct (IH (S i)) as (out & w' & Hrun & Htr & Hlen); [exact He|].
    exists out, w'. split; [exact Hrun|]. split.
    + rewrite Htr. cbn [trace]. change (indexed_from i (tc :: rest))
        with ((i, tc) :: indexed_from (S i) rest).
      cbn [flat_map chunk_events fst snd]. rewrite <- !app_assoc. reflexivity.
    + rewrite Hlen, length_app. simpl. lia.
Qed.

(** C8.  For a document whose text yields [n >= 1] chunks, each of which
    the model embeds, [processDocument] calls the callback with 0 before
    the first embedding and with [(i + 1) / n] after the embedding of chunk
    [i]; the values it is called with never decrease and the last one
    is 1. *)
Theorem processDocument_reports_progress (fuel : nat) (document : Document.t)
    (textChunks : list Chunker.TextChunk) (w : World) :
  Chunker.chunkText fuel (Document.content document) = Some textChunks ->
  (1 <= length textChunks)%nat ->
  embeddable generateEmbedding textChunks ->
  exists run chunks w',
    processDocument generateEmbedding generateUUID fuel document (Some record_progress)
    = Some run
    /\ run w = (ret chunks, w')
    /\ length chunks = length textChunks
    /\ trace w'
       = trace w ++ OnProgress 0
           :: flat_map (chunk_events (length textChunks)) (indexed_from 0 textChunks)
    /\ progress_values (OnProgress 0
         :: flat_map (chunk_events (length textChunks)) (indexed_from 0 textChunks))
       = progress_sequence (length textChunks)
    /\ StronglySorted Qle (progress_sequence (length textChunks))
    /\ List.last (progress_sequence (length textChunks)) 0 == 1.
Proof.
  intros Hc Hn He. unfold processDocument. rewrite Hc.
  eexists. 
  destruct (embed_loop_trace (Document.id document) (length textChunks) textChunks 0 []
              (mkWorld (trace w ++ [OnProgress 0]) (drawn w)) He)
    as (out & w' & Hrun & Htr & Hlen).
  exists out, w'. split; [reflexivity|]. split; [|split; [|split; [|split; [|split]]]].
  - unfold mbind at 1, call_optional, record_progress, emit. cbn [ret]. exact Hrun.
  - exact Hlen.
  - rewrite Htr. cbn [trace]. rewrite <- app_assoc. reflexivity.
  - cbn [progress_values]. rewrite progress_values_chunk_events. reflexivity.
  - apply progress_sequence_sorted.
  - by apply progress_sequence_last.
Qed.

End IngestFacts.

Section IngestExamples.
Import Throw Ingest.

(** When the model throws on a chunk, the run ends with that error and the
    callback is not called again. *)
Lemma embed_loop_stops_on_failure generateEmbedding generateUUID documentId onProgress
    total i tc rest chunks w e :
  generateEmbedding (Chunker.content tc) = throw e ->
  embed_loop generateEmbedding generateUUID documentId onProgress total i (tc :: rest)
    chunks w
  = (throw e, mkWorld (trace w ++ [Embed (Chunker.content tc)]) (drawn w)).
Proof.
  intros He. cbn [embed_loop]. unfold mbind at 1, embed at 1. by rewrite He.
Qed.


Lemma processDocument_reports_progress_witness :
  exists run chunks w',
    processDocument (constant_embedder [1; 0]%float) (fun _ => "uuid") 0 note
      (Some record_progress) = Some run
    /\ run (mkWorld [] 0) = (ret chunks, w')
    /\ length chunks = length note_chunks
    /\ trace w'
       = trace (mkWorld [] 0) ++ OnProgress 0
           :: flat_map (chunk_events (length note_chunks)) (indexed_from 0 note_chunks)
    /\ progress_values (OnProgress 0
         :: flat_map (chunk_events (length note_chunks)) (indexed_from 0 note_chunks))
       = progress_sequence (length note_chunks)
    /\ StronglySorted Qle (progress_sequence (length note_chunks))
    /\ (List.last (progress_sequence (length note_chunks)) 0 == 1)%Q.
Proof.
  apply (processDocument_reports_progress (constant_embedder [1; 0]%float)
           (fun _ => "uuid") 0 note note_chunks (mkWorld [] 0)).
  - reflexivity.
  - simpl. lia.
  - constructor; [|constructor]. exists [1; 0]%float. reflexivity.
Defined.

End IngestExamples.

(** * Further properties *)

(** ** The other operations of the store *)

Section StoreOpsFacts.
Import RagDb RagDbOps.

Implicit Types (db : RAGDatabase) (id key : string).

Lemma RAGDatabase_eq db1 db2 :
  documents db1 = documents db2 -> chunks db1 = chunks db2 -> db1 = db2.
Proof. destruct db1, db2. simpl. by intros -> ->. Qed.


Lemma keyed_keys (batch : list DocumentChunk.t) :
  ((fun c => (DocumentChunk.id c, c)) <$> batch).*1 = map DocumentChunk.id batch.
Proof. induction batch as [|c batch IH]; cbn; [done|]. by rewrite IH. Qed.

(** The view of the chunk transaction when every [add] is accepted. *)
Lemma add_chunks_fresh batch : forall view,
  fresh_ids batch view ->
  add_chunks batch view
  = inr (list_to_map ((fun c => (DocumentChunk.id c, c)) <$> batch) ∪ view).
Proof.
  induction batch as [|c batch IH]; intros view [Hnd Hfree]; cbn.
  - by rewrite (left_id_L ∅ (∪)).
  - apply NoDup_cons in Hnd as [Hc Hnd]. apply Forall_cons in Hfree as [Hk Hfree].
    rewrite Hk. rewrite IH.
    + f_equal. rewrite <- insert_union_l. rewrite <- insert_union_r; [done|].
      apply not_elem_of_list_to_map. by rewrite keyed_keys.
    + split; [exact Hnd|]. eapply List.Forall_impl; [|apply Forall_and; split;
        [exact Hfree|apply Forall_forall; intros x Hx; exact Hx]].
      cbn. intros x [Hx Hin]. rewrite lookup_insert_ne; [done|].
      intros Heq. apply Hc. apply list_elem_of_In, in_map_iff.
      exists x. split; [done|]. by apply list_elem_of_In.
Qed.

(** An accepted batch had fresh identifiers. *)
Lemma add_chunks_accepts_fresh batch : forall view view',
  add_chunks batch view = inr view' -> fresh_ids batch view.
Proof.
  induction batch as [|c batch IH]; intros view view' H; cbn in H.
  - split; constructor.
  - destruct (view !! DocumentChunk.id c) eqn:Hk; [discriminate|].
    apply IH in H as [Hnd Hfree]. split.
    + cbn. apply NoDup_cons. split; [|exact Hnd].
      intros Hin. apply list_elem_of_In, in_map_iff in Hin as (x & Hx & Hin).
      rewrite List.Forall_forall in Hfree. specialize (Hfree x Hin).
      rewrite Hx, lookup_insert_eq in Hfree. discriminate.
    + constructor; [exact Hk|].
      eapply List.Forall_impl; [|exact Hfree]. cbn. intros x Hx.
      destruct (decide (DocumentChunk.id c = DocumentChunk.id x)) as [Heq|Hne].
      * rewrite Heq, lookup_insert_eq in Hx. discriminate.
      * by rewrite lookup_insert_ne in Hx.
Qed.

(** The chunks of a document after a store grew by one record. *)
Lemma by_document_insert (store : gmap string DocumentChunk.t) key c d :
  store !! key = None ->
  (map_to_list (by_document (<[key := c]> store) d)).*2
  ≡ₚ filter (fun c => DocumentChunk.documentId c = d) [c]
     ++ (map_to_list (by_document store d)).*2.
Proof.
  intros Hk. unfold by_document.
  destruct (decide (DocumentChunk.documentId c = d)) as [Hd|Hd].
  - rewrite filter_cons_True by done. rewrite map_filter_insert_True by done.
    rewrite map_to_list_insert; [done|]. apply map_lookup_filter_None. by left.
  - rewrite filter_cons_False by done. rewrite map_filter_insert_False by done.
    rewrite delete_id; [done|]. exact Hk.
Qed.

Lemma add_chunks_by_document batch : forall view view' d,
  add_chunks batch view = inr view' ->
  (map_to_list (by_document view' d)).*2
  ≡ₚ filter (fun c => DocumentChunk.documentId c = d) batch
     ++ (map_to_list (by_document view d)).*2.
Proof.
  induction batch as [|c batch IH]; intros view view' d H; cbn in H.
  - by injection H as <-.
  - destruct (view !! DocumentChunk.id c) eqn:Hk; [discriminate|].
    rewrite (IH _ _ d H), by_document_insert by exact Hk.
    change (c :: batch) with ([c] ++ batch). rewrite filter_app.
    rewrite !app_assoc. apply Permutation_app_tail, Permutation_app_comm.
Qed.

(** [addDocumentChunks] stores a batch whole or not at all.  When the
    identifiers of the batch differ from one another and from the stored
    ones, every chunk of the batch is stored, the documents are untouched,
    and the chunks of each document are its old ones and its chunks of the
    batch; otherwise the call fails with [ConstraintError]. *)
Theorem addDocumentChunks_all_or_nothing (batch : list DocumentChunk.t) db :
  (fresh_ids batch (chunks db) ->
     exists db',
       addDocumentChunks batch db = inr db'
       /\ documents db' = documents db
       /\ chunks db' = list_to_map ((fun c => (DocumentChunk.id c, c)) <$> batch) ∪ chunks db
       /\ forall d, getChunksByDocumentId db' d
            ≡ₚ filter (fun c => DocumentChunk.documentId c = d) batch
               ++ getChunksByDocumentId db d)
  /\ (~ fresh_ids batch (chunks db) -> addDocumentChunks batch db = inl ConstraintError).
Proof.
  unfold addDocumentChunks, getChunksByDocumentId. split.
  - intros Hfresh. pose proof (add_chunks_fresh batch (chunks db) Hfresh) as Hadd.
    rewrite Hadd. eexists. split; [reflexivity|]. cbn.
    split; [reflexivity|]. split; [reflexivity|].
    intros d. by apply add_chunks_by_document.
  - intros Hn. destruct (add_chunks batch (chunks db)) as [[]|view] eqn:Hadd;
      [reflexivity|]. exfalso. by eapply Hn, add_chunks_accepts_fresh.
Qed.

(** [deleteDocument] touches nothing of another document: its record and
    its chunks are what they were. *)
Theorem deleteDocument_spares_others id id' db :
  id' <> id ->
  getDocumentById (deleteDocument id db) id' = getDocumentById db id'
  /\ getChunksByDocumentId (deleteDocument id db) id' = getChunksByDocumentId db id'.
Proof.
  intros Hne. unfold getDocumentById, getChunksByDocumentId, by_document. split.
  - rewrite deleteDocument_documents. by apply lookup_delete_ne.
  - rewrite deleteDocument_chunks. do 2 f_equal.
    rewrite map_filter_filter. apply map_filter_ext.
    intros key c _. cbn. split; [by intros [? _]|]. intros Hd. split; [done|]. congruence.
Qed.

Lemma deleteDocument_spares_others_witness :
  getDocumentById (deleteDocument "d1" kept_db) "d0" = getDocumentById kept_db "d0"
  /\ getChunksByDocumentId (deleteDocument "d1" kept_db) "d0"
     = getChunksByDocumentId kept_db "d0".
Proof. apply (deleteDocument_spares_others "d1" "d0" kept_db). discriminate. Defined.

(** Deleting a document twice is deleting it once, and two deletions give
    the same store in either order. *)
Theorem deleteDocument_idempotent_commutes id id' db :
  deleteDocument id (deleteDocument id db) = deleteDocument id db
  /\ deleteDocument id (deleteDocument id' db) = deleteDocument id' (deleteDocument id db).
Proof.
  split; apply RAGDatabase_eq; rewrite ?deleteDocument_documents, ?deleteDocument_chunks.
  - apply delete_id, lookup_delete_eq.
  - rewrite map_filter_filter. apply map_filter_ext. intros key c _. cbn. tauto.
  - apply delete_delete.
  - rewrite !map_filter_filter. apply map_filter_ext. intros key c _. cbn. tauto.
Qed.

Lemma addDocument_no_orphans document db db' :
  no_orphans db -> addDocument document db = inr db' -> no_orphans db'.
Proof.
  intros Hdb. unfold addDocument, no_orphans in *.
  destruct (documents db !! Document.id document) eqn:Hk; [discriminate|].
  intros [= <-] key c Hc. cbn in *.
  destruct (decide (Document.id document = DocumentChunk.documentId c)) as [->|Hne].
  - rewrite lookup_insert_eq. by eexists.
  - rewrite lookup_insert_ne by done. by eapply Hdb.
Qed.

Lemma addDocumentChunks_no_orphans batch db db' :
  no_orphans db ->
  Forall (fun c => is_Some (getDocumentById db (DocumentChunk.documentId c))) batch ->
  addDocumentChunks batch db = inr db' -> no_orphans db'.
Proof.
  intros Hdb Hown Hadd. unfold addDocumentChunks in Hadd. unfold no_orphans in *.
  destruct (add_chunks batch (chunks db)) as [|view] eqn:Hview; [discriminate|].
  injection Hadd as <-. cbn.
  rewrite (add_chunks_fresh batch (chunks db)) in Hview
    by (by eapply add_chunks_accepts_fresh).
  injection Hview as <-. intros key c [Hc|[_ Hc]]%lookup_union_Some_raw.
  - apply elem_of_list_to_map_2, list_elem_of_fmap in Hc as (x & [= -> ->] & Hx).
    rewrite Forall_forall in Hown. by apply Hown.
  - by eapply Hdb.
Qed.

(** No operation of the store that succeeds leaves a chunk without its
    document, provided a batch of chunks is only added for stored
    documents. *)
Theorem store_operations_keep_chunks_owned db :
  no_orphans db ->
  (forall id, no_orphans (deleteDocument id db))
  /\ no_orphans (clearAllDocuments db)
  /\ (forall document db', addDocument document db = inr db' -> no_orphans db')
  /\ (forall batch db',
        Forall (fun c => is_Some (getDocumentById db (DocumentChunk.documentId c))) batch ->
        addDocumentChunks batch db = inr db' -> no_orphans db').
Proof.
  intros Hdb. split; [|split; [|split]].
  - unfold no_orphans in *.
    intros id key c. rewrite deleteDocument_documents, deleteDocument_chunks.
    intros [Hc Hd]%map_lookup_filter_Some. cbn in Hd.
    rewrite lookup_delete_ne by done. by eapply Hdb.
  - intros key c. cbn. by rewrite lookup_empty.
  - intros document db'. by apply addDocument_no_orphans.
  - intros batch db'. by apply addDocumentChunks_no_orphans.
Qed.

Lemma kept_db_no_orphans : no_orphans kept_db.
Proof.
  intros key c Hc. unfold kept_db in Hc. cbn [chunks] in Hc.
  apply lookup_singleton_Some in Hc as [<- <-]. cbn. by eexists.
Qed.

Lemma store_operations_keep_chunks_owned_witness :
  (forall id, no_orphans (deleteDocument id kept_db))
  /\ no_orphans (clearAllDocuments kept_db)
  /\ (forall document db', addDocument document kept_db = inr db' -> no_orphans db')
  /\ (forall batch db',
        Forall (fun c => is_Some (getDocumentById kept_db (DocumentChunk.documentId c)))
          batch ->
        addDocumentChunks batch kept_db = inr db' -> no_orphans db').
Proof. apply (store_operations_keep_chunks_owned kept_db kept_db_no_orphans). Defined.

(** The store after the documents of a list were deleted one by one. *)
Lemma delete_each_spec ids : forall db,
  delete_each ids db
  = mkDB (filter (fun kv => kv.1 ∉ ids) (documents db))
         (filter (fun kv => DocumentChunk.documentId kv.2 ∉ ids) (chunks db)).
Proof.
  unfold delete_each. induction ids as [|id ids IH]; intros db; cbn [fold_left].
  - apply RAGDatabase_eq; cbn; symmetry; apply map_filter_id;
      intros key x _; apply not_elem_of_nil.
  - rewrite IH. apply RAGDatabase_eq; cbn [documents chunks];
      rewrite ?deleteDocument_documents, ?deleteDocument_chunks.
    + apply map_eq. intros key. destruct (decide (key = id)) as [->|Hne].
      * rewrite (proj2 (map_lookup_filter_None _ _ _)).
        2:{ left. apply lookup_delete_eq. }
        symmetry. apply map_lookup_filter_None. right. intros x _ Hn. apply Hn.
        cbn. apply elem_of_cons. by left.
      * rewrite !map_lookup_filter. rewrite lookup_delete_ne by done.
        destruct (documents db !! key) as [x|]; [|done]. cbn.
        apply option_guard_iff. rewrite not_elem_of_cons. tauto.
    + rewrite map_filter_filter. apply map_filter_ext. intros key c _. cbn.
      rewrite not_elem_of_cons. tauto.
Qed.

(** Deleting the stored documents one by one empties the store, as
    [clearAllDocuments] does, exactly when no stored chunk is without its
    document: a chunk without a stored document is out of reach of
    [deleteDocument]. *)
Theorem clearAllDocuments_is_deleting_each db :
  delete_each (document_keys db) db = clearAllDocuments db <-> no_orphans db.
Proof.
  rewrite delete_each_spec. unfold clearAllDocuments, document_keys, no_orphans. split.
  - intros [= _ Hc] key c Hkc.
    destruct (documents db !! DocumentChunk.documentId c) as [d|] eqn:Hd; [by eexists|].
    exfalso. eapply (map_filter_empty_not_lookup _ _ key c Hc); [|exact Hkc].
    cbn. intros ([k d] & Hk & Hin)%list_elem_of_fmap. cbn in Hk. subst k.
    apply elem_of_map_to_list in Hin. congruence.
  - intros Hdb. f_equal.
    + apply map_empty. intros key. apply map_lookup_filter_None. right.
      intros d Hkd Hn. apply Hn. cbn.
      apply list_elem_of_fmap. exists (key, d). split; [done|].
      by apply elem_of_map_to_list.
    + apply map_empty. intros key. apply map_lookup_filter_None. right.
      intros c Hkc Hn. apply Hn. cbn.
      destruct (Hdb key c Hkc) as [d Hd].
      apply list_elem_of_fmap. exists (DocumentChunk.documentId c, d). split; [done|].
      by apply elem_of_map_to_list.
Qed.

Lemma no_chunks_of_document db id :
  getChunksByDocumentId db id = [] ->
  forall key c, chunks db !! key = Some c -> DocumentChunk.documentId c <> id.
Proof.
  unfold getChunksByDocumentId. intros Hnil key c Hc Hd.
  apply fmap_nil_inv, map_to_list_empty_iff in Hnil.
  eapply (map_filter_empty_not_lookup _ _ key c Hnil); [exact Hd|exact Hc].
Qed.

(** Storing a document with its chunks and then deleting it gives back the
    store as it was, when the document is new to the store, no stored chunk
    refers to it, and the chunks of the batch are its own and have fresh
    identifiers. *)
Theorem upload_then_delete_restores (document : Document.t)
    (batch : list DocumentChunk.t) db :
  getDocumentById db (Document.id document) = None ->
  getChunksByDocumentId db (Document.id document) = [] ->
  fresh_ids batch (chunks db) ->
  Forall (fun c => DocumentChunk.documentId c = Document.id document) batch ->
  exists db1 db2,
    addDocument document db = inr db1
    /\ addDocumentChunks batch db1 = inr db2
    /\ deleteDocument (Document.id document) db2 = db.
Proof.
  intros Hnew Hnone Hfresh Hown. unfold getDocumentById in Hnew.
  pose proof (no_chunks_of_document _ _ Hnone) as Hfree.
  unfold addDocument, addDocumentChunks. rewrite Hnew. eexists. eexists.
  split; [reflexivity|]. cbn [chunks documents].
  rewrite (add_chunks_fresh batch (chunks db) Hfresh). split; [reflexivity|].
  apply RAGDatabase_eq; rewrite ?deleteDocument_documents, ?deleteDocument_chunks;
    cbn [chunks documents].
  - by apply delete_insert_id.
  - apply map_eq. intros key.
    destruct Hfresh as [_ Hnew_keys]. rewrite List.Forall_forall in Hnew_keys, Hown.
    destruct (chunks db !! key) as [c|] eqn:Hc.
    + apply map_lookup_filter_Some. split; [|by eapply Hfree].
      apply lookup_union_Some_raw. right. split; [|done].
      apply not_elem_of_list_to_map. rewrite keyed_keys.
      intros (x & Hx & Hin)%list_elem_of_In%in_map_iff.
      specialize (Hnew_keys x Hin). congruence.
    + apply map_lookup_filter_None.
      destruct ((list_to_map ((fun c => (DocumentChunk.id c, c)) <$> batch) ∪ chunks db)
                  !! key) as [c|] eqn:Hu; [right|by left].
      intros x [= <-]. cbn. intros Hd. apply Hd.
      apply lookup_union_Some_raw in Hu as [Hl|[_ Hr]]; [|congruence].
      apply elem_of_list_to_map_2, list_elem_of_fmap in Hl as (x & [= -> ->] & Hx).
      apply Hown. by apply list_elem_of_In.
Qed.

Lemma upload_then_delete_restores_witness :
  exists db1 db2,
    addDocument second_note kept_db = inr db1
    /\ addDocumentChunks [null_chunk; match_chunk] db1 = inr db2
    /\ deleteDocument (Document.id second_note) db2 = kept_db.
Proof.
  apply (upload_then_delete_restores second_note [null_chunk; match_chunk] kept_db).
  - reflexivity.
  - vm_compute. reflexivity.
  - split; [|repeat constructor]. cbn. apply NoDup_cons. split; [|apply NoDup_singleton].
    by intros [= ]%list_elem_of_singleton.
  - repeat constructor.
Defined.

End StoreOpsFacts.

(** ** More on binary64 arithmetic *)

Module FloatArith.
Import FloatNotions MoreFloatNotions.

Lemma SFmul_comm x y : SF64mul x y = SF64mul y x.
Proof.
  unfold SF64mul, SFmul.
  destruct x as [sx|sx| |sx mx ex], y as [sy|sy| |sy my ey]; try reflexivity;
    try (by rewrite xorb_comm).
  by rewrite xorb_comm, Pos.mul_comm, Z.add_comm.
Qed.

(** The product of two doubles does not depend on their order. *)
Lemma mul_comm x y : (x * y = y * x)%float.
Proof. apply Prim2SF_inj. rewrite !mul_spec. apply SFmul_comm. Qed.

Lemma SFmul_zero_r x y : is_zero_sf y -> zero_or_nan (SF64mul x y).
Proof. destruct x, y; cbn; tauto. Qed.

Lemma SFmul_zero_zero x y : is_zero_sf x -> is_zero_sf y -> is_zero_sf (SF64mul x y).
Proof. destruct x, y; cbn; tauto. Qed.

Lemma SFadd_zero_or_nan x y :
  zero_or_nan x -> zero_or_nan y -> zero_or_nan (SF64add x y).
Proof. destruct x as [[]| | |], y as [[]| | |]; cbn; tauto. Qed.

Lemma SFadd_zero_zero x y : is_zero_sf x -> is_zero_sf y -> is_zero_sf (SF64add x y).
Proof. destruct x as [[]| | |], y as [[]| | |]; cbn; tauto. Qed.

Lemma SFsqrt_zero x : is_zero_sf x -> is_zero_sf (SF64sqrt x).
Proof. destruct x; cbn; tauto. Qed.

Lemma SFdiv_zero_or_nan x y :
  zero_or_nan x -> zero_or_nan y -> SF64div x y = S754_nan.
Proof. destruct x, y; cbn; tauto. Qed.

Lemma is_nan_of_spec x : Prim2SF x = S754_nan -> PrimFloat.is_nan x = true.
Proof. intros H. rewrite FloatOrder.is_nan_spec, H. reflexivity. Qed.

End FloatArith.

(** ** More on the cosine similarity *)

Section CosineFacts.
Import Throw RagUtils FloatArith MoreFloatNotions.
Local Open Scope float_scope.

Lemma accumulate_swap a : forall b dotProduct normA normB,
  accumulate b a (dotProduct, normB, normA)
  = let '(d, na, nb) := accumulate a b (dotProduct, normA, normB) in (d, nb, na).
Proof.
  induction a as [|x a IH]; intros [|y b] d na nb; cbn; try reflexivity.
  rewrite (mul_comm y x). apply IH.
Qed.

Lemma cosine_comm a b : cosine a b = cosine b a.
Proof.
  unfold cosine. rewrite (accumulate_swap a b 0 0 0).
  destruct (accumulate a b (0, 0, 0)) as [[d na] nb]. by rewrite mul_comm.
Qed.

(** [cosineSimilarity] treats its two arguments alike: swapping them gives
    the same number, or the same error. *)
Theorem cosineSimilarity_symmetric (a b : list float) :
  cosineSimilarity a b = cosineSimilarity b a.
Proof.
  unfold cosineSimilarity. rewrite (Nat.eqb_sym (length a) (length b)).
  destruct (Nat.eqb (length b) (length a)); [|reflexivity]. by rewrite cosine_comm.
Qed.

Lemma is_zero_spec x : PrimFloat.is_zero x = true -> is_zero_sf (Prim2SF x).
Proof.
  unfold PrimFloat.is_zero. rewrite FloatAxioms.eqb_spec.
  change (Prim2SF zero) with (S754_zero false).
  destruct (Prim2SF x) as [s|s| |s m e]; cbn; try discriminate; try tauto;
    destruct s; discriminate.
Qed.

(** With the second vector all zeros, the accumulated dot product is a zero
    or [NaN] and the accumulated norm of the second vector is a zero. *)
Lemma accumulate_zero_vector a : forall b dotProduct normA normB,
  zero_vector b ->
  zero_or_nan (Prim2SF dotProduct) -> is_zero_sf (Prim2SF normB) ->
  let '(d, _, nb) := accumulate a b (dotProduct, normA, normB) in
  zero_or_nan (Prim2SF d) /\ is_zero_sf (Prim2SF nb).
Proof.
  induction a as [|x a IH]; intros [|y b] d na nb Hb Hd Hnb; cbn; try tauto.
  apply List.Forall_cons_iff in Hb as [Hy Hb]. apply is_zero_spec in Hy.
  apply IH; [exact Hb| |].
  - rewrite add_spec, mul_spec. apply SFadd_zero_or_nan; [exact Hd|].
    by apply SFmul_zero_r.
  - rewrite add_spec, mul_spec. apply SFadd_zero_zero; [exact Hnb|].
    by apply SFmul_zero_zero.
Qed.

Lemma cosine_zero_vector a b : zero_vector b -> cosine a b = nan.
Proof.
  intros Hb. unfold cosine.
  pose proof (accumulate_zero_vector a b 0 0 0 Hb I I) as H.
  destruct (accumulate a b (0, 0, 0)) as [[d na] nb]. destruct H as [Hd Hnb].
  apply Prim2SF_inj. rewrite div_spec, mul_spec, !sqrt_spec.
  change (Prim2SF nan) with S754_nan.
  apply SFdiv_zero_or_nan; [exact Hd|]. by apply SFmul_zero_r, SFsqrt_zero.
Qed.

(** A vector of zeros has no direction: compared with it, every vector of
    the same length has similarity [NaN], not 0.  This holds for two empty
    vectors too. *)
Theorem cosineSimilarity_zero_vector (a b : list float) :
  length a = length b ->
  zero_vector a \/ zero_vector b ->
  cosineSimilarity a b = ret nan.
Proof.
  intros Hlen Hz. unfold cosineSimilarity. rewrite Hlen, Nat.eqb_refl. f_equal.
  destruct Hz as [Ha|Hb]; [rewrite cosine_comm|]; by apply cosine_zero_vector.
Qed.

Lemma cosineSimilarity_zero_vector_witness :
  cosineSimilarity [0.5; 2]%float [0; -0]%float = ret nan.
Proof.
  apply (cosineSimilarity_zero_vector [0.5; 2]%float [0; -0]%float).
  - reflexivity.
  - right. repeat constructor.
Defined.

Lemma is_nan_sf_spec x : PrimFloat.is_nan x = true -> Prim2SF x = S754_nan.
Proof.
  rewrite FloatOrder.is_nan_spec. by destruct (Prim2SF x).
Qed.

Lemma SFadd_nan_l x : SF64add S754_nan x = S754_nan.
Proof. by destruct x. Qed.

Lemma SFadd_nan_r x : SF64add x S754_nan = S754_nan.
Proof. by destruct x. Qed.

Lemma SFmul_nan_l x : SF64mul S754_nan x = S754_nan.
Proof. by destruct x. Qed.

(** Once the dot product is [NaN] it stays [NaN]. *)
Lemma accumulate_nan_dot a : forall b dotProduct normA normB,
  Prim2SF dotProduct = S754_nan ->
  Prim2SF (accumulate a b (dotProduct, normA, normB)).1.1 = S754_nan.
Proof.
  induction a as [|x a IH]; intros [|y b] d na nb Hd; cbn; try exact Hd.
  apply IH. by rewrite add_spec, Hd, SFadd_nan_l.
Qed.

Lemma accumulate_nan_component a : forall b dotProduct normA normB,
  length a = length b ->
  has_nan a ->
  Prim2SF (accumulate a b (dotProduct, normA, normB)).1.1 = S754_nan.
Proof.
  induction a as [|x a IH]; intros [|y b] d na nb Hlen Hn;
    try discriminate; [by inversion Hn|].
  cbn. apply Exists_cons in Hn as [Hx|Hn].
  - apply accumulate_nan_dot.
    by rewrite add_spec, mul_spec, (is_nan_sf_spec x Hx), SFmul_nan_l, SFadd_nan_r.
  - apply IH; [by injection Hlen|exact Hn].
Qed.

Lemma cosine_nan_component a b : length a = length b -> has_nan a -> cosine a b = nan.
Proof.
  intros Hlen Hn. unfold cosine.
  pose proof (accumulate_nan_component a b 0 0 0 Hlen Hn) as H.
  destruct (accumulate a b (0, 0, 0)) as [[d na] nb]. cbn in H.
  apply Prim2SF_inj. rewrite div_spec, H. reflexivity.
Qed.

(** A [NaN] among the components of either vector makes the similarity
    [NaN], whatever the other components are. *)
Theorem cosineSimilarity_nan_component (a b : list float) :
  length a = length b ->
  has_nan a \/ has_nan b ->
  cosineSimilarity a b = ret nan.
Proof.
  intros Hlen Hn. unfold cosineSimilarity. rewrite Hlen, Nat.eqb_refl. f_equal.
  destruct Hn as [Ha|Hb]; [|rewrite cosine_comm]; by apply cosine_nan_component.
Qed.

Lemma cosineSimilarity_nan_component_witness :
  cosineSimilarity [1; 2]%float [nan; 3]%float = ret nan.
Proof.
  apply (cosineSimilarity_nan_component [1; 2]%float [nan; 3]%float).
  - reflexivity.
  - right. by constructor.
Defined.

End CosineFacts.

(** ** More on the chunker *)

Section MoreChunkerFacts.
Import JS Chunker.

(** [last_match] returns [found] or an index of the scanned range that holds
    [c], and no later index of the range up to [stop] holds [c]. *)
Lemma last_match_spec c s : forall pre i stop found,
  i = Z.of_nat (length pre) -> found < i ->
  let r := last_match c s i stop found in
  (r = found \/ (i <= r <= stop /\ unit_at (pre ++ s) r c))
  /\ (forall j, i <= j <= stop -> r < j \/ r = found -> ~ unit_at (pre ++ s) j c).
Proof.
  induction s as [|x s IH]; intros pre i stop found Hi Hf; cbn.
  - split; [by left|]. intros j Hj _ [_ Hu].
    rewrite app_nil_r in Hu.
    rewrite (proj2 (nth_error_None pre (Z.to_nat j))) in Hu by lia. discriminate.
  - destruct (Z.ltb_spec stop i) as [Hlt|Hle].
    + split; [by left|]. intros j Hj. lia.
    + specialize (IH (pre ++ [x]) (i + 1) stop (if N.eqb x c then i else found)
                    ltac:(rewrite length_app; cbn; lia)
                    ltac:(destruct (N.eqb x c); lia)).
      rewrite <- app_assoc in IH. cbn [app] in IH. cbn zeta in IH.
      set (r := last_match c s (i + 1) stop (if N.eqb x c then i else found)) in *.
      assert (Hhere : nth_error (pre ++ x :: s) (Z.to_nat i) = Some x).
      { rewrite nth_error_app2 by lia.
        replace (Z.to_nat i - length pre)%nat with 0%nat by lia. reflexivity. }
      destruct IH as [Hr Hmax]. split.
      * destruct Hr as [Hr|[Hr Hu]]; [|right; split; [lia|exact Hu]].
        destruct (N.eqb_spec x c) as [->|Hne]; [|by left].
        right. split; [lia|]. split; [lia|]. by rewrite Hr.
      * intros j Hj Hcase. destruct (Z.eq_dec j i) as [->|Hji].
        -- intros [_ Hu]. rewrite Hhere in Hu. injection Hu as ->.
           rewrite N.eqb_refl in Hr. destruct Hr as [Hr|[Hr _]]; lia.
        -- apply Hmax; [lia|]. destruct Hcase as [|Hrf]; [by left|].
           destruct (N.eqb x c); [|by right].
           destruct Hr as [Hr|[Hr _]]; lia.
Qed.

(** [lastIndexOf] returns the last index at or before [position] that holds
    [c], and [-1] when there is none. *)
Lemma lastIndexOf_spec text c position :
  0 <= position < str_length text ->
  let r := lastIndexOf text c position in
  (r = -1 /\ none_in text c (-1) position)
  \/ last_in text c (-1) position r.
Proof.
  intros Hp. unfold lastIndexOf. cbn zeta.
  destruct (Z.ltb_spec (str_length text) 1); [lia|].
  replace (Z.min (Z.max position 0) (str_length text - 1)) with position by lia.
  pose proof (last_match_spec c text [] 0 position (-1) eq_refl ltac:(lia)) as H'.
  cbn [app] in H'. cbn zeta in H'. destruct H' as [Hr Hmax].
  destruct Hr as [Hr|[Hr Hu]].
  - left. split; [exact Hr|]. intros j Hj. apply Hmax; [lia|by right].
  - right. split; [lia|]. split; [exact Hu|]. intros j Hj. apply Hmax; [lia|left; lia].
Qed.

Lemma last_in_narrow text c lo hi k :
  last_in text c (-1) hi k -> lo < k -> -1 <= lo -> last_in text c lo hi k.
Proof.
  intros (Hk & Hu & Hmax) Hlo Hlo'. split; [lia|]. split; [exact Hu|exact Hmax].
Qed.

Lemma none_in_narrow text c lo hi k :
  0 <= lo ->
  (k = -1 /\ none_in text c (-1) hi) \/ last_in text c (-1) hi k ->
  k <= lo -> none_in text c lo hi.
Proof.
  intros Hlo [[-> Hnone]|(Hk & Hu & Hmax)] Hle j Hj.
  - apply Hnone. lia.
  - apply Hmax. lia.
Qed.

(** Where a window ends that is not the last one.  If the second half of
    the window holds a full stop, the chunk ends right after the last one;
    else, if it holds a space, the chunk ends right before the last one;
    else it ends at the hard edge.  The position just after the window
    counts as part of its second half, so a chunk may span [CHUNK_SIZE + 1]
    code units. *)
Theorem window_end_prefers_boundaries (text : js_string) (start : Z) :
  0 <= start -> start + CHUNK_SIZE < str_length text ->
  start + HALF_CHUNK < window_end text start <= start + CHUNK_SIZE + 1
  /\ (last_in text FULL_STOP (start + HALF_CHUNK) (start + CHUNK_SIZE)
        (window_end text start - 1)
      \/ (none_in text FULL_STOP (start + HALF_CHUNK) (start + CHUNK_SIZE)
          /\ last_in text SPACE (start + HALF_CHUNK) (start + CHUNK_SIZE)
               (window_end text start))
      \/ (none_in text FULL_STOP (start + HALF_CHUNK) (start + CHUNK_SIZE)
          /\ none_in text SPACE (start + HALF_CHUNK) (start + CHUNK_SIZE)
          /\ window_end text start = start + CHUNK_SIZE)).
Proof.
  intros Hs Hlen. unfold window_end.
  replace (Z.min (start + CHUNK_SIZE) (str_length text)) with (start + CHUNK_SIZE) by lia.
  destruct (Z.ltb_spec (start + CHUNK_SIZE) (str_length text)); [|lia].
  assert (Hpos : 0 <= start + CHUNK_SIZE < str_length text)
    by (unfold CHUNK_SIZE in *; lia).
  pose proof (lastIndexOf_spec text FULL_STOP (start + CHUNK_SIZE) Hpos) as Hdot.
  pose proof (lastIndexOf_spec text SPACE (start + CHUNK_SIZE) Hpos) as Hsp.
  cbn zeta in Hdot, Hsp.
  assert (Hhalf : 0 <= start + HALF_CHUNK) by (unfold HALF_CHUNK; lia).
  assert (Hlt : HALF_CHUNK < CHUNK_SIZE) by (unfold HALF_CHUNK, CHUNK_SIZE; lia).
  destruct (Z.ltb_spec (start + HALF_CHUNK) (lastIndexOf text FULL_STOP (start + CHUNK_SIZE)))
    as [Hd|Hd].
  - destruct Hdot as [[Hr _]|Hlast]; [lia|].
    pose proof Hlast as (Hk & _). split; [lia|]. left.
    replace (lastIndexOf text FULL_STOP (start + CHUNK_SIZE) + 1 - 1)
      with (lastIndexOf text FULL_STOP (start + CHUNK_SIZE)) by lia.
    apply last_in_narrow; [exact Hlast|exact Hd|lia].
  - pose proof (none_in_narrow _ _ (start + HALF_CHUNK) _ _ Hhalf Hdot Hd) as Hnodot.
    destruct (Z.ltb_spec (start + HALF_CHUNK) (lastIndexOf text SPACE (start + CHUNK_SIZE)))
      as [Hw|Hw].
    + destruct Hsp as [[Hr _]|Hlast]; [lia|].
      pose proof Hlast as (Hk & _). split; [lia|]. right; left. split; [exact Hnodot|].
      apply last_in_narrow; [exact Hlast|exact Hw|lia].
    + pose proof (none_in_narrow _ _ (start + HALF_CHUNK) _ _ Hhalf Hsp Hw) as Hnosp.
      split; [lia|]. right; right. by repeat split.
Qed.

Lemma window_end_prefers_boundaries_witness :
  0 + HALF_CHUNK < window_end two_sentences 0 <= 0 + CHUNK_SIZE + 1
  /\ (last_in two_sentences FULL_STOP (0 + HALF_CHUNK) (0 + CHUNK_SIZE)
        (window_end two_sentences 0 - 1)
      \/ (none_in two_sentences FULL_STOP (0 + HALF_CHUNK) (0 + CHUNK_SIZE)
          /\ last_in two_sentences SPACE (0 + HALF_CHUNK) (0 + CHUNK_SIZE)
               (window_end two_sentences 0))
      \/ (none_in two_sentences FULL_STOP (0 + HALF_CHUNK) (0 + CHUNK_SIZE)
          /\ none_in two_sentences SPACE (0 + HALF_CHUNK) (0 + CHUNK_SIZE)
          /\ window_end two_sentences 0 = 0 + CHUNK_SIZE)).
Proof.
  apply (window_end_prefers_boundaries two_sentences 0); [lia|].
  vm_compute. reflexivity.
Defined.

Lemma trimStart_head s x :
  hd_error (trimStart s) = Some x -> is_white_space x = false.
Proof.
  induction s as [|y s IH]; cbn; [discriminate|].
  destruct (is_white_space y) eqn:Hy; [exact IH|]. cbn. by intros [= <-].
Qed.

Lemma trimStart_split s :
  exists ws, s = ws ++ trimStart s /\ Forall (fun x => is_white_space x = true) ws.
Proof.
  induction s as [|y s (ws & Hs & Hws)]; cbn; [by exists []|].
  destruct (is_white_space y) eqn:Hy.
  - exists (y :: ws). split; [by rewrite Hs at 1|by constructor].
  - by exists [].
Qed.

(** [trim] leaves no white space at either end. *)
Lemma trim_trimmed s : trimmed (trim s).
Proof.
  unfold trim, trimEnd. set (t := trimStart s). split.
  - intros x Hx.
    destruct (trimStart_split (rev t)) as (ws & Hsplit & Hws).
    set (u := trimStart (rev t)) in *.
    assert (Ht : t = rev u ++ rev ws)
      by (rewrite <- rev_app_distr, <- Hsplit; symmetry; apply rev_involutive).
    destruct (rev u) as [|h r] eqn:Hu; [discriminate|]. cbn in Hx. injection Hx as ->.
    apply (trimStart_head s). fold t. by rewrite Ht.
  - intros x. rewrite rev_involutive. apply trimStart_head.
Qed.

Lemma lookup_snoc_pair {A} (l : list A) (x : A) i c d :
  (l ++ [x]) !! i = Some c -> (l ++ [x]) !! S i = Some d ->
  (l !! i = Some c /\ l !! S i = Some d) \/ (last l = Some c /\ d = x).
Proof.
  intros Hc Hd.
  destruct (decide (S i < length l)%nat) as [Hlt|Hge].
  - left. rewrite !lookup_app_l in Hc, Hd by lia. done.
  - right. assert (S i = length l) as Hi.
    { apply lookup_lt_Some in Hd. rewrite length_app in Hd. cbn in Hd. lia. }
    rewrite lookup_app_l in Hc by lia.
    rewrite lookup_app_r in Hd by lia. rewrite Hi, Nat.sub_diag in Hd.
    injection Hd as <-. split; [|done].
    rewrite last_lookup. rewrite <- Hi. exact Hc.
Qed.

(** Every pass of the loop keeps [pushed_invariant]. *)
Lemma loop_body_pushed text st :
  CHUNK_SIZE < str_length text ->
  pushed_invariant text st -> pushed_invariant text (loop_body text st).
Proof.
  intros Hlong (Hst & Hall & Hchain & Hlast). destruct st as [start chunks].
  unfold pushed_invariant. cbn [fst snd loop_body] in *.
  pose proof (window_end_ge text start ltac:(lia)) as Hge.
  pose proof (window_end_le_length text start) as Hup.
  split; [lia|].
  unfold push_chunk.
  destruct (Z.ltb_spec 0 (str_length (trim (slice text start (window_end text start)))))
    as [Hpos|Hempty].
  - assert (Hne : trim (slice text start (window_end text start)) <> []).
    { intros Hnil. rewrite Hnil in Hpos. unfold str_length in Hpos. cbn in Hpos. lia. }
    assert (Hspan : start < window_end text start).
    { apply (slice_nonempty text); [lia|unfold CHUNK_OVERLAP in *; lia|].
      intros Hnil. apply Hne. by rewrite Hnil. }
    split; [|split].
    + apply Forall_app. split; [exact Hall|]. constructor; [|constructor].
      unfold chunk_of. cbn. repeat split; try lia; try done. all: apply trim_trimmed.
    + intros i c d Hc Hd.
      destruct (lookup_snoc_pair _ _ _ _ _ Hc Hd) as [[Hc' Hd']|[Hl ->]];
        [by eapply Hchain|].
      destruct (Hlast c Hl) as [H1 H2]. unfold follows. cbn. lia.
    + intros c. rewrite last_snoc. intros [= <-]. cbn. lia.
  - split; [exact Hall|]. split; [exact Hchain|].
    intros c Hc. destruct (Hlast c Hc) as [H1 H2]. lia.
Qed.

Lemma loop_state_pushed text n :
  CHUNK_SIZE < str_length text -> pushed_invariant text (loop_state n text).
Proof.
  intros Hlong. induction n as [|n IH]; cbn [loop_state].
  - unfold pushed_invariant, CHUNK_SIZE, CHUNK_OVERLAP in *. cbn.
    split; [lia|]. split; [constructor|]. split; [|done].
    intros i c d Hc. by rewrite lookup_nil in Hc.
  - by apply loop_body_pushed.
Qed.

(** The chunks the loop has pushed after any number of passes.  Each is a
    non-empty span inside the text whose content is the trimmed text of the
    span, not empty and without white space at either end; each chunk starts
    and ends no earlier than the one before it, and at most [CHUNK_OVERLAP]
    code units before the end of the one before it. *)
Theorem pushed_chunks_are_chained_spans (text : js_string) (n : nat) :
  CHUNK_SIZE < str_length text ->
  Forall (chunk_of text) (snd (loop_state n text))
  /\ chained (snd (loop_state n text)).
Proof.
  intros Hlong. destruct (loop_state_pushed text n Hlong) as (_ & Hall & Hchain & _).
  by split.
Qed.

Lemma pushed_chunks_are_chained_spans_witness :
  Forall (chunk_of two_sentences) (snd (loop_state 2 two_sentences))
  /\ chained (snd (loop_state 2 two_sentences)).
Proof.
  apply (pushed_chunks_are_chained_spans two_sentences 2). vm_compute. reflexivity.
Defined.

(** [chunkText] returns exactly on the texts of at most [CHUNK_SIZE] code
    units: on a longer text the loop is still running after any number of
    passes. *)
Theorem chunkText_returns_exactly_on_short_texts (fuel : nat) (text : js_string) :
  (chunkText fuel text = None <-> CHUNK_SIZE < str_length text)
  /\ (forall cs, chunkText fuel text = Some cs <->
        str_length text <= CHUNK_SIZE /\ cs = [mkTextChunk text 0 (str_length text)]).
Proof.
  split; [|intros cs; apply chunkText_returns_iff]. split.
  - intros Hnone. destruct (Z.ltb_spec CHUNK_SIZE (str_length text)) as [|Hle]; [done|].
    assert (chunkText fuel text = Some [mkTextChunk text 0 (str_length text)]) as Hsome
      by (by apply chunkText_returns_iff).
    congruence.
  - apply chunkText_long_runs_on.
Qed.

End MoreChunkerFacts.

(** ** More on ingestion *)

Section MoreIngestFacts.
Import Throw Ingest Embeddings.

Variable generateEmbedding : JS.js_string -> result (list float).
Variable generateUUID : nat -> string.

Lemma embeddings_loop_returns texts : forall vectors embeddings w,
  embedded generateEmbedding texts vectors ->
  embeddings_loop generateEmbedding texts embeddings w
  = (ret (embeddings ++ vectors), mkWorld (trace w ++ map Embed texts) (drawn w)).
Proof.
  induction texts as [|text texts IH]; intros vectors embeddings w He;
    inversion He as [|? v ? vs Hv Hrest]; subst; cbn [embeddings_loop map].
  - unfold mret. rewrite !app_nil_r. by destruct w.
  - unfold mbind, embed. rewrite Hv. cbn [ret].
    rewrite (IH vs) by exact Hrest. cbn. by rewrite <- !app_assoc.
Qed.

Lemma embeddings_loop_throws done : forall text rest vectors embeddings w e,
  embedded generateEmbedding done vectors ->
  generateEmbedding text = throw e ->
  embeddings_loop generateEmbedding (done ++ text :: rest) embeddings w
  = (throw e, mkWorld (trace w ++ map Embed (done ++ [text])) (drawn w)).
Proof.
  induction done as [|t done IH]; intros text rest vectors embeddings w e He Hthrow;
    inversion He as [|? v ? vs Hv Hrest]; subst; cbn [embeddings_loop app].
  - unfold mbind, embed. by rewrite Hthrow.
  - unfold mbind, embed. rewrite Hv. cbn [ret].
    rewrite (IH text rest vs _ _ e) by done. cbn. by rewrite <- !app_assoc.
Qed.

(** [generateEmbeddings] embeds the texts one after the other.  When the
    model answers for all of them, it returns their vectors in the order of
    the texts; when the model throws on a text, it throws that error, and
    the texts after it are never sent to the model. *)
Theorem generateEmbeddings_in_order (texts : list JS.js_string) (w : World) :
  (forall vectors,
     embedded generateEmbedding texts vectors ->
     generateEmbeddings generateEmbedding texts w
     = (ret vectors, mkWorld (trace w ++ map Embed texts) (drawn w)))
  /\ (forall done text rest vectors e,
        texts = done ++ text :: rest ->
        embedded generateEmbedding done vectors ->
        generateEmbedding text = throw e ->
        generateEmbeddings generateEmbedding texts w
        = (throw e, mkWorld (trace w ++ map Embed (done ++ [text])) (drawn w))).
Proof.
  unfold generateEmbeddings. split.
  - intros vectors He. by rewrite (embeddings_loop_returns texts vectors).
  - intros done text rest vectors e -> He Hthrow.
    by eapply embeddings_loop_throws.
Qed.

(** The loop of [processDocument] with a callback that returns: one record
    per text chunk, in order, whatever the callback. *)
Lemma embed_loop_records documentId onProgress total (rest : list Chunker.TextChunk) :
  forall vectors i chunks w,
  returns_quietly onProgress ->
  embedded generateEmbedding (map Chunker.content rest) vectors ->
  exists w',
    embed_loop generateEmbedding generateUUID documentId onProgress total i rest chunks w
    = (ret (chunks ++ chunk_records generateUUID documentId (drawn w) rest vectors), w')
    /\ drawn w' = (drawn w + length rest)%nat.
Proof.
  induction rest as [|tc rest IH]; intros vectors i chunks w Hq He;
    inversion He as [|? v ? vs Hv Hrest]; subst.
  - exists w. cbn. rewrite app_nil_r. split; [done|lia].
  - cbn [embed_loop]. unfold mbind at 1, embed at 1. rewrite Hv. cbn [ret].
    unfold mbind at 1, freshUUID at 1. cbn [ret trace drawn].
    unfold mbind at 1, call_optional.
    assert (Hcall : exists events,
      match onProgress with Some f => f (fraction i total) | None => mret tt end
        (mkWorld (trace w ++ [Embed (Chunker.content tc)]) (S (drawn w)))
      = (ret tt, mkWorld ((trace w ++ [Embed (Chunker.content tc)]) ++ events)
                   (S (drawn w)))).
    { destruct onProgress as [f|]; [apply Hq|]. exists []. cbn. by rewrite app_nil_r. }
    destruct Hcall as [events ->].
    edestruct (IH vs (S i)) as (w' & Hrun & Hdrawn); [exact Hq|exact Hrest|].
    exists w'. split.
    + rewrite Hrun. cbn [ret drawn chunk_records]. unfold chunk_record.
      do 2 f_equal. by rewrite <- app_assoc.
    + rewrite Hdrawn. cbn. lia.
Qed.

Lemma record_progress_returns_quietly : returns_quietly (Some record_progress).
Proof. intros p w. by exists [OnProgress p]. Qed.

(** When [chunkText] returns and the model answers for every chunk,
    [processDocument] returns one record per text chunk, in order: each has
    the content and the offsets of its text chunk, the vector the model
    gave for that content, the identifier of the document, and the next
    value of [generateUUID] as its own identifier.  The records are the
    same with any callback that returns, and without one. *)
Theorem processDocument_builds_records (fuel : nat) (document : Document.t)
    (onProgress : option (Q -> M unit)) (textChunks : list Chunker.TextChunk)
    (vectors : list (list float)) (w : World) :
  returns_quietly onProgress ->
  Chunker.chunkText fuel (Document.content document) = Some textChunks ->
  embedded generateEmbedding (map Chunker.content textChunks) vectors ->
  exists run w',
    processDocument generateEmbedding generateUUID fuel document onProgress = Some run
    /\ run w
       = (ret (chunk_records generateUUID (Document.id document) (drawn w)
                 textChunks vectors), w')
    /\ drawn w' = (drawn w + length textChunks)%nat.
Proof.
  intros Hq Hc He. unfold processDocument. rewrite Hc. eexists.
  assert (Hcall : exists events,
    call_optional onProgress 0%Q w = (ret tt, mkWorld (trace w ++ events) (drawn w))).
  { unfold call_optional. destruct onProgress as [f|]; [apply Hq|].
    exists []. cbn. rewrite app_nil_r. by destruct w. }
  destruct Hcall as [events Hcall].
  edestruct (embed_loop_records (Document.id document) onProgress (length textChunks)
               textChunks vectors 0 [] (mkWorld (trace w ++ events) (drawn w)) Hq He)
    as (w' & Hrun & Hdrawn).
  exists w'. split; [reflexivity|]. split; [|exact Hdrawn].
  unfold mbind at 1. rewrite Hcall. exact Hrun.
Qed.

(** The loop of [processDocument] when the model throws on a chunk after it
    answered for the chunks before. *)
Lemma embed_loop_fails_at documentId total (done : list Chunker.TextChunk) :
  forall tc rest vectors e i chunks w,
  embedded generateEmbedding (map Chunker.content done) vectors ->
  generateEmbedding (Chunker.content tc) = throw e ->
  exists w',
    embed_loop generateEmbedding generateUUID documentId (Some record_progress)
      total i (done ++ tc :: rest) chunks w = (throw e, w')
    /\ trace w'
       = trace w ++ flat_map (chunk_events total) (indexed_from i done)
           ++ [Embed (Chunker.content tc)]
    /\ drawn w' = (drawn w + length done)%nat.
Proof.
  induction done as [|d done IH]; intros tc rest vectors e i chunks w Hv He;
    inversion Hv as [|? v ? vs Hd Hrest]; subst.
  - eexists. split; [apply embed_loop_stops_on_failure; exact He|].
    cbn. split; [reflexivity|lia].
  - cbn [app embed_loop]. unfold mbind at 1, embed at 1. rewrite Hd. cbn [ret].
    unfold mbind at 1, freshUUID at 1. cbn [ret trace drawn].
    unfold mbind at 1, call_optional, record_progress, emit. cbn [ret trace drawn].
    edestruct (IH tc rest vs e (S i)) as (w' & Hrun & Htr & Hdrawn);
      [exact Hrest|exact He|].
    exists w'. split; [exact Hrun|]. split.
    + rewrite Htr. cbn [trace]. change (indexed_from i (d :: done))
        with ((i, d) :: indexed_from (S i) done).
      cbn [flat_map chunk_events fst snd]. rewrite <- !app_assoc. reflexivity.
    + rewrite Hdrawn. cbn. lia.
Qed.

(** When the model throws on a chunk, [processDocument] throws the same
    error and returns no record.  The chunks before were embedded and
    reported in order, one identifier was drawn for each of them, and after
    the call that failed neither the model nor the callback is called
    again. *)
Theorem processDocument_stops_at_first_failure (fuel : nat) (document : Document.t)
    (done : list Chunker.TextChunk) (tc : Chunker.TextChunk)
    (rest : list Chunker.TextChunk) (vectors : list (list float)) (e : JsError)
    (w : World) :
  Chunker.chunkText fuel (Document.content document) = Some (done ++ tc :: rest) ->
  embedded generateEmbedding (map Chunker.content done) vectors ->
  generateEmbedding (Chunker.content tc) = throw e ->
  exists run w',
    processDocument generateEmbedding generateUUID fuel document (Some record_progress)
    = Some run
    /\ run w = (throw e, w')
    /\ trace w'
       = trace w ++ OnProgress 0
           :: flat_map (chunk_events (length (done ++ tc :: rest))) (indexed_from 0 done)
           ++ [Embed (Chunker.content tc)]
    /\ drawn w' = (drawn w + length done)%nat.
Proof.
  intros Hc Hv He. unfold processDocument. rewrite Hc. eexists.
  destruct (embed_loop_fails_at (Document.id document) (length (done ++ tc :: rest))
              done tc rest vectors e 0 []
              (mkWorld (trace w ++ [OnProgress 0]) (drawn w)) Hv He)
    as (w' & Hrun & Htr & Hdrawn).
  exists w'. split; [reflexivity|]. split; [|split; [|exact Hdrawn]].
  - unfold mbind at 1, call_optional, record_progress, emit. cbn [ret]. exact Hrun.
  - rewrite Htr. cbn [trace]. rewrite <- app_assoc. reflexivity.
Qed.

(** The records a run of the loop returns belong to the document. *)
Lemma embed_loop_owned documentId onProgress total (rest : list Chunker.TextChunk) :
  forall i chunks w out w',
  embed_loop generateEmbedding generateUUID documentId onProgress total i rest chunks w
  = (ret out, w') ->
  Forall (fun c => DocumentChunk.documentId c = documentId) chunks ->
  Forall (fun c => DocumentChunk.documentId c = documentId) out.
Proof.
  induction rest as [|tc rest IH]; intros i chunks w out w' Hrun Hown.
  - cbn in Hrun. by injection Hrun as <- _.
  - cbn [embed_loop] in Hrun. unfold mbind at 1, embed at 1 in Hrun.
    destruct (generateEmbedding (Chunker.content tc)) as [e|v]; [discriminate|].
    unfold mbind at 1, freshUUID at 1 in Hrun. cbn [ret] in Hrun.
    unfold mbind at 1 in Hrun.
    destruct (call_optional onProgress (fraction i total) _) as [[e|[]] w1];
      [discriminate|].
    eapply IH; [exact Hrun|]. apply Forall_app. split; [exact Hown|].
    by constructor.
Qed.

Lemma processDocument_owned fuel document onProgress run w out w' :
  processDocument generateEmbedding generateUUID fuel document onProgress = Some run ->
  run w = (ret out, w') ->
  Forall (fun c => DocumentChunk.documentId c = Document.id document) out.
Proof.
  unfold processDocument.
  destruct (Chunker.chunkText fuel (Document.content document)) as [textChunks|];
    [|discriminate].
  intros [= <-]. unfold mbind at 1.
  destruct (call_optional onProgress 0%Q w) as [[e|[]] w0]; [discriminate|].
  intros Hrun. eapply embed_loop_owned; [exact Hrun|constructor].
Qed.

End MoreIngestFacts.

Section MoreIngestExamples.
Import Throw Ingest.

Lemma processDocument_builds_records_witness :
  exists run w',
    processDocument (constant_embedder [1; 0]%float) (fun _ => "uuid") 0 note None
    = Some run
    /\ run (mkWorld [] 0)
       = (ret (chunk_records (fun _ => "uuid") (Document.id note) 0
                 note_chunks [[1; 0]%float]), w')
    /\ drawn w' = (0 + length note_chunks)%nat.
Proof.
  apply (processDocument_builds_records (constant_embedder [1; 0]%float)
           (fun _ => "uuid") 0 note None note_chunks [[1; 0]%float] (mkWorld [] 0)).
  - exact I.
  - reflexivity.
  - repeat constructor.
Defined.

Lemma processDocument_stops_at_first_failure_witness :
  exists run w',
    processDocument (failing_embedder model_down) (fun _ => "uuid") 0 note
      (Some record_progress) = Some run
    /\ run (mkWorld [] 0) = (throw model_down, w')
    /\ trace w'
       = trace (mkWorld [] 0) ++ OnProgress 0
           :: flat_map (chunk_events (length ([] ++ [Chunker.mkTextChunk [104; 105]%N 0 2])))
                (indexed_from 0 [])
           ++ [Embed (Chunker.content (Chunker.mkTextChunk [104; 105]%N 0 2))]
    /\ drawn w' = (drawn (mkWorld [] 0) + length (@nil Chunker.TextChunk))%nat.
Proof.
  apply (processDocument_stops_at_first_failure (failing_embedder model_down)
           (fun _ => "uuid") 0 note [] (Chunker.mkTextChunk [104; 105]%N 0 2) [] []
           model_down (mkWorld [] 0)).
  - reflexivity.
  - constructor.
  - reflexivity.
Defined.

End MoreIngestExamples.

(** ** The message sent for a question *)

Section SubmitFacts.
Import Throw RagUtils RagDb RagDbOps Format Submit.

Variable generateEmbedding : JS.js_string -> result (list float).
Variable toFixed1 : float -> JS.js_string.

(** What the filtered results are when the search returns. *)
Lemma filteredResults_inv input candidates k t filtered :
  candidates <> [] ->
  filteredResults generateEmbedding input candidates k t = ret filtered ->
  exists q,
    generateEmbedding input = ret q
    /\ filtered
       = List.filter (fun r => PrimFloat.leb t (similarity r))
           (firstn k (ArraySort.sort by_similarity_desc (map (scored q) candidates))).
Proof.
  intros Hne. unfold filteredResults, searchSimilarChunks.
  destruct candidates as [|c candidates]; [done|]. cbn [length Nat.eqb].
  destruct (generateEmbedding input) as [e|q]; [discriminate|]. cbn [bind ret].
  destruct (map_throw (score q) (c :: candidates)) as [e|sims] eqn:Hs; [discriminate|].
  apply map_throw_score_inv in Hs as ->. cbn [bind ret]. intros [= <-].
  by exists q.
Qed.

(** The search throws when a candidate has an embedding of another length
    than the query's. *)
Lemma map_throw_score_throws q c candidates :
  In c candidates ->
  length (DocumentChunk.embedding c) <> length q ->
  exists e, map_throw (score q) candidates = throw e.
Proof.
  intros Hin Hlen. induction candidates as [|d candidates IH]; [done|].
  cbn [map_throw]. destruct (score q d) as [e|s] eqn:Hd; [by exists e|].
  destruct Hin as [->|Hin].
  - unfold score, cosineSimilarity in Hd.
    destruct (Nat.eqb_spec (length q) (length (DocumentChunk.embedding c)));
      [congruence|discriminate].
  - destruct (IH Hin) as [e ->]. by exists e.
Qed.

Lemma getAllChunks_stored db c :
  In c (getAllChunks db) <-> exists key, chunks db !! key = Some c.
Proof.
  unfold getAllChunks. rewrite <- list_elem_of_In, list_elem_of_fmap. split.
  - intros ([key c'] & -> & Hin). exists key. by apply elem_of_map_to_list.
  - intros [key Hc]. exists (key, c). split; [done|]. by apply elem_of_map_to_list.
Qed.

(** The message built for a question ends with the question as it was
    typed.  What precedes it is nothing, or the context block of at least
    one and at most [ragMaxResults] results; each of them is a stored chunk
    with the similarity of its embedding to the embedding of the question,
    and that similarity reaches the threshold. *)
Theorem augmentedInput_prepends_retrieved_context (isRAGEnabled : bool)
    (db : RAGDatabase) (input : JS.js_string) (ragMaxResults : nat)
    (ragSimilarityThreshold : float) :
  exists context,
    augmentedInput generateEmbedding toFixed1 isRAGEnabled db input ragMaxResults
      ragSimilarityThreshold = context ++ input
    /\ (context = []
        \/ exists q filtered,
             isRAGEnabled = true
             /\ generateEmbedding input = ret q
             /\ context = formatRetrievedContext toFixed1 filtered
             /\ (1 <= length filtered <= ragMaxResults)%nat
             /\ Forall (fun r =>
                  (exists key, chunks db !! key = Some (chunk r))
                  /\ similarity r = cosine q (DocumentChunk.embedding (chunk r))
                  /\ PrimFloat.leb ragSimilarityThreshold (similarity r) = true)
                  filtered).
Proof.
  unfold augmentedInput. destruct isRAGEnabled; [|by exists []; split; [|left]].
  destruct (Nat.eqb_spec (length (getAllChunks db)) 0) as [|Hn];
    [by exists []; split; [|left]|].
  destruct (filteredResults _ _ _ _ _) as [e|filtered] eqn:Hf;
    [by exists []; split; [|left]|].
  destruct (Nat.ltb_spec 0 (length filtered)) as [Hpos|];
    [|by exists []; split; [|left]].
  exists (formatRetrievedContext toFixed1 filtered). split; [reflexivity|]. right.
  apply filteredResults_inv in Hf as (q & Hq & ->);
    [|by destruct (getAllChunks db)].
  exists q. eexists. split; [reflexivity|]. split; [exact Hq|]. split; [reflexivity|].
  split; [split; [exact Hpos|]|].
  - etransitivity; [apply List.filter_length_le|]. apply firstn_le_length.
  - apply List.Forall_forall. intros r [Hin Hleb]%filter_In.
    apply In_firstn_in in Hin.
    apply (Permutation_in _ (sort_Permutation _ _)) in Hin.
    apply in_map_iff in Hin as (c & <- & Hc). cbn.
    split; [by apply getAllChunks_stored|]. split; [reflexivity|exact Hleb].
Qed.

(** A failure of the search never stops a question: when the model throws
    on the question, or a single stored chunk has an embedding of another
    length than the embedding of the question, the message is the question
    alone, whatever else the store holds. *)
Theorem augmentedInput_survives_search_errors (isRAGEnabled : bool)
    (db : RAGDatabase) (input : JS.js_string) (ragMaxResults : nat)
    (ragSimilarityThreshold : float) :
  (forall e,
     generateEmbedding input = throw e ->
     augmentedInput generateEmbedding toFixed1 isRAGEnabled db input ragMaxResults
       ragSimilarityThreshold = input)
  /\ (forall q key c,
        generateEmbedding input = ret q ->
        chunks db !! key = Some c ->
        length (DocumentChunk.embedding c) <> length q ->
        augmentedInput generateEmbedding toFixed1 isRAGEnabled db input ragMaxResults
          ragSimilarityThreshold = input).
Proof.
  unfold augmentedInput, filteredResults, searchSimilarChunks. split.
  - intros e He. destruct isRAGEnabled; [|reflexivity].
    destruct (Nat.eqb (length (getAllChunks db)) 0); [reflexivity|].
    by rewrite He.
  - intros q key c Hq Hc Hlen. destruct isRAGEnabled; [|reflexivity].
    destruct (Nat.eqb (length (getAllChunks db)) 0); [reflexivity|].
    rewrite Hq. cbn [bind ret].
    destruct (map_throw_score_throws q c (getAllChunks db)) as [e ->];
      [apply getAllChunks_stored; by exists key|exact Hlen|].
    reflexivity.
Qed.

End SubmitFacts.

(** ** The document manager *)

Section ManagerFacts.
Import JS Throw Ingest RagDb RagDbOps Manager.

Variable generateEmbedding : js_string -> result (list float).
Variable generateUUID : nat -> string.

Lemma trimStart_blank s : blank s -> trimStart s = [].
Proof.
  induction 1 as [|c s Hc _ IH]; cbn [trimStart]; [reflexivity|]. by rewrite Hc.
Qed.

Lemma trim_blank s : blank s -> trim s = [].
Proof. intros H. unfold trim. by rewrite trimStart_blank. Qed.

Lemma trim_nil_blank s : trim s = [] -> blank s.
Proof.
  unfold trim, trimEnd. intros H.
  destruct (trimStart_split s) as (ws & Hs & Hws).
  destruct (trimStart_split (rev (trimStart s))) as (ws' & Hs' & Hws').
  assert (Hnil : trimStart (rev (trimStart s)) = []).
  { apply (f_equal (@rev N)) in H. by rewrite rev_involutive in H. }
  rewrite Hnil, app_nil_r in Hs'. rewrite Hs. apply Forall_app. split; [exact Hws|].
  rewrite <- (rev_involutive (trimStart s)), Hs'. unfold blank.
  by apply Forall_rev.
Qed.

Lemma blank_app s1 s2 : blank (s1 ++ s2) <-> blank s1 /\ blank s2.
Proof. apply Forall_app. Qed.

Lemma blank_join items : blank (Format.join [SPACE] items) <-> Forall blank items.
Proof.
  induction items as [|item items IH]; [by split; constructor|].
  destruct items as [|item' items].
  - cbn. split; [by repeat constructor|]. by intros [H _]%Forall_cons.
  - change (Format.join [SPACE] (item :: item' :: items))
      with (item ++ [SPACE] ++ Format.join [SPACE] (item' :: items)).
    rewrite !blank_app, IH. split.
    + intros (H1 & _ & H2). by constructor.
    + intros [H1 H2]%Forall_cons. split; [exact H1|].
      split; [by repeat constructor|exact H2].
Qed.

Lemma readPDFAsText_from fullText pages :
  fold_left (fun fullText items => fullText ++ (Format.join [SPACE] items ++ Format.LF))
    pages fullText
  = fullText ++ readPDFAsText pages.
Proof.
  unfold readPDFAsText. revert fullText.
  induction pages as [|items pages IH]; intros fullText; cbn [fold_left].
  - by rewrite app_nil_r.
  - rewrite IH, (IH ([] ++ _)). cbn [app]. by rewrite <- !app_assoc.
Qed.

Lemma readPDFAsText_blank pages :
  blank (readPDFAsText pages) <-> Forall (Forall blank) pages.
Proof.
  induction pages as [|items pages IH].
  - by split; constructor.
  - change (readPDFAsText (items :: pages))
      with (fold_left (fun fullText items =>
                         fullText ++ (Format.join [SPACE] items ++ Format.LF))
              pages ([] ++ (Format.join [SPACE] items ++ Format.LF))).
    rewrite readPDFAsText_from. cbn [app]. rewrite !blank_app, IH, blank_join. split.
    + intros [[H1 _] H2]. by constructor.
    + intros [H1 H2]%Forall_cons. split; [|exact H2]. split; [exact H1|].
      by repeat constructor.
Qed.

(** The text [readPDFAsText] resolves is blank exactly when every text item
    of every page is: then it is one line feed per page, with a space
    between the items.  It is empty only for a document without a page. *)
Theorem readPDFAsText_blank_iff (pages : list (list js_string)) :
  (blank (readPDFAsText pages) <-> Forall (Forall blank) pages)
  /\ (readPDFAsText pages = [] <-> pages = []).
Proof.
  split; [apply readPDFAsText_blank|]. split; [|by intros ->].
  destruct pages as [|items pages]; [done|].
  change (readPDFAsText (items :: pages))
    with (fold_left (fun fullText items =>
                       fullText ++ (Format.join [SPACE] items ++ Format.LF))
            pages ([] ++ (Format.join [SPACE] items ++ Format.LF))).
  rewrite readPDFAsText_from. cbn [app].
  intros H. apply app_eq_nil in H as [H _]. apply app_eq_nil in H as [_ H].
  discriminate.
Qed.

(** A file whose text is blank is turned down by [processFile] with the
    error "File appears to be empty or unreadable": the model is not
    called, no identifier is drawn and the store is left as it was.  So is
    a PDF file whose pages hold no text item that is not blank. *)
Theorem processFile_rejects_blank_files (fuel : nat) (file : File)
    (uploadDate : string) (app : App) :
  (forall content,
     text file = ret content -> blank content ->
     processFile generateEmbedding generateUUID fuel file uploadDate app
     = Some (Failed (Thrown empty_file), app))
  /\ (forall pages,
        text file = ret (readPDFAsText pages) -> Forall (Forall blank) pages ->
        processFile generateEmbedding generateUUID fuel file uploadDate app
        = Some (Failed (Thrown empty_file), app)).
Proof.
  assert (Hblank : forall content,
    text file = ret content -> blank content ->
    processFile generateEmbedding generateUUID fuel file uploadDate app
    = Some (Failed (Thrown empty_file), app)).
  { intros content Ht Hb. unfold processFile. rewrite Ht. cbn [ret].
    by rewrite trim_blank. }
  split; [exact Hblank|]. intros pages Ht Hb. apply (Hblank _ Ht).
  by apply readPDFAsText_blank.
Qed.

(** [processDocument] on a document of the short path. *)
Lemma processDocument_short fuel (document : Document.t) (w : World) :
  str_length (Document.content document) <= Chunker.CHUNK_SIZE ->
  exists run,
    processDocument generateEmbedding generateUUID fuel document (Some record_progress)
    = Some run
    /\ run w
       = match generateEmbedding (Document.content document) with
         | inl e =>
             (throw e,
              mkWorld (trace w ++ [OnProgress 0; Embed (Document.content document)])
                (drawn w))
         | inr v =>
             (ret [chunk_record (Document.id document) (generateUUID (drawn w))
                     (Chunker.mkTextChunk (Document.content document) 0
                        (str_length (Document.content document))) v],
              mkWorld (trace w ++ [OnProgress 0; Embed (Document.content document);
                                   OnProgress (fraction 0 1)])
                (S (drawn w)))
         end.
Proof.
  intros Hs. unfold processDocument.
  rewrite (proj2 (chunkText_returns_iff _ fuel _) (conj Hs eq_refl)).
  eexists. split; [reflexivity|].
  unfold mbind at 1, call_optional, record_progress, emit. cbn [ret length embed_loop].
  unfold mbind at 1, embed at 1. cbn [Chunker.content].
  destruct (generateEmbedding (Document.content document)) as [e|v].
  - cbn [trace drawn]. by rewrite <- app_assoc.
  - cbn. unfold chunk_record. cbn. by rewrite <- !app_assoc.
Qed.

(** [processFile] ends with "Successfully processed" exactly on a file
    whose text is not blank and no longer than one chunk (512), when the
    model embeds that text and the two identifiers drawn are new to the
    store.  The file is then stored as one document with [chunkCount] 1 and
    one chunk, which holds the whole text, untrimmed; the callback was
    called with 0 and with 1. *)
Theorem processFile_processes_exactly_short_files (fuel : nat) (file : File)
    (uploadDate : string) (app : App) (n : nat) (app' : App) :
  processFile generateEmbedding generateUUID fuel file uploadDate app
  = Some (Processed n, app')
  <-> exists content v,
        text file = ret content
        /\ trim content <> []
        /\ str_length content <= Chunker.CHUNK_SIZE
        /\ generateEmbedding content = ret v
        /\ documents (db app) !! generateUUID (drawn (world app)) = None
        /\ chunks (db app) !! generateUUID (S (drawn (world app))) = None
        /\ n = 1%nat
        /\ app' = uploaded generateUUID file content uploadDate v app.
Proof.
  unfold processFile. split.
  - destruct (text file) as [e|content] eqn:Ht; [discriminate|].
    destruct (Nat.eqb_spec (length (trim content)) 0) as [|Hne]; [discriminate|].
    destruct (Z.leb_spec (str_length content) Chunker.CHUNK_SIZE) as [Hs|Hl].
    + edestruct (processDocument_short fuel) as (run & -> & ->); [exact Hs|].
      cbn [Document.content Document.id drawn trace].
      destruct (generateEmbedding content) as [e|v] eqn:Hv; [discriminate|].
      cbn [ret length]. unfold addDocument, with_chunkCount.
      cbn [Document.id Document.name Document.type Document.size Document.content
           Document.uploadDate].
      destruct (documents (db app) !! generateUUID (drawn (world app))) eqn:Hd;
        [discriminate|].
      unfold addDocumentChunks. cbn [chunks documents add_chunks].
      unfold chunk_record at 1. cbn [DocumentChunk.id].
      destruct (chunks (db app) !! generateUUID (S (drawn (world app)))) eqn:Hc;
        [discriminate|].
      intros [= <- <-]. exists content, v.
      repeat (split; [done|]).
      split; [by destruct (trim content)|]. repeat (split; [done|]). reflexivity.
    + unfold processDocument. cbn [Document.content].
      rewrite chunkText_long_runs_on by exact Hl. discriminate.
  - intros (content & v & Ht & Hne & Hs & Hv & Hd & Hc & -> & ->). rewrite Ht. cbn [ret].
    destruct (Nat.eqb_spec (length (trim content)) 0) as [Hz|_];
      [by destruct (trim content)|].
    edestruct (processDocument_short fuel) as (run & -> & ->); [exact Hs|].
    cbn [Document.content Document.id drawn trace]. rewrite Hv.
    cbn [ret length]. unfold addDocument, with_chunkCount.
    cbn [Document.id Document.name Document.type Document.size Document.content
         Document.uploadDate]. rewrite Hd.
    unfold addDocumentChunks. cbn [chunks documents add_chunks].
    unfold chunk_record at 1. cbn [DocumentChunk.id]. rewrite Hc. reflexivity.
Qed.

(** A file whose text is longer than one chunk (512) and not blank is
    never processed: [processFile] gets no further than [chunkText], and
    neither of its messages is shown, however long one waits. *)
Theorem processFile_never_ends_on_long_files (fuel : nat) (file : File)
    (uploadDate : string) (app : App) (content : js_string) :
  text file = ret content ->
  ~ blank content ->
  Chunker.CHUNK_SIZE < str_length content ->
  processFile generateEmbedding generateUUID fuel file uploadDate app = None.
Proof.
  intros Ht Hb Hl. unfold processFile. rewrite Ht. cbn [ret].
  destruct (Nat.eqb_spec (length (trim content)) 0) as [Hz|_].
  - exfalso. apply Hb, trim_nil_blank. by destruct (trim content).
  - unfold processDocument. cbn [Document.content].
    by rewrite chunkText_long_runs_on.
Qed.

(** Whatever way [processFile] ends, no chunk is left in the store without
    its document. *)
Theorem processFile_keeps_chunks_owned (fuel : nat) (file : File)
    (uploadDate : string) (app : App) (outcome : Outcome) (app' : App) :
  no_orphans (db app) ->
  processFile generateEmbedding generateUUID fuel file uploadDate app
  = Some (outcome, app') ->
  no_orphans (db app').
Proof.
  intros Hdb. unfold processFile.
  destruct (text file) as [e|content]; [by intros [= <- <-]|].
  destruct (Nat.eqb (length (trim content)) 0); [by intros [= <- <-]|].
  destruct (processDocument _ _ _ _ _) as [run|] eqn:Hp; [|discriminate].
  destruct (run _) as [[e|batch] w2] eqn:Hrun; [by intros [= <- <-]|].
  destruct (addDocument _ (db app)) as [e|db1] eqn:Ha; [by intros [= <- <-]|].
  pose proof (addDocument_no_orphans _ _ _ Hdb Ha) as Hdb1.
  destruct (addDocumentChunks batch db1) as [e|db2] eqn:Hb; intros [= <- <-]; [done|].
  cbn [db]. eapply addDocumentChunks_no_orphans; [exact Hdb1| |exact Hb].
  pose proof (processDocument_owned _ _ _ _ _ _ _ _ _ Hp Hrun) as Hown.
  eapply List.Forall_impl; [|exact Hown]. cbn. intros c ->.
  unfold addDocument in Ha. cbn in Ha.
  destruct (documents (db app) !! _); [discriminate|]. injection Ha as <-.
  unfold getDocumentById. cbn. rewrite lookup_insert_eq. by eexists.
Qed.

(** When [processFile] ends with "Failed to process", no chunk was stored.
    After an error thrown by the reader, the model or [processFile] itself
    the store is what it was.  After a rejection by the store, the document
    store is what it was, or it has gained the record of the file: the
    record was stored first and stays when its chunks are rejected. *)
Theorem processFile_failure_stores_no_chunk (fuel : nat) (file : File)
    (uploadDate : string) (app : App) (error : Caught) (app' : App) :
  processFile generateEmbedding generateUUID fuel file uploadDate app
  = Some (Failed error, app') ->
  chunks (db app') = chunks (db app)
  /\ match error with
     | Thrown _ => db app' = db app
     | Rejected _ =>
         documents (db app') = documents (db app)
         \/ exists document,
              Document.id document = generateUUID (drawn (world app))
              /\ documents (db app) !! Document.id document = None
              /\ documents (db app')
                 = <[Document.id document := document]> (documents (db app))
     end.
Proof.
  unfold processFile.
  destruct (text file) as [e|content]; [by intros [= <- <-]|].
  destruct (Nat.eqb (length (trim content)) 0); [by intros [= <- <-]|].
  destruct (processDocument _ _ _ _ _) as [run|]; [|discriminate].
  destruct (run _) as [[e|batch] w2]; [by intros [= <- <-]|].
  unfold addDocument. cbn [with_chunkCount Document.id].
  destruct (documents (db app) !! generateUUID (drawn (world app))) eqn:Hd;
    [intros [= <- <-]; split; [done|by left]|].
  unfold addDocumentChunks. cbn [chunks documents].
  destruct (add_chunks batch (chunks (db app))) as [e|view]; [|discriminate].
  intros [= <- <-]. split; [done|]. right.
  eexists (Document.mk _ _ _ _ _ _ _). cbn. split; [reflexivity|].
  split; [exact Hd|reflexivity].
Qed.

End ManagerFacts.

Section ManagerExamples.
Import JS Throw Ingest RagDb RagDbOps Manager.

Lemma session_no_orphans : no_orphans (db session).
Proof. exact kept_db_no_orphans. Qed.

Lemma processFile_never_ends_on_long_files_witness :
  processFile (constant_embedder [1%float]) numbered 7 long_file "2025-01-03" session
  = None.
Proof.
  apply (processFile_never_ends_on_long_files (constant_embedder [1%float]) numbered 7
           long_file "2025-01-03" session long_text).
  - reflexivity.
  - intros H. by inversion H.
  - vm_compute. reflexivity.
Defined.

Lemma processFile_keeps_chunks_owned_witness :
  no_orphans
    (db (uploaded numbered small_file [104; 105]%N "2025-01-03" [1%float] session)).
Proof.
  apply (processFile_keeps_chunks_owned (constant_embedder [1%float]) numbered 0
           small_file "2025-01-03" session (Processed 1)
           (uploaded numbered small_file [104; 105]%N "2025-01-03" [1%float] session)).
  - exact session_no_orphans.
  - vm_compute. reflexivity.
Defined.

Lemma processFile_failure_stores_no_chunk_witness :
  chunks (db half_stored) = chunks (db session)
  /\ (documents (db half_stored) = documents (db session)
      \/ exists document,
           Document.id document = "c0"
           /\ documents (db session) !! Document.id document = None
           /\ documents (db half_stored)
              = <[Document.id document := document]> (documents (db session))).
Proof.
  apply (processFile_failure_stores_no_chunk (constant_embedder [1%float])
           (fun _ => "c0") 0 small_file "2025-01-03" session
           (Rejected ConstraintError) half_stored).
  vm_compute. reflexivity.
Defined.

End ManagerExamples.

(** ** Where the loop of the chunker settles *)

Section StallFacts.
Import JS Chunker.

Lemma window_end_progress text start :
  start + CHUNK_SIZE < str_length text -> start + HALF_CHUNK < window_end text start.
Proof.
  intros H. unfold window_end, CHUNK_SIZE, HALF_CHUNK in *.
  repeat match goal with |- context [?a <? ?b] => destruct (Z.ltb_spec a b) end; lia.
Qed.

Lemma window_end_last text start :
  str_length text <= start + CHUNK_SIZE -> window_end text start = str_length text.
Proof.
  intros H. unfold window_end, CHUNK_SIZE in *.
  destruct (Z.ltb_spec (Z.min (start + 512) (str_length text)) (str_length text)); lia.
Qed.

(** After [n] passes [start] has settled, or it is at least [207 * n]: a
    window that is not the last one ends beyond its middle. *)
Lemma loop_state_progress text n :
  CHUNK_SIZE < str_length text ->
  fst (loop_state n text) = str_length text - CHUNK_OVERLAP
  \/ 207 * Z.of_nat n <= fst (loop_state n text).
Proof.
  intros Hlong. induction n as [|n IH]; [right; cbn; lia|].
  pose proof (loop_state_invariant text n Hlong) as (Hst & _).
  cbn [loop_state]. destruct (loop_state n text) as [start chunks].
  cbn [fst snd loop_body] in *.
  destruct (Z.lt_ge_cases (start + CHUNK_SIZE) (str_length text)) as [Hin|Hend].
  - right. pose proof (window_end_progress text start Hin).
    destruct IH as [IH|IH]; unfold CHUNK_SIZE, CHUNK_OVERLAP, HALF_CHUNK in *; lia.
  - left. by rewrite window_end_last.
Qed.

Lemma push_tail_chunk text chunks :
  CHUNK_SIZE < str_length text ->
  push_chunk text (str_length text - CHUNK_OVERLAP) (str_length text) chunks
  = if decide (blank (slice text (str_length text - CHUNK_OVERLAP) (str_length text)))
    then chunks else chunks ++ [tail_chunk text].
Proof.
  intros Hlong. unfold push_chunk, tail_chunk.
  set (tail := slice text (str_length text - CHUNK_OVERLAP) (str_length text)).
  destruct (decide (blank tail)) as [Hb|Hb].
  - by rewrite trim_blank.
  - destruct (Z.ltb_spec 0 (str_length (trim tail))) as [|Hz]; [reflexivity|].
    exfalso. apply Hb, trim_nil_blank. unfold str_length in Hz.
    destruct (trim tail); [reflexivity|cbn in Hz; lia].
Qed.

Lemma loop_state_settled text n : forall k,
  CHUNK_SIZE < str_length text ->
  fst (loop_state n text) = str_length text - CHUNK_OVERLAP ->
  loop_state (k + n) text
  = (str_length text - CHUNK_OVERLAP,
     if decide (blank (slice text (str_length text - CHUNK_OVERLAP) (str_length text)))
     then snd (loop_state n text)
     else snd (loop_state n text) ++ repeat (tail_chunk text) k).
Proof.
  intros k Hlong Hn. induction k as [|k IH].
  - cbn [Nat.add repeat]. rewrite app_nil_r. destruct (decide _); by rewrite <- Hn, <- surjective_pairing.
  - cbn [Nat.add loop_state]. rewrite IH. cbn [loop_body].
    rewrite window_end_last by (unfold CHUNK_SIZE, CHUNK_OVERLAP; lia).
    f_equal. rewrite push_tail_chunk by exact Hlong.
    destruct (decide _); [reflexivity|].
    rewrite <- app_assoc. f_equal. cbn [repeat]. symmetry. apply repeat_cons.
Qed.

(** On a text longer than [CHUNK_SIZE] the loop settles: after [n] passes,
    with [207 * n] above the length of the text, [start] is [CHUNK_OVERLAP]
    before the end of the text and stays there, and every pass after that
    pushes one more copy of the chunk of the last [CHUNK_OVERLAP] code
    units, unless these are blank.  So the list of chunks grows without
    bound while the loop runs on. *)
Theorem chunkText_loop_settles_and_repeats (text : js_string) (n k : nat) :
  CHUNK_SIZE < str_length text ->
  str_length text < 207 * Z.of_nat n ->
  fst (loop_state (k + n) text) = str_length text - CHUNK_OVERLAP
  /\ snd (loop_state (k + n) text)
     = if decide (blank (slice text (str_length text - CHUNK_OVERLAP) (str_length text)))
       then snd (loop_state n text)
       else snd (loop_state n text) ++ repeat (tail_chunk text) k.
Proof.
  intros Hlong Hn.
  assert (Hsettled : fst (loop_state n text) = str_length text - CHUNK_OVERLAP).
  { destruct (loop_state_progress text n Hlong) as [H|H]; [exact H|].
    pose proof (loop_state_invariant text n Hlong) as (Hst & _).
    unfold CHUNK_OVERLAP in *. lia. }
  by rewrite (loop_state_settled text n k Hlong Hsettled).
Qed.

Lemma chunkText_loop_settles_and_repeats_witness :
  fst (loop_state (2 + 3) long_text) = str_length long_text - CHUNK_OVERLAP
  /\ snd (loop_state (2 + 3) long_text)
     = if decide (blank (slice long_text (str_length long_text - CHUNK_OVERLAP)
                           (str_length long_text)))
       then snd (loop_state 3 long_text)
       else snd (loop_state 3 long_text) ++ repeat (tail_chunk long_text) 2.
Proof.
  apply (chunkText_loop_settles_and_repeats long_text 3 2); vm_compute; reflexivity.
Defined.

End StallFacts.

(** ** A batch of files *)

Section BatchFacts.
Import JS Throw Ingest RagDb RagDbOps Manager.

Variable generateEmbedding : js_string -> result (list float).
Variable generateUUID : nat -> string.

Lemma process_files_blocked fuel (file : File) content now : forall files k app,
  In file files ->
  text file = ret content ->
  ~ blank content ->
  Chunker.CHUNK_SIZE < str_length content ->
  process_files generateEmbedding generateUUID fuel files now k app = None.
Proof.
  induction files as [|f files IH]; intros k app Hin Ht Hb Hl; [done|].
  cbn [process_files].
  destruct (processFile generateEmbedding generateUUID fuel f (now k) app)
    as [[outcome app1]|] eqn:Hf; [|reflexivity].
  destruct Hin as [->|Hin].
  - unfold processFile in Hf. rewrite Ht in Hf. cbn [ret] in Hf.
    destruct (Nat.eqb_spec (length (trim content)) 0) as [Hz|_].
    + exfalso. apply Hb, trim_nil_blank. by destruct (trim content).
    + unfold processDocument in Hf. cbn [Document.content] in Hf.
      by rewrite chunkText_long_runs_on in Hf.
  - by rewrite (IH (S k) app1 Hin Ht Hb Hl).
Qed.

(** One file that is longer than a chunk, and not blank, holds up the whole
    batch dropped with it: [onDrop] never gets to the files after it or to
    the reload of the document list, wherever the file stands in the batch
    and whatever the other files are. *)
Theorem onDrop_blocked_by_a_long_file (fuel : nat) (acceptedFiles : list File)
    (now : nat -> string) (app : App) (file : File) (content : js_string) :
  In file acceptedFiles ->
  text file = ret content ->
  ~ blank content ->
  Chunker.CHUNK_SIZE < str_length content ->
  onDrop generateEmbedding generateUUID fuel acceptedFiles now app = None.
Proof.
  intros Hin Ht Hb Hl. unfold onDrop.
  by rewrite (process_files_blocked fuel file content now acceptedFiles 0 app).
Qed.

End BatchFacts.

Section BatchExamples.
Import JS Throw Ingest RagDb RagDbOps Manager.

Lemma onDrop_blocked_by_a_long_file_witness :
  onDrop (constant_embedder [1%float]) numbered 7 [small_file; long_file; small_file]
    example_clock session = None.
Proof.
  apply (onDrop_blocked_by_a_long_file (constant_embedder [1%float]) numbered 7
           [small_file; long_file; small_file] example_clock session long_file long_text).
  - right. by left.
  - reflexivity.
  - intros H. by inversion H.
  - vm_compute. reflexivity.
Defined.

End BatchExamples.

(** ** What is shown of the message sent *)

Section DisplayFacts.
Import JS Throw RagUtils RagDb RagDbOps Format Submit Display.

Lemma starts_with_app pattern s : starts_with pattern (pattern ++ s) = true.
Proof.
  induction pattern as [|p pattern IH]; cbn; [reflexivity|].
  by rewrite N.eqb_refl.
Qed.

Lemma starts_with_nil pattern : pattern <> [] -> starts_with pattern [] = false.
Proof. by destruct pattern. Qed.

(** A match does not reach across a code unit the pattern does not hold. *)
Lemma starts_with_app_sep pattern c : forall a b,
  ~ In c pattern ->
  starts_with pattern (a ++ c :: b) = true -> starts_with pattern a = true.
Proof.
  induction pattern as [|p pattern IH]; intros a b Hc; [reflexivity|].
  destruct a as [|x a]; cbn.
  - intros [Hp _]%andb_prop. apply N.eqb_eq in Hp. exfalso. apply Hc. by left.
  - intros [Hp H]%andb_prop. rewrite Hp. cbn. eapply IH; [|exact H].
    intros Hin. apply Hc. by right.
Qed.

Lemma occurs_nil pattern : pattern <> [] -> occurs pattern [] = false.
Proof. by destruct pattern. Qed.

Lemma occurs_skipn pattern : forall s i,
  occurs pattern s = false -> starts_with pattern (skipn i s) = false.
Proof.
  induction s as [|c s IH]; intros i H.
  - rewrite skipn_nil. cbn in H. by apply orb_false_elim in H as [H _].
  - cbn in H. apply orb_false_elim in H as [H1 H2].
    destruct i as [|i]; [by rewrite skipn_O|]. rewrite skipn_cons. by apply IH.
Qed.

Lemma occurs_app_sep pattern c a b :
  ~ In c pattern ->
  occurs pattern a = false -> occurs pattern b = false ->
  occurs pattern (a ++ c :: b) = false.
Proof.
  intros Hc Ha Hb. induction a as [|x a IH].
  - cbn [app occurs]. rewrite Hb, orb_false_r.
    destruct pattern as [|p pattern]; [discriminate|]. cbn.
    destruct (N.eqb_spec p c) as [->|]; [|reflexivity]. exfalso. apply Hc. by left.
  - cbn [occurs] in Ha. apply orb_false_elim in Ha as [Hs Ha].
    cbn [app occurs]. rewrite (IH Ha), orb_false_r.
    destruct (starts_with pattern (x :: a ++ c :: b)) eqn:H; [|reflexivity].
    apply (starts_with_app_sep pattern c (x :: a) b Hc) in H. congruence.
Qed.

Lemma occurs_cons pattern c s :
  occurs pattern (c :: s) = starts_with pattern (c :: s) || occurs pattern s.
Proof. reflexivity. Qed.

(** A text without the first code unit of a pattern is without the pattern. *)
Lemma occurs_no_head p pattern s : ~ In p s -> occurs (p :: pattern) s = false.
Proof.
  induction s as [|c s IH]; intros Hp; [reflexivity|]. cbn.
  rewrite IH by (intros H; apply Hp; by right). rewrite orb_false_r.
  destruct (N.eqb_spec p c) as [->|]; [|reflexivity]. exfalso. apply Hp. by left.
Qed.

(** No match starts in a text without the pattern that is followed by a
    code unit the pattern does not hold. *)
Lemma no_match_before_sep pattern c a rest i :
  ~ In c pattern -> pattern <> [] ->
  occurs pattern a = false ->
  (i <= length a)%nat ->
  starts_with pattern (skipn i (a ++ c :: rest)) = false.
Proof.
  intros Hc Hne Ha Hi. rewrite skipn_app.
  replace (i - length a)%nat with 0%nat by lia. rewrite skipn_O.
  destruct (starts_with pattern (skipn i a ++ c :: rest)) eqn:H; [|reflexivity].
  apply starts_with_app_sep in H; [|exact Hc].
  rewrite (occurs_skipn pattern a i Ha) in H. discriminate.
Qed.

Lemma first_index_spec pattern : forall q s,
  starts_with pattern (skipn q s) = true ->
  (forall i, (i < q)%nat -> starts_with pattern (skipn i s) = false) ->
  first_index pattern s = Some q.
Proof.
  induction q as [|q IH]; intros s Hq Hbefore.
  - rewrite skipn_O in Hq. destruct s; cbn; by rewrite Hq.
  - pose proof (Hbefore 0%nat ltac:(lia)) as H0. rewrite skipn_O in H0.
    destruct s as [|c s].
    + rewrite skipn_nil in Hq. congruence.
    + rewrite skipn_cons in Hq. cbn [first_index]. rewrite H0.
      rewrite (IH s); [reflexivity|exact Hq|].
      intros i Hi. specialize (Hbefore (S i) ltac:(lia)).
      by rewrite skipn_cons in Hbefore.
Qed.

(** Dropping the rest of a match is scanning on after it. *)
Lemma remove_matches_skip matcher : forall s k,
  remove_matches matcher k s = remove_matches matcher 0 (skipn k s).
Proof.
  induction s as [|c s IH]; intros k; [by destruct k|].
  destruct k as [|k]; [by rewrite skipn_O|]. rewrite skipn_cons.
  cbn [remove_matches]. apply IH.
Qed.

Lemma remove_matches_match matcher s n :
  matcher s = Some n -> (0 < n)%nat ->
  remove_matches matcher 0 s = remove_matches matcher 0 (skipn n s).
Proof.
  intros Hm Hn. destruct s as [|c s]; [by rewrite skipn_nil|].
  cbn [remove_matches]. rewrite Hm. destruct n as [|n]; [lia|].
  rewrite skipn_cons. apply remove_matches_skip.
Qed.

(** A prefix in which the expression matches nowhere is kept. *)
Lemma remove_matches_prefix matcher : forall a b,
  (forall i, (i < length a)%nat -> matcher (skipn i (a ++ b)) = None) ->
  remove_matches matcher 0 (a ++ b) = a ++ remove_matches matcher 0 b.
Proof.
  induction a as [|c a IH]; intros b H; [reflexivity|].
  cbn [app remove_matches].
  pose proof (H 0%nat ltac:(cbn; lia)) as H0. rewrite skipn_O in H0.
  cbn [app] in H0. rewrite H0.
  f_equal. apply IH. intros i Hi. specialize (H (S i) ltac:(cbn; lia)).
  by rewrite <- app_comm_cons, skipn_cons in H.
Qed.

Lemma skipn_white_space_run s : skipn (white_space_run s) s = trimStart s.
Proof.
  induction s as [|c s IH]; [reflexivity|]. cbn [white_space_run trimStart].
  destruct (is_white_space c); [by rewrite skipn_cons|by rewrite skipn_O].
Qed.

(** *** [trim] *)

Lemma trimStart_app_stop u x r :
  is_white_space x = false -> trimStart (u ++ x :: r) = trimStart u ++ x :: r.
Proof.
  intros Hx. induction u as [|c u IH]; cbn; [by rewrite Hx|].
  destruct (is_white_space c); [exact IH|reflexivity].
Qed.

Lemma trimEnd_app_stop a x b :
  is_white_space x = false -> trimEnd ((a ++ [x]) ++ b) = (a ++ [x]) ++ trimEnd b.
Proof.
  intros Hx. unfold trimEnd. rewrite !rev_app_distr. cbn [rev app].
  rewrite trimStart_app_stop by exact Hx.
  rewrite rev_app_distr. cbn [rev]. by rewrite rev_involutive.
Qed.

Lemma trimStart_fixed s x : hd_error s = Some x -> is_white_space x = false ->
  trimStart s = s.
Proof. destruct s as [|c s]; [done|]. cbn. by intros [= ->] ->. Qed.

Lemma trimStart_blank_app a s : blank a -> trimStart (a ++ s) = trimStart s.
Proof.
  induction 1 as [|c a Hc _ IH]; [reflexivity|]. cbn. by rewrite Hc.
Qed.

Lemma trimEnd_app_blank s b : blank b -> trimEnd (s ++ b) = trimEnd s.
Proof.
  intros Hb. unfold trimEnd. rewrite rev_app_distr.
  rewrite trimStart_blank_app; [reflexivity|]. by apply Forall_rev.
Qed.

(** The two ends are trimmed independently. *)
Lemma trimStart_trimEnd s : trimStart (trimEnd s) = trimEnd (trimStart s).
Proof.
  destruct (trimStart_split s) as (a & Hs & Ha).
  destruct (trimStart s) as [|x m] eqn:Hm.
  - rewrite app_nil_r in Hs. subst a.
    assert (He : trimEnd s = []).
    { unfold trimEnd. rewrite trimStart_blank; [reflexivity|]. by apply Forall_rev. }
    rewrite He. reflexivity.
  - pose proof (trimStart_head s x) as Hx. rewrite Hm in Hx. specialize (Hx eq_refl).
    rewrite Hs. change (a ++ x :: m) with (a ++ [x] ++ m). rewrite app_assoc.
    rewrite trimEnd_app_stop by exact Hx. rewrite <- app_assoc.
    rewrite trimStart_blank_app by exact Ha. cbn [app trimStart]. rewrite Hx.
    change (x :: m) with (([] ++ [x]) ++ m).
    rewrite trimEnd_app_stop by exact Hx. reflexivity.
Qed.

Lemma skipn_length_add {A} (a b : list A) k : skipn (length a + k) (a ++ b) = skipn k b.
Proof. induction a as [|x a IH]; [reflexivity|]. cbn [length Nat.add app]. by rewrite skipn_cons. Qed.

Lemma skipn_length_app {A} (a b : list A) : skipn (length a) (a ++ b) = b.
Proof. rewrite <- (Nat.add_0_r (length a)), skipn_length_add. apply skipn_O. Qed.

Lemma firstn_length_app {A} (a b : list A) : firstn (length a) (a ++ b) = a.
Proof. induction a as [|x a IH]; [reflexivity|]. cbn. by rewrite IH. Qed.

Lemma first_capture_here s group :
  context_capture s = Some group -> first_capture s = Some group.
Proof. intros H. destruct s; cbn [first_capture]; by rewrite H. Qed.

Lemma Forall_imap_intro {A B} (P : B -> Prop) (l : list A) : forall (f : nat -> A -> B),
  (forall i x, In x l -> P (f i x)) -> Forall P (imap f l).
Proof.
  induction l as [|x l IH]; intros f H; cbn [imap]; constructor.
  - apply H. by left.
  - apply IH. intros i y Hy. apply H. by right.
Qed.

(** *** The context block *)

Lemma occurs_LF pattern b :
  ~ In 10%N pattern -> pattern <> [] ->
  occurs pattern b = false -> occurs pattern (LF ++ b) = false.
Proof.
  intros Hc Hne Hb. apply (occurs_app_sep pattern 10%N [] b Hc); [|exact Hb].
  by apply occurs_nil.
Qed.

Lemma occurs_LF_between pattern a b :
  ~ In 10%N pattern ->
  occurs pattern a = false -> occurs pattern b = false ->
  occurs pattern (a ++ LF ++ b) = false.
Proof. apply occurs_app_sep. Qed.

Lemma occurs_join pattern sections :
  ~ In 10%N pattern -> pattern <> [] ->
  Forall (fun s => occurs pattern s = false) sections ->
  occurs pattern (join (LF ++ LF) sections) = false.
Proof.
  intros Hc Hne. induction 1 as [|s sections Hs Hrest IH]; [by apply occurs_nil|].
  destruct sections as [|s' sections]; [exact Hs|].
  change (join (LF ++ LF) (s :: s' :: sections))
    with (s ++ (LF ++ LF) ++ join (LF ++ LF) (s' :: sections)).
  rewrite <- app_assoc. apply occurs_LF_between; [exact Hc|exact Hs|].
  by apply occurs_LF.
Qed.

Lemma digits_range d : Forall (fun c => (48 <= c <= 57)%N) (digits d).
Proof. induction d; cbn [digits]; constructor; try exact IHd; lia. Qed.

Lemma decimal_without c n : (c < 48 \/ 57 < c)%N -> ~ In c (decimal n).
Proof.
  intros Hc Hin. pose proof (digits_range (Nat.to_uint n)) as H.
  rewrite List.Forall_forall in H. specialize (H c Hin). lia.
Qed.

Section Block.
Variable toFixed1 : float -> js_string.
Hypothesis toFixed1_plain : forall x, Forall plain (toFixed1 x).

Lemma toFixed1_without_lt x : ~ In 60%N (toFixed1 x).
Proof.
  intros Hin. pose proof (toFixed1_plain x) as H.
  rewrite List.Forall_forall in H. by destruct (H _ Hin).
Qed.

Lemma toFixed1_without_bracket x : ~ In 91%N (toFixed1 x).
Proof.
  intros Hin. pose proof (toFixed1_plain x) as H.
  rewrite List.Forall_forall in H. by destruct (H _ Hin).
Qed.

(** The first line of a section, and the section as that line, a line feed
    and the content. *)
Lemma contextSection_lines index result :
  contextSection toFixed1 index result
  = (91%N :: 68%N :: lit "ocument " ++ decimal (index + 1) ++ lit "] (Relevance: "
       ++ toFixed1 (similarity result * 100)%float ++ lit "%)")
    ++ LF ++ DocumentChunk.content (chunk result).
Proof. unfold contextSection. cbn [app]. by rewrite <- !app_assoc. Qed.

Lemma section_line_without c index result :
  c <> 68%N -> ~ In c (lit "ocument ") -> ~ In c (lit "] (Relevance: ") ->
  ~ In c (lit "%)") -> (c < 48 \/ 57 < c)%N -> ~ In c (toFixed1 (similarity result * 100)%float) ->
  ~ In c (68%N :: lit "ocument " ++ decimal (index + 1) ++ lit "] (Relevance: "
            ++ toFixed1 (similarity result * 100)%float ++ lit "%)").
Proof.
  intros H68 H1 H2 H3 Hd Hf [Heq|Hin]; [congruence|].
  repeat (apply in_app_or in Hin as [Hin|Hin]); try tauto.
  by eapply decimal_without.
Qed.

Lemma contextSection_unmarked index result :
  unmarked (DocumentChunk.content (chunk result)) ->
  unmarked (contextSection toFixed1 index result).
Proof.
  intros [Hthink Hclose]. rewrite contextSection_lines. split.
  - apply occurs_LF_between; [by vm_compute; intuition discriminate| |exact Hthink].
    apply (occurs_no_head 60%N (lit "think>")). intros [Heq|Hin]; [discriminate|].
    revert Hin. apply section_line_without; try discriminate; try lia;
      try (vm_compute; intuition discriminate).
    apply toFixed1_without_lt.
  - apply occurs_LF_between; [by vm_compute; intuition discriminate| |exact Hclose].
    rewrite occurs_cons. apply orb_false_intro; [reflexivity|].
    apply (occurs_no_head 91%N (lit "END CONTEXT]")).
    apply section_line_without; try discriminate; try lia;
      try (vm_compute; intuition discriminate).
    apply toFixed1_without_bracket.
Qed.

Lemma formatRetrievedContext_block results :
  results <> [] ->
  formatRetrievedContext toFixed1 results
  = CONTEXT_OPEN ++ context_body toFixed1 results ++ CONTEXT_CLOSE ++ LF ++ LF.
Proof.
  intros Hne. unfold formatRetrievedContext, context_body, context_header.
  destruct results as [|r results]; [done|]. cbn [length Nat.eqb].
  by rewrite <- !app_assoc.
Qed.

Lemma contextSections_unmarked results :
  Forall (fun r => unmarked (DocumentChunk.content (chunk r))) results ->
  Forall unmarked (contextSections toFixed1 results).
Proof.
  intros H. apply Forall_imap_intro. intros i r Hr.
  apply contextSection_unmarked. rewrite List.Forall_forall in H. by apply H.
Qed.

Lemma think_open_without_LF : ~ In 10%N THINK_OPEN.
Proof. vm_compute. intuition discriminate. Qed.

Lemma context_close_without_LF : ~ In 10%N CONTEXT_CLOSE.
Proof. vm_compute. intuition discriminate. Qed.

(** The block without its last line feed holds no [<think>]. *)
Lemma block_without_think results :
  Forall (fun r => unmarked (DocumentChunk.content (chunk r))) results ->
  occurs THINK_OPEN
    (CONTEXT_OPEN ++ context_body toFixed1 results ++ CONTEXT_CLOSE ++ LF) = false.
Proof.
  intros H. apply contextSections_unmarked in H. unfold context_body.
  rewrite <- !app_assoc.
  pose proof think_open_without_LF as Hc.
  assert (Hne : THINK_OPEN <> []) by discriminate.
  apply occurs_LF_between; [exact Hc|reflexivity|].
  apply occurs_LF_between; [exact Hc|reflexivity|].
  apply occurs_LF; [exact Hc|exact Hne|].
  apply occurs_LF_between; [exact Hc| |].
  - apply occurs_join; [exact Hc|exact Hne|].
    eapply List.Forall_impl; [|exact H]. by intros s [Hs _].
  - apply occurs_LF; [exact Hc|exact Hne|reflexivity].
Qed.

(** The body without its last line feed holds no [[END CONTEXT]]. *)
Lemma body_without_close results :
  Forall (fun r => unmarked (DocumentChunk.content (chunk r))) results ->
  exists core,
    context_body toFixed1 results = core ++ LF
    /\ occurs CONTEXT_CLOSE core = false.
Proof.
  intros H. apply contextSections_unmarked in H.
  exists (LF ++ context_header ++ LF ++ LF
          ++ join (LF ++ LF) (contextSections toFixed1 results) ++ LF).
  split; [unfold context_body; by rewrite <- !app_assoc|].
  pose proof context_close_without_LF as Hc.
  assert (Hne : CONTEXT_CLOSE <> []) by discriminate.
  apply occurs_LF; [exact Hc|exact Hne|].
  apply occurs_LF_between; [exact Hc|reflexivity|].
  apply occurs_LF; [exact Hc|exact Hne|].
  change (join (LF ++ LF) (contextSections toFixed1 results) ++ LF)
    with (join (LF ++ LF) (contextSections toFixed1 results) ++ LF ++ []).
  apply occurs_LF_between; [exact Hc| |reflexivity].
  apply occurs_join; [exact Hc|exact Hne|].
  eapply List.Forall_impl; [|exact H]. by intros s [_ Hs].
Qed.

(** The message without its thinking part: the block stays, up to the white
    space at its end. *)
Lemma contentWithoutThink_block results input :
  results <> [] ->
  Forall (fun r => unmarked (DocumentChunk.content (chunk r))) results ->
  contentWithoutThink (formatRetrievedContext toFixed1 results ++ input)
  = CONTEXT_OPEN ++ context_body toFixed1 results ++ CONTEXT_CLOSE
    ++ trimEnd (LF ++ LF ++ remove_matches think_match 0 input).
Proof.
  intros Hne H. rewrite formatRetrievedContext_block by exact Hne.
  unfold contentWithoutThink.
  set (body := context_body toFixed1 results).
  rewrite remove_matches_prefix.
  - set (rest := remove_matches think_match 0 input). unfold trim.
    rewrite (trimStart_fixed _ 91%N); [|reflexivity|reflexivity].
    replace ((CONTEXT_OPEN ++ body ++ CONTEXT_CLOSE ++ LF ++ LF) ++ rest)
      with (((CONTEXT_OPEN ++ body ++ lit "[END CONTEXT") ++ [93%N]) ++ LF ++ LF ++ rest)
      by (by rewrite <- !app_assoc).
    rewrite trimEnd_app_stop by reflexivity. by rewrite <- !app_assoc.
  - intros i Hi. unfold think_match.
    replace ((CONTEXT_OPEN ++ body ++ CONTEXT_CLOSE ++ LF ++ LF) ++ input)
      with ((CONTEXT_OPEN ++ body ++ CONTEXT_CLOSE ++ LF) ++ 10%N :: input)
      by (by rewrite <- !app_assoc).
    rewrite no_match_before_sep; [reflexivity|exact think_open_without_LF|discriminate| |].
    + by apply block_without_think.
    + rewrite !length_app in Hi |- *. change (length (LF ++ LF)) with 2%nat in Hi.
      change (length LF) with 1%nat. lia.
Qed.

Lemma first_index_close_block results rest :
  Forall (fun r => unmarked (DocumentChunk.content (chunk r))) results ->
  first_index CONTEXT_CLOSE (context_body toFixed1 results ++ CONTEXT_CLOSE ++ rest)
  = Some (length (context_body toFixed1 results)).
Proof.
  intros H. destruct (body_without_close results H) as (core & Hbody & Hcore).
  apply first_index_spec.
  - rewrite skipn_length_app. apply starts_with_app.
  - intros i Hi. rewrite Hbody in *. rewrite <- app_assoc.
    apply no_match_before_sep;
      [exact context_close_without_LF|discriminate|exact Hcore|].
    rewrite length_app in Hi. change (length LF) with 1%nat in Hi. lia.
Qed.

Lemma context_match_block results rest :
  Forall (fun r => unmarked (DocumentChunk.content (chunk r))) results ->
  context_match (CONTEXT_OPEN ++ context_body toFixed1 results ++ CONTEXT_CLOSE ++ rest)
  = Some (length CONTEXT_OPEN + length (context_body toFixed1 results)
          + length CONTEXT_CLOSE + white_space_run rest)%nat.
Proof.
  intros H. unfold context_match.
  rewrite starts_with_app, skipn_length_app, first_index_close_block by exact H.
  by rewrite skipn_length_add, skipn_length_app.
Qed.

(** What is shown of a message that begins with a context block is what is
    shown of the rest of the message. *)
Lemma cleanContent_block results input :
  results <> [] ->
  Forall (fun r => unmarked (DocumentChunk.content (chunk r))) results ->
  cleanContent (formatRetrievedContext toFixed1 results ++ input) = cleanContent input.
Proof.
  intros Hne H. unfold cleanContent at 1. rewrite contentWithoutThink_block by done.
  set (rest := trimEnd (LF ++ LF ++ remove_matches think_match 0 input)).
  rewrite (remove_matches_match _ _ _ (context_match_block results rest H))
    by (unfold CONTEXT_OPEN; cbn; lia).
  rewrite <- !Nat.add_assoc, skipn_length_add, skipn_length_add, skipn_length_add.
  rewrite skipn_white_space_run. unfold rest.
  rewrite trimStart_trimEnd. reflexivity.
Qed.

Lemma ragContext_block results input :
  results <> [] ->
  Forall (fun r => unmarked (DocumentChunk.content (chunk r))) results ->
  ragContext (formatRetrievedContext toFixed1 results ++ input)
  = Some (trim (context_body toFixed1 results)).
Proof.
  intros Hne H. unfold ragContext. rewrite contentWithoutThink_block by done.
  unfold getRagContext. erewrite first_capture_here; [reflexivity|].
  unfold context_capture.
  rewrite starts_with_app, skipn_length_app, first_index_close_block by exact H.
  by rewrite firstn_length_app.
Qed.

(** The context block [formatRetrievedContext] builds is taken out again by
    [cleanContent]: of a message made of the block and a text, what is
    shown is what is shown of the text alone, and the context shown with it
    is the trimmed body of the block.  This holds when the content of no
    result holds [<think>] or [[END CONTEXT]], the notation of a number
    holding neither [<] nor [[]. *)
Theorem cleanContent_strips_the_context_block (results : list Scored)
    (input : js_string) :
  results <> [] ->
  Forall (fun r => unmarked (DocumentChunk.content (chunk r))) results ->
  cleanContent (formatRetrievedContext toFixed1 results ++ input) = cleanContent input
  /\ ragContext (formatRetrievedContext toFixed1 results ++ input)
     = Some (trim (context_body toFixed1 results)).
Proof.
  intros Hne H. split; [by apply cleanContent_block|by apply ragContext_block].
Qed.

Variable generateEmbedding : js_string -> result (list float).

(** What is shown of the message [onSubmit] sends is what is shown of the
    question as it was typed, whatever was retrieved, when no stored chunk
    holds [<think>] or [[END CONTEXT]]. *)
Theorem cleanContent_of_augmentedInput (isRAGEnabled : bool) (db : RAGDatabase)
    (input : js_string) (ragMaxResults : nat) (ragSimilarityThreshold : float) :
  (forall key c, chunks db !! key = Some c -> unmarked (DocumentChunk.content c)) ->
  cleanContent
    (augmentedInput generateEmbedding toFixed1 isRAGEnabled db input ragMaxResults
       ragSimilarityThreshold)
  = cleanContent input.
Proof.
  intros Hdb. unfold augmentedInput. destruct isRAGEnabled; [|reflexivity].
  destruct (Nat.eqb_spec (length (getAllChunks db)) 0) as [|Hn]; [reflexivity|].
  destruct (filteredResults _ _ _ _ _) as [e|filtered] eqn:Hf; [reflexivity|].
  destruct (Nat.ltb_spec 0 (length filtered)) as [Hpos|]; [|reflexivity].
  apply cleanContent_block; [by destruct filtered; [cbn in Hpos; lia|]|].
  apply filteredResults_inv in Hf as (q & Hq & ->); [|by destruct (getAllChunks db)].
  apply List.Forall_forall. intros r [Hin _]%filter_In.
  apply In_firstn_in in Hin.
  apply (Permutation_in _ (sort_Permutation _ _)) in Hin.
  apply in_map_iff in Hin as (c & <- & Hc). cbn.
  apply getAllChunks_stored in Hc as [key Hc]. by eapply Hdb.
Qed.

End Block.

End DisplayFacts.

Section DisplayExamples.
Import JS Throw RagUtils RagDb RagDbOps Format Submit Display.

Lemma fixed_example_plain : forall x, Forall plain (fixed_example x).
Proof. intros x. repeat constructor; discriminate. Qed.

Lemma cleanContent_strips_the_context_block_witness :
  cleanContent
    (formatRetrievedContext fixed_example [mkScored match_chunk 1%float] ++ [104; 105]%N)
  = cleanContent [104; 105]%N
  /\ ragContext
       (formatRetrievedContext fixed_example [mkScored match_chunk 1%float]
        ++ [104; 105]%N)
     = Some (trim (context_body fixed_example [mkScored match_chunk 1%float])).
Proof.
  apply (cleanContent_strips_the_context_block fixed_example fixed_example_plain
           [mkScored match_chunk 1%float] [104; 105]%N).
  - discriminate.
  - repeat constructor.
Defined.

Lemma cleanContent_of_augmentedInput_witness :
  cleanContent
    (augmentedInput (constant_embedder [1%float]) fixed_example true kept_db
       [104; 105]%N 5 0.5%float)
  = cleanContent [104; 105]%N.
Proof.
  apply (cleanContent_of_augmentedInput fixed_example fixed_example_plain
           (constant_embedder [1%float]) true kept_db [104; 105]%N 5 0.5%float).
  intros key c Hc. unfold kept_db in Hc. cbn [chunks] in Hc.
  apply lookup_singleton_Some in Hc as [_ <-]. by split.
Defined.

End DisplayExamples.

(** ** The address of the server *)

Section ConfigFacts.
Import Throw.


(** The version with the switch never throws, the switch being on, and the
    two versions return the same address unless the variable is set to the
    text "undefined", which only the version with the switch returns. *)
Theorem getOllamaUrl_versions_agree (env : option string) :
  (exists url, ConfigSwitch.getOllamaUrl env = ret url)
  /\ (env <> Some "undefined" ->
      ConfigSwitch.getOllamaUrl env = ret (Config.getOllamaUrl env))
  /\ (env = Some "undefined" ->
      ConfigSwitch.getOllamaUrl env = ret "undefined"
      /\ Config.getOllamaUrl env = Config.HARDCODED_OLLAMA_URL).
Proof.
  unfold ConfigSwitch.getOllamaUrl, Config.getOllamaUrl.
  destruct env as [envUrl|]; cbn.
  - destruct (String.eqb_spec envUrl "") as [->|Hempty]; cbn [negb andb].
    + split; [by eexists|]. split; [done|]. discriminate.
    + split; [by eexists|]. split.
      * intros Hne. destruct (String.eqb_spec envUrl "undefined") as [->|]; done.
      * by intros [= ->].
  - split; [by eexists|]. split; [done|]. discriminate.
Qed.

End ConfigFacts.
